(** * Code-Canvas: the note store, its JSON file and the gutter renderer

    A shallow embedding of [src/extension.ts].  The extension keeps one
    global object [notes] from keys [filePath::line] to note texts, loads it
    from and saves it to a JSON file, and decorates the lines of an editor
    that carry a note.

    - ECMAScript strings are sequences of 16-bit code units; they are lists
      of [N] here, and a string is _well formed_ when every unit is below
      2^16.  The numbers the program handles are line numbers, embedded as
      [Z].
    - The built-in functions the source calls ([split], [replace],
      [parseInt], [JSON.stringify], [JSON.parse], [encodeURIComponent], the
      UTF-8 encoding of [fs]) are embedded after ECMA-262 and the Encoding
      Standard; [toLowerCase], which needs the case tables of Unicode, is a
      parameter.
    - What is at the path of the notes file is a state of its own, with the
      ways the calls of [fs] fail there: a directory that cannot be made, a
      file that cannot be opened or read, and a write that is cut short
      after the file was created or emptied.
    - The global [notes], the notes file and what the extension shows to the
      user are one state, threaded through a monad of state and exceptions.
      A command is one step: the callback it passes to [then] runs in the
      state the command left, with the value the input box resolved to. *)

From Stdlib Require Import Decimal DecimalN DecimalPos.
From Stdlib Require Import List NArith ZArith Bool Lia String Ascii.
Import ListNotations.

Local Open Scope N_scope.

(** ** ECMAScript strings *)

Definition jsstring := list N.

(** An ASCII literal of the source, as code units. *)
Definition str (s : string) : jsstring :=
  map N_of_ascii (list_ascii_of_string s).

Definition code_unit (c : N) : bool := c <? 65536.

Definition wf_string (s : jsstring) : bool := forallb code_unit s.

(** [a === b] on strings: the same code units in the same order. *)
Fixpoint string_eqb (a b : jsstring) : bool :=
  match a, b with
  | [], [] => true
  | x :: a', y :: b' => (x =? y) && string_eqb a' b'
  | _, _ => false
  end.

(** *** Number to string, for integers ([${line}] in a template literal) *)

Fixpoint uint_chars (u : uint) : jsstring :=
  match u with
  | Nil => []
  | D0 u => 48 :: uint_chars u
  | D1 u => 49 :: uint_chars u
  | D2 u => 50 :: uint_chars u
  | D3 u => 51 :: uint_chars u
  | D4 u => 52 :: uint_chars u
  | D5 u => 53 :: uint_chars u
  | D6 u => 54 :: uint_chars u
  | D7 u => 55 :: uint_chars u
  | D8 u => 56 :: uint_chars u
  | D9 u => 57 :: uint_chars u
  end.

(** [Number::toString] of an integer; the exponent form that ECMAScript
    switches to from 10^21 on is out of reach of a line number. *)
Definition Number_toString (z : Z) : jsstring :=
  match z with
  | Z0 => str "0"
  | Zpos p => uint_chars (Pos.to_uint p)
  | Zneg p => 45 :: uint_chars (Pos.to_uint p)
  end.

(** The key of a note: the template literal [`${filePath}::${line}`]. *)
Definition noteKey (filePath : jsstring) (line : Z) : jsstring :=
  filePath ++ str "::" ++ Number_toString line.

(** *** [String.prototype.split] with the separator ['::'] *)

(** [cur] holds, reversed, the units read since the last separator.  The scan
    goes left to right and a matched separator is consumed whole, so
    ["a:::b"] splits into ["a"] and [":b"]. *)
Fixpoint split_from (s : jsstring) (cur : jsstring) : list jsstring :=
  match s with
  | [] => [rev cur]
  | c :: r =>
      match r with
      | c' :: r' =>
          if (c =? 58) && (c' =? 58)
          then rev cur :: split_from r' []
          else split_from r (c :: cur)
      | [] => split_from r (c :: cur)
      end
  end.

Definition split (key : jsstring) : list jsstring := split_from key [].

(** The two parts the renderer takes from a key: [filePath] is the first
    piece, and [lineStr] the second, [undefined] when there is none. *)
Definition key_path (key : jsstring) : jsstring := hd [] (split key).

Definition key_line (key : jsstring) : option jsstring := hd_error (tl (split key)).

(** The paths in which every colon is followed by a code unit that is not
    a colon: the paths that the separator of a key cannot be confused with. *)
Fixpoint no_separator (path : jsstring) : bool :=
  match path with
  | [] => true
  | c :: r =>
      (if c =? 58
       then match r with
            | c' :: _ => negb (c' =? 58)
            | [] => false
            end
       else true) && no_separator r
  end.

(** *** [replace(/\\/g, '/')] *)

Definition replace_backslashes (s : jsstring) : jsstring :=
  map (fun c => if c =? 92 then 47 else c) s.

(** *** [parseInt(s, 10)] *)

(** [StrWhiteSpaceChar]: the white space and line terminators that
    [parseInt] skips at the start of its input. *)
Definition StrWhiteSpaceChar (c : N) : bool :=
  (c =? 9) || (c =? 10) || (c =? 11) || (c =? 12) || (c =? 13) || (c =? 32)
  || (c =? 160) || (c =? 5760) || ((8192 <=? c) && (c <=? 8202))
  || (c =? 8232) || (c =? 8233) || (c =? 8239) || (c =? 8287)
  || (c =? 12288) || (c =? 65279).

Fixpoint trim_start (s : jsstring) : jsstring :=
  match s with
  | c :: r => if StrWhiteSpaceChar c then trim_start r else s
  | [] => []
  end.

Definition is_digit (c : N) : bool := (48 <=? c) && (c <=? 57).

(** The longest prefix of decimal digits, as a decimal numeral. *)
Fixpoint digit_prefix (s : jsstring) : uint :=
  match s with
  | 48 :: r => D0 (digit_prefix r)
  | 49 :: r => D1 (digit_prefix r)
  | 50 :: r => D2 (digit_prefix r)
  | 51 :: r => D3 (digit_prefix r)
  | 52 :: r => D4 (digit_prefix r)
  | 53 :: r => D5 (digit_prefix r)
  | 54 :: r => D6 (digit_prefix r)
  | 55 :: r => D7 (digit_prefix r)
  | 56 :: r => D8 (digit_prefix r)
  | 57 :: r => D9 (digit_prefix r)
  | _ => Nil
  end.

(** An optional sign: whether it is [-], and the rest. *)
Definition strip_sign (s : jsstring) : bool * jsstring :=
  match s with
  | 45 :: r => (true, r)
  | 43 :: r => (false, r)
  | _ => (false, s)
  end.

(** [parseInt(input, 10)]; [None] stands for [NaN].  An [undefined] input is
    first turned into the string ["undefined"].  The result is the exact
    integer: the source only uses it under [line < lineCount], where the
    Number that ECMAScript returns is that same integer, and [-0] is [0]
    for every use the source makes of it. *)
Definition parseInt (input : option jsstring) : option Z :=
  let inputString := match input with
                     | Some s => s
                     | None => str "undefined"
                     end in
  let (negative, body) := strip_sign (trim_start inputString) in
  match digit_prefix body with
  | Nil => None
  | digits =>
      let mathInt := Z.of_N (N.of_uint digits) in
      Some (if negative then (- mathInt)%Z else mathInt)
  end.

(** The decimal numerals of the non-negative integers: digits only, and no
    leading zero. *)
Definition canonical_decimal (s : jsstring) : bool :=
  match s with
  | [] => false
  | [48] => true
  | 48 :: _ => false
  | _ => forallb is_digit s
  end.

(** Whether a string starts with a decimal digit. *)
Definition starts_with_digit (s : jsstring) : bool :=
  match s with
  | c :: _ => is_digit c
  | [] => false
  end.

(** ** Ordinary objects

    An object is the list of its own enumerable string-keyed properties in
    the order [Object.entries] and [JSON.stringify] visit them: array-index
    keys first, by ascending value, then the other keys in the order of
    their creation.  The prototype chain is left out: every key the source
    looks up or writes contains ['::'], which no member of
    [Object.prototype] does. *)

Section Objects.

Context {V : Type}.

Definition object := list (jsstring * V).

(** The array index a key denotes: a canonical decimal numeral of a value
    up to 2^32 - 2. *)
Definition array_index (k : jsstring) : option N :=
  match k with
  | [] => None
  | [48] => Some 0
  | 48 :: _ => None
  | _ =>
      if forallb is_digit k
      then let n := N.of_uint (digit_prefix k) in
           if n <=? 4294967294 then Some n else None
      else None
  end.

(** [o[k]], [None] for [undefined]. *)
Fixpoint obj_get (o : object) (k : jsstring) : option V :=
  match o with
  | [] => None
  | (k', v) :: o' => if string_eqb k' k then Some v else obj_get o' k
  end.

Definition has_key (o : object) (k : jsstring) : bool :=
  existsb (fun kv => string_eqb (fst kv) k) o.

(** Writing an existing property keeps its place. *)
Fixpoint obj_replace (o : object) (k : jsstring) (v : V) : object :=
  match o with
  | [] => []
  | (k', v') :: o' =>
      if string_eqb k' k then (k', v) :: o' else (k', v') :: obj_replace o' k v
  end.

(** A new array-index key goes among the array-index keys, by value. *)
Fixpoint obj_insert_index (o : object) (i : N) (k : jsstring) (v : V) : object :=
  match o with
  | [] => [(k, v)]
  | (k', v') :: o' =>
      match array_index k' with
      | Some j => if j <? i then (k', v') :: obj_insert_index o' i k v
                  else (k, v) :: o
      | None => (k, v) :: o
      end
  end.

(** [o[k] = v]. *)
Definition obj_set (o : object) (k : jsstring) (v : V) : object :=
  if has_key o k then obj_replace o k v
  else match array_index k with
       | Some i => obj_insert_index o i k v
       | None => o ++ [(k, v)]
       end.


(** The lists that are objects: no key twice, array-index keys first and
    ascending. *)
Fixpoint keys_unique (o : object) : bool :=
  match o with
  | [] => true
  | (k, _) :: o' => negb (has_key o' k) && keys_unique o'
  end.

Definition no_index_key (o : object) : bool :=
  forallb (fun kv => match array_index (fst kv) with
                     | Some _ => false
                     | None => true
                     end) o.

Fixpoint index_ordered (o : object) (above : option N) : bool :=
  match o with
  | [] => true
  | (k, _) :: o' =>
      match array_index k with
      | Some i =>
          match above with
          | Some b => b <? i
          | None => true
          end && index_ordered o' (Some i)
      | None => no_index_key o'
      end
  end.

Definition obj_wf (o : object) : bool :=
  keys_unique o && index_ordered o None.

End Objects.

Arguments object : clear implicits.

(** The declared type of the global [notes]: [{ [key: string]: string }]. *)
Definition Notes := object jsstring.

Definition wf_notes (o : Notes) : bool :=
  obj_wf o && forallb (fun kv => wf_string (fst kv) && wf_string (snd kv)) o.

(** ** JSON text

    *** [JSON.stringify] *)

Definition is_high_surrogate (c : N) : bool := (55296 <=? c) && (c <=? 56319).
Definition is_low_surrogate (c : N) : bool := (56320 <=? c) && (c <=? 57343).

Definition hex_lower (d : N) : N := if d <? 10 then 48 + d else 87 + d.

(** [UnicodeEscape]: a backslash, [u] and four lowercase hexadecimal digits. *)
Definition UnicodeEscape (c : N) : jsstring :=
  [92; 117; hex_lower (c / 4096 mod 16); hex_lower (c / 256 mod 16);
   hex_lower (c / 16 mod 16); hex_lower (c mod 16)].

(** The escape [QuoteJSONString] writes for a code unit that has one: the
    two-character escapes of its table, and the unicode escape of the other
    control characters. *)
Definition JSON_escape (c : N) : option jsstring :=
  if c =? 8 then Some [92; 98]
  else if c =? 9 then Some [92; 116]
  else if c =? 10 then Some [92; 110]
  else if c =? 12 then Some [92; 102]
  else if c =? 13 then Some [92; 114]
  else if c =? 34 then Some [92; 34]
  else if c =? 92 then Some [92; 92]
  else if c <? 32 then Some (UnicodeEscape c)
  else None.

(** [QuoteJSONString] goes through the code points of its argument: a
    surrogate pair is copied, a surrogate that is not part of a pair is
    written as a unicode escape. *)
Fixpoint quote_units (s : jsstring) : jsstring :=
  match s with
  | [] => []
  | c :: r =>
      match JSON_escape c with
      | Some e => e ++ quote_units r
      | None =>
          if is_high_surrogate c then
            match r with
            | c' :: r' =>
                if is_low_surrogate c' then c :: c' :: quote_units r'
                else UnicodeEscape c ++ quote_units r
            | [] => UnicodeEscape c ++ quote_units r
            end
          else if is_low_surrogate c then UnicodeEscape c ++ quote_units r
          else c :: quote_units r
      end
  end.

Definition QuoteJSONString (s : jsstring) : jsstring :=
  34 :: quote_units s ++ [34].

Fixpoint join (sep : jsstring) (l : list jsstring) : jsstring :=
  match l with
  | [] => []
  | [x] => x
  | x :: l' => x ++ sep ++ join sep l'
  end.

Definition stringify_property (kv : jsstring * jsstring) : jsstring :=
  QuoteJSONString (fst kv) ++ str ": " ++ QuoteJSONString (snd kv).

(** [JSON.stringify(notes, null, 2)]: one property a line, indented by two
    spaces; an object without properties is written [{}]. *)
Definition JSON_stringify_notes (o : Notes) : jsstring :=
  match o with
  | [] => str "{}"
  | _ => str "{" ++ [10] ++ str "  "
         ++ join ([44; 10] ++ str "  ") (map stringify_property o)
         ++ [10] ++ str "}"
  end.

(** [JSON.stringify({ filePath, line })]. *)
Definition JSON_stringify_args (filePath : jsstring) (line : Z) : jsstring :=
  str "{" ++ QuoteJSONString (str "filePath") ++ str ":" ++ QuoteJSONString filePath
  ++ str "," ++ QuoteJSONString (str "line") ++ str ":" ++ Number_toString line
  ++ str "}".

(** *** [JSON.parse] *)

(** A parsed JSON text.  The Number a numeric literal denotes is not
    computed: the literal stands for it. *)
#[local] Unset Elimination Schemes.
Inductive JSON : Type :=
| JNull
| JBool (b : bool)
| JNumber (literal : jsstring)
| JString (s : jsstring)
| JArray (elements : list JSON)
| JObject (properties : object JSON).
#[local] Set Elimination Schemes.

Definition is_JSON_ws (c : N) : bool :=
  (c =? 9) || (c =? 10) || (c =? 13) || (c =? 32).

Fixpoint skip_ws (s : jsstring) : jsstring :=
  match s with
  | c :: r => if is_JSON_ws c then skip_ws r else s
  | [] => []
  end.

Definition hex_value (c : N) : option N :=
  if is_digit c then Some (c - 48)
  else if (97 <=? c) && (c <=? 102) then Some (c - 87)
  else if (65 <=? c) && (c <=? 70) then Some (c - 55)
  else None.

Definition hex4 (a b c d : N) : option N :=
  match hex_value a, hex_value b, hex_value c, hex_value d with
  | Some a, Some b, Some c, Some d => Some (a * 4096 + b * 256 + c * 16 + d)
  | _, _, _, _ => None
  end.

(** The code unit a two-character escape stands for. *)
Definition unescape (e : N) : option N :=
  if e =? 34 then Some 34
  else if e =? 92 then Some 92
  else if e =? 47 then Some 47
  else if e =? 98 then Some 8
  else if e =? 102 then Some 12
  else if e =? 110 then Some 10
  else if e =? 114 then Some 13
  else if e =? 116 then Some 9
  else None.

Definition cons_unit (c : N) (p : option (jsstring * jsstring))
  : option (jsstring * jsstring) :=
  match p with
  | Some (x, rest) => Some (c :: x, rest)
  | None => None
  end.

(** A string, read from after its opening quote: its value and what follows
    the closing quote. *)
Fixpoint parse_string (s : jsstring) : option (jsstring * jsstring) :=
  match s with
  | [] => None
  | c :: r =>
      if c =? 34 then Some ([], r)
      else if c =? 92 then
        match r with
        | e :: r1 =>
            if e =? 117 then
              match r1 with
              | h1 :: h2 :: h3 :: h4 :: r2 =>
                  match hex4 h1 h2 h3 h4 with
                  | Some u => cons_unit u (parse_string r2)
                  | None => None
                  end
              | _ => None
              end
            else
              match unescape e with
              | Some u => cons_unit u (parse_string r1)
              | None => None
              end
        | [] => None
        end
      else if c <? 32 then None
      else cons_unit c (parse_string r)
  end.

Fixpoint take_digits (s : jsstring) : jsstring * jsstring :=
  match s with
  | c :: r =>
      if is_digit c then let (d, r') := take_digits r in (c :: d, r')
      else ([], s)
  | [] => ([], [])
  end.

(** The integer part of a number: [0], or a non-zero digit and digits. *)
Definition parse_int_part (s : jsstring) : option (jsstring * jsstring) :=
  match s with
  | c :: r =>
      if c =? 48 then Some ([c], r)
      else if is_digit c then let (d, r') := take_digits r in Some (c :: d, r')
      else None
  | [] => None
  end.

(** What follows the code unit [c] at the start of [s], when [s] starts
    with it. *)
Definition next_is (c : N) (s : jsstring) : option jsstring :=
  match s with
  | x :: r => if x =? c then Some r else None
  | [] => None
  end.

(** An optional fraction: a point and at least one digit. *)
Definition parse_frac_part (s : jsstring) : option (jsstring * jsstring) :=
  match next_is 46 s with
  | Some r =>
      match take_digits r with
      | ([], _) => None
      | (d, r') => Some (46 :: d, r')
      end
  | None => Some ([], s)
  end.

(** An optional sign of an exponent. *)
Definition parse_exp_sign (s : jsstring) : jsstring * jsstring :=
  match next_is 43 s with
  | Some r => ([43], r)
  | None =>
      match next_is 45 s with
      | Some r => ([45], r)
      | None => ([], s)
      end
  end.

(** An optional exponent: [e] or [E], an optional sign, at least one digit. *)
Definition parse_exp_part (s : jsstring) : option (jsstring * jsstring) :=
  match s with
  | c :: r =>
      if (c =? 101) || (c =? 69) then
        let (sign, r1) := parse_exp_sign r in
        match take_digits r1 with
        | ([], _) => None
        | (d, r') => Some (c :: sign ++ d, r')
        end
      else Some ([], s)
  | [] => Some ([], s)
  end.

(** An optional minus. *)
Definition parse_minus (s : jsstring) : jsstring * jsstring :=
  match next_is 45 s with
  | Some r => ([45], r)
  | None => ([], s)
  end.

Definition parse_number (s : jsstring) : option (jsstring * jsstring) :=
  let (sign, s1) := parse_minus s in
  match parse_int_part s1 with
  | Some (i, s2) =>
      match parse_frac_part s2 with
      | Some (f, s3) =>
          match parse_exp_part s3 with
          | Some (e, s4) => Some (sign ++ i ++ f ++ e, s4)
          | None => None
          end
      | None => None
      end
  | None => None
  end.

(** [s] without the prefix [p], when it starts with it. *)
Fixpoint strip_prefix (p s : jsstring) : option jsstring :=
  match p, s with
  | [], _ => Some s
  | x :: p', y :: s' => if x =? y then strip_prefix p' s' else None
  | _ :: _, [] => None
  end.

Definition parse_literal (s : jsstring) : option (JSON * jsstring) :=
  match strip_prefix (str "true") s with
  | Some r => Some (JBool true, r)
  | None =>
      match strip_prefix (str "false") s with
      | Some r => Some (JBool false, r)
      | None =>
          match strip_prefix (str "null") s with
          | Some r => Some (JNull, r)
          | None => None
          end
      end
  end.

(** A value, with the white space before it.  Every call takes one unit of
    [fuel], and two calls in a row read at least one code unit, so twice
    the length of the text bounds the fuel a parse needs.  Properties are
    created in the order of the text, a repeated key overwriting its
    value. *)
Fixpoint parse_value (fuel : nat) (s : jsstring) : option (JSON * jsstring) :=
  match fuel with
  | O => None
  | S fuel =>
      match skip_ws s with
      | [] => None
      | c :: r =>
          if c =? 123 then
            match next_is 125 (skip_ws r) with
            | Some r' => Some (JObject [], r')
            | None => parse_members fuel r []
            end
          else if c =? 91 then
            match next_is 93 (skip_ws r) with
            | Some r' => Some (JArray [], r')
            | None => parse_elements fuel r []
            end
          else if c =? 34 then
            match parse_string r with
            | Some (x, r') => Some (JString x, r')
            | None => None
            end
          else if (c =? 45) || is_digit c then
            match parse_number (c :: r) with
            | Some (x, r') => Some (JNumber x, r')
            | None => None
            end
          else parse_literal (c :: r)
      end
  end

with parse_members (fuel : nat) (s : jsstring) (acc : object JSON)
  : option (JSON * jsstring) :=
  match fuel with
  | O => None
  | S fuel =>
      match next_is 34 (skip_ws s) with
      | Some r =>
          match parse_string r with
          | Some (k, r1) =>
              match next_is 58 (skip_ws r1) with
              | Some r2 =>
                  match parse_value fuel r2 with
                  | Some (v, r3) =>
                      let acc' := obj_set acc k v in
                      match skip_ws r3 with
                      | c :: r4 =>
                          if c =? 44 then parse_members fuel r4 acc'
                          else if c =? 125 then Some (JObject acc', r4)
                          else None
                      | [] => None
                      end
                  | None => None
                  end
              | None => None
              end
          | None => None
          end
      | None => None
      end
  end

with parse_elements (fuel : nat) (s : jsstring) (acc : list JSON)
  : option (JSON * jsstring) :=
  match fuel with
  | O => None
  | S fuel =>
      match parse_value fuel s with
      | Some (v, r) =>
          match skip_ws r with
          | c :: r' =>
              if c =? 44 then parse_elements fuel r' (acc ++ [v])
              else if c =? 93 then Some (JArray (acc ++ [v]), r')
              else None
          | [] => None
          end
      | None => None
      end
  end.

(** [JSON.parse(text)]; [None] when it throws a [SyntaxError]. *)
Definition JSON_parse (text : jsstring) : option JSON :=
  match parse_value (S (2 * List.length text)) text with
  | Some (v, r) =>
      match skip_ws r with
      | [] => Some v
      | _ :: _ => None
      end
  | None => None
  end.

(** The values of the declared type of [notes]: the objects all of whose
    properties hold strings. *)
Fixpoint strings_of_properties (props : object JSON) : option Notes :=
  match props with
  | [] => Some []
  | (k, JString s) :: props' =>
      match strings_of_properties props' with
      | Some o => Some ((k, s) :: o)
      | None => None
      end
  | _ => None
  end.

Definition notes_of_JSON (v : JSON) : option Notes :=
  match v with
  | JObject props => strings_of_properties props
  | _ => None
  end.

(** ** UTF-8, the encoding of the notes file *)

Definition utf8_of_code_point (cp : N) : list N :=
  if cp <? 128 then [cp]
  else if cp <? 2048 then [192 + cp / 64; 128 + cp mod 64]
  else if cp <? 65536 then
    [224 + cp / 4096; 128 + (cp / 64) mod 64; 128 + cp mod 64]
  else
    [240 + cp / 262144; 128 + (cp / 4096) mod 64; 128 + (cp / 64) mod 64;
     128 + cp mod 64].

Definition code_point_of_pair (hi lo : N) : N :=
  65536 + (hi - 55296) * 1024 + (lo - 56320).

Definition units_of_code_point (cp : N) : jsstring :=
  if cp <? 65536 then [cp]
  else [55296 + (cp - 65536) / 1024; 56320 + (cp - 65536) mod 1024].

(** U+FFFD, in UTF-8. *)
Definition replacement_bytes : list N := [239; 191; 189].

(** What [writeFileSync(path, text, 'utf8')] writes: a surrogate pair is one
    code point, a surrogate outside a pair is replaced by U+FFFD. *)
Fixpoint utf8_encode (s : jsstring) : list N :=
  match s with
  | [] => []
  | c :: r =>
      if is_high_surrogate c then
        match r with
        | c' :: r' =>
            if is_low_surrogate c'
            then utf8_of_code_point (code_point_of_pair c c') ++ utf8_encode r'
            else replacement_bytes ++ utf8_encode r
        | [] => replacement_bytes ++ utf8_encode r
        end
      else if is_low_surrogate c then replacement_bytes ++ utf8_encode r
      else utf8_of_code_point c ++ utf8_encode r
  end.

(** The decoder in the middle of a sequence: the bits read so far, the
    number of bytes still to come, and the range of the next byte. *)
Record utf8_pending : Type := mk_pending {
  pending_bits : N;
  pending_needed : nat;
  pending_lower : N;
  pending_upper : N
}.

(** A byte met outside a sequence: the text it gives and the sequence it
    opens. *)
Definition utf8_lead (b : N) : jsstring * option utf8_pending :=
  if b <=? 127 then ([b], None)
  else if (194 <=? b) && (b <=? 223) then
    ([], Some (mk_pending (b mod 32) 1 128 191))
  else if (224 <=? b) && (b <=? 239) then
    ([], Some (mk_pending (b mod 16) 2
                 (if b =? 224 then 160 else 128)
                 (if b =? 237 then 159 else 191)))
  else if (240 <=? b) && (b <=? 244) then
    ([], Some (mk_pending (b mod 8) 3
                 (if b =? 240 then 144 else 128)
                 (if b =? 244 then 143 else 191)))
  else ([65533], None).

(** What [readFileSync(path, 'utf8')] returns for the bytes of a file: a
    byte that cannot continue or start a sequence gives U+FFFD, and a byte
    that ends a sequence early is read again as the start of the next. *)
Fixpoint utf8_decode_from (st : option utf8_pending) (bs : list N) : jsstring :=
  match bs with
  | [] =>
      match st with
      | Some _ => [65533]
      | None => []
      end
  | b :: r =>
      match st with
      | None =>
          let (out, st') := utf8_lead b in out ++ utf8_decode_from st' r
      | Some p =>
          if (pending_lower p <=? b) && (b <=? pending_upper p) then
            let bits := pending_bits p * 64 + b mod 64 in
            match pending_needed p with
            | S (S n) => utf8_decode_from (Some (mk_pending bits (S n) 128 191)) r
            | _ => units_of_code_point bits ++ utf8_decode_from None r
            end
          else
            let (out, st') := utf8_lead b in
            65533 :: out ++ utf8_decode_from st' r
      end
  end.

Definition utf8_decode (bs : list N) : jsstring := utf8_decode_from None bs.

(** *** [encodeURIComponent] *)

Definition uri_unreserved (c : N) : bool :=
  ((65 <=? c) && (c <=? 90)) || ((97 <=? c) && (c <=? 122)) || is_digit c
  || (c =? 45) || (c =? 95) || (c =? 46) || (c =? 33) || (c =? 126)
  || (c =? 42) || (c =? 39) || (c =? 40) || (c =? 41).

Definition hex_upper (d : N) : N := if d <? 10 then 48 + d else 55 + d.

Definition percent_byte (b : N) : jsstring :=
  [37; hex_upper (b / 16); hex_upper (b mod 16)].

Definition percent_encode (cp : N) : jsstring :=
  flat_map percent_byte (utf8_of_code_point cp).

Definition app_result (x : jsstring) (r : option jsstring) : option jsstring :=
  match r with
  | Some y => Some (x ++ y)
  | None => None
  end.

(** [None] when [encodeURIComponent] throws a [URIError]: on a surrogate
    that is not part of a pair. *)
Fixpoint encodeURIComponent (s : jsstring) : option jsstring :=
  match s with
  | [] => Some []
  | c :: r =>
      if uri_unreserved c then app_result [c] (encodeURIComponent r)
      else if is_low_surrogate c then None
      else if is_high_surrogate c then
        match r with
        | c' :: r' =>
            if is_low_surrogate c'
            then app_result (percent_encode (code_point_of_pair c c'))
                            (encodeURIComponent r')
            else None
        | [] => None
        end
      else app_result (percent_encode c) (encodeURIComponent r)
  end.

(** ** The host: the notes file, the editors, the messages *)

Inductive Exception : Type :=
| SyntaxError
| IOError
| URIError
| TypeError.

(** What is at the path of the notes file.  The flags say whether the
    operation they name succeeds; a file that a write creates can be read
    and written.

    [writeFileSync] opens the file, which creates or empties it, and writes
    the bytes after that; [saveNotes] makes the directory before it writes.
    In the last three states the first of these steps succeed and the write
    fails later: after [kept] bytes have reached the file, or, below a
    directory that was just made, before the file is created ([None]). *)
Inductive FS : Type :=
| NoDirectory (mkdir_ok : bool)
| NoFile (create_ok : bool)
| File (content : list N) (read_ok write_ok : bool)
| NotAFile
| NoDirectoryFailing (kept : option nat)
| NoFileFailing (kept : nat)
| FileFailing (content : list N) (read_ok : bool) (kept : nat).

(** An editor: [document.uri.fsPath], [document.lineCount] and
    [selection.active.line]. *)
Record TextEditor : Type := mk_editor {
  fsPath : jsstring;
  lineCount : Z;
  active_line : Z
}.

(** A decoration: the range [(line, 0, line, 0)] and the markdown of its
    hover message. *)
Record Decoration : Type := mk_decoration {
  range_line : Z;
  hoverMessage : jsstring
}.

(** What the extension does to the host, in the order it does it.  The
    tracing with [console.log] is left out. *)
Inductive Event : Type :=
| ShowInputBox (prompt : jsstring) (value : option jsstring)
| ShowInformationMessage (message : jsstring)
| ShowErrorMessage (message : jsstring)
| SetDecorations (editor : TextEditor) (decorations : list Decoration)
| ConsoleError (message : jsstring).

Record World : Type := mk_world {
  notes : Notes;
  disk : FS;
  trace : list Event
}.

(** *** Computations: state and exceptions *)

(** How a computation ends.  [OffType v] is the boundary of the embedding:
    [notes] was bound to [v], a JSON value outside the declared type of
    [notes], and what the program does from there on is not described. *)
Inductive Completion (A : Type) : Type :=
| Normal (a : A)
| Throw (e : Exception)
| OffType (v : JSON).

Arguments Normal {A} a.
Arguments Throw {A} e.
Arguments OffType {A} v.

Definition M (A : Type) : Type := World -> Completion A * World.

Definition ret {A} (a : A) : M A := fun w => (Normal a, w).

Definition bind {A B} (m : M A) (k : A -> M B) : M B :=
  fun w =>
    match m w with
    | (Normal a, w') => k a w'
    | (Throw e, w') => (Throw e, w')
    | (OffType v, w') => (OffType v, w')
    end.

Definition throw {A} (e : Exception) : M A := fun w => (Throw e, w).

(** [try { body } catch (error) { handler }]. *)
Definition try_catch {A} (body : M A) (handler : Exception -> M A) : M A :=
  fun w =>
    match body w with
    | (Throw e, w') => handler e w'
    | r => r
    end.

Declare Scope js_scope.
Delimit Scope js_scope with js.
Notation "x <- m ;; k" := (bind m (fun x => k))
  (at level 61, m at next level, right associativity) : js_scope.
Notation "m ;; k" := (bind m (fun _ => k))
  (at level 61, right associativity) : js_scope.
Local Open Scope js_scope.

Definition get_notes : M Notes := fun w => (Normal (notes w), w).

Definition put_notes (o : Notes) : M unit :=
  fun w => (Normal tt, mk_world o (disk w) (trace w)).

Definition get_disk : M FS := fun w => (Normal (disk w), w).

Definition put_disk (d : FS) : M unit :=
  fun w => (Normal tt, mk_world (notes w) d (trace w)).

Definition emit (e : Event) : M unit :=
  fun w => (Normal tt, mk_world (notes w) (disk w) (trace w ++ [e])).

(** *** The [fs] calls, at the path of the notes file and at its directory *)

Definition file_exists (d : FS) : bool :=
  match d with
  | File _ _ _ | NotAFile | FileFailing _ _ _ => true
  | NoDirectory _ | NoFile _ | NoDirectoryFailing _ | NoFileFailing _ => false
  end.

Definition dir_exists (d : FS) : bool :=
  match d with
  | NoDirectory _ | NoDirectoryFailing _ => false
  | _ => true
  end.

Definition existsSync_file : M bool :=
  d <- get_disk ;; ret (file_exists d).

Definition existsSync_dir : M bool :=
  d <- get_disk ;; ret (dir_exists d).

Definition readFileSync : M jsstring :=
  d <- get_disk ;;
  match d with
  | File content true _ | FileFailing content true _ => ret (utf8_decode content)
  | _ => throw IOError
  end.

Definition mkdirSync : M unit :=
  d <- get_disk ;;
  match d with
  | NoDirectory true => put_disk (NoFile true)
  | NoDirectory false => throw IOError
  | NoDirectoryFailing None => put_disk (NoFile false)
  | NoDirectoryFailing (Some kept) => put_disk (NoFileFailing kept)
  | _ => ret tt
  end.

Definition writeFileSync (text : jsstring) : M unit :=
  d <- get_disk ;;
  match d with
  | NoFile true => put_disk (File (utf8_encode text) true true)
  | File _ read_ok true => put_disk (File (utf8_encode text) read_ok true)
  | NoFileFailing kept =>
      put_disk (FileFailing (firstn kept (utf8_encode text)) true kept) ;;
      throw IOError
  | FileFailing _ read_ok kept =>
      put_disk (FileFailing (firstn kept (utf8_encode text)) read_ok kept) ;;
      throw IOError
  | _ => throw IOError
  end.

(** The states of the path in which the notes file can be written and then
    read. *)
Definition usable (d : FS) : bool :=
  match d with
  | NoDirectory true | NoFile true | File _ true true => true
  | _ => false
  end.

(** *** [loadNotes] and [saveNotes] *)

Definition JSON_parse_or_throw (text : jsstring) : M JSON :=
  match JSON_parse text with
  | Some v => ret v
  | None => throw SyntaxError
  end.

(** [notes = v], for [v] that [JSON.parse] returned.  The source makes the
    assignment whatever [v] is.  When [v] is of the declared type of
    [notes], [notes] is bound to it; otherwise the step ends at
    [OffType v]. *)
Definition assign_notes (v : JSON) : M unit :=
  match notes_of_JSON v with
  | Some o => put_notes o
  | None => fun w => (OffType v, w)
  end.

Definition loadNotes : M unit :=
  try_catch
    (found <- existsSync_file ;;
     if found then
       data <- readFileSync ;;
       v <- JSON_parse_or_throw data ;;
       assign_notes v
     else ret tt)
    (fun error => emit (ConsoleError (str "Failed to load notes:"))).

Definition saveNotes : M unit :=
  try_catch
    (found <- existsSync_dir ;;
     (if negb found then mkdirSync else ret tt) ;;
     o <- get_notes ;;
     writeFileSync (JSON_stringify_notes o))
    (fun error => emit (ConsoleError (str "Failed to save notes:"))).

(** *** The markdown of a note *)

(** The first part of the markdown: the memo sign U+1F4DD, [ **Note:** ],
    the note and two line feeds. *)
Definition note_heading (note : jsstring) : jsstring :=
  [55357; 56541] ++ str " **Note:** " ++ note ++ [10; 10].

(** The second part: a link, labelled with the pencil sign U+270F U+FE0F
    and [ **Edit Note**], to the command [code-canvas.editNote] with
    [encodeURIComponent(JSON.stringify({ filePath, line }))] as its query.
    [None] when [encodeURIComponent] throws. *)
Definition edit_link (filePath : jsstring) (line : Z) : option jsstring :=
  match encodeURIComponent (JSON_stringify_args filePath line) with
  | Some query =>
      Some ([91; 9999; 65039]
            ++ str " **Edit Note**](command:code-canvas.editNote?"
            ++ query ++ str ")")
  | None => None
  end.

Definition note_markdown (filePath : jsstring) (line : Z) (note : jsstring)
  : option jsstring :=
  match edit_link filePath line with
  | Some link => Some (note_heading note ++ link)
  | None => None
  end.

(** A string in a condition: true unless empty. *)
Definition truthy (s : jsstring) : bool :=
  match s with
  | [] => false
  | _ :: _ => true
  end.

(** *** [provideHover] *)

Definition provideHover (document_fsPath : jsstring) (position_line : Z)
  : M (option jsstring) :=
  let filePath := document_fsPath in
  let key := noteKey filePath position_line in
  o <- get_notes ;;
  match obj_get o key with
  | Some note =>
      if truthy note then
        match note_markdown filePath position_line note with
        | Some markdown => ret (Some markdown)
        | None => throw URIError
        end
      else ret None
  | None => ret None
  end.

(** ** The renderer and the commands

    [String.prototype.toLowerCase] follows the case tables of Unicode,
    which are not part of the repository: it is a parameter. *)

Section Extension.

Variable toLowerCase : jsstring -> jsstring.

Definition normalize (path : jsstring) : jsstring :=
  toLowerCase (replace_backslashes path).

(** The body of the loop of [updateDecorations] for one entry: the
    decoration it pushes, if any. *)
Definition decoration_of_entry (editor : TextEditor) (entry : jsstring * jsstring)
  : Completion (option Decoration) :=
  let (key, note) := entry in
  match split key with
  | [] => Throw TypeError
  | filePath :: rest =>
      let lineStr := hd_error rest in
      let normalizedFilePath := normalize filePath in
      let normalizedEditorPath := normalize (fsPath editor) in
      if string_eqb normalizedFilePath normalizedEditorPath then
        match parseInt lineStr with
        | Some line =>
            if (0 <=? line)%Z && (line <? lineCount editor)%Z then
              match note_markdown filePath line note with
              | Some markdown => Normal (Some (mk_decoration line markdown))
              | None => Throw URIError
              end
            else Normal None
        | None => Normal None
        end
      else Normal None
  end.

(** The loop over [Object.entries(notes)]. *)
Fixpoint collect_decorations (editor : TextEditor) (entries : Notes)
    (decorations : list Decoration) : Completion (list Decoration) :=
  match entries with
  | [] => Normal decorations
  | entry :: entries' =>
      match decoration_of_entry editor entry with
      | Normal (Some d) => collect_decorations editor entries' (decorations ++ [d])
      | Normal None => collect_decorations editor entries' decorations
      | Throw e => Throw e
      | OffType v => OffType v
      end
  end.

Definition updateDecorations (editor : TextEditor) : M unit :=
  o <- get_notes ;;
  decorations <- (fun w => (collect_decorations editor o [], w)) ;;
  emit (SetDecorations editor decorations).

(** [code-canvas.addNote], with the active editor and with what the input
    box resolves to: [None] when it is cancelled.  An exception in the
    callback, which rejects a promise nobody waits for, ends the step. *)
Definition addNote (activeTextEditor : option TextEditor) (input : option jsstring)
  : M unit :=
  match activeTextEditor with
  | None => ret tt
  | Some editor =>
      let line := active_line editor in
      let filePath := fsPath editor in
      let key := noteKey filePath line in
      emit (ShowInputBox (str "Enter your note") None) ;;
      match input with
      | Some note =>
          if truthy note then
            o <- get_notes ;;
            put_notes (obj_set o key note) ;;
            saveNotes ;;
            updateDecorations editor ;;
            emit (ShowInformationMessage (str "Note added!"))
          else ret tt
      | None => ret tt
      end
  end.

(** The argument of [code-canvas.editNote]; a field is [None] when it is
    [undefined]. *)
Record EditArgs : Type := mk_args {
  arg_filePath : option jsstring;
  arg_line : option Z
}.

(** [notes[noteKey] || '']: the value the input box of [editNote] starts
    with. *)
Definition prefill (o : Notes) (key : jsstring) : jsstring :=
  match obj_get o key with
  | Some old => if truthy old then old else []
  | None => []
  end.

Definition editNote (args : option EditArgs) (input : option jsstring)
    (visibleTextEditors : list TextEditor) : M unit :=
  match args with
  | Some (mk_args (Some filePath) (Some line)) =>
      let key := noteKey filePath line in
      o <- get_notes ;;
      emit (ShowInputBox (str "Edit your note") (Some (prefill o key))) ;;
      match input with
      | Some newNote =>
          o <- get_notes ;;
          put_notes (obj_set o key newNote) ;;
          saveNotes ;;
          match find (fun e => string_eqb (fsPath e) filePath) visibleTextEditors with
          | Some editor => updateDecorations editor
          | None => ret tt
          end ;;
          emit (ShowInformationMessage (str "Note updated!"))
      | None => ret tt
      end
  | _ =>
      emit (ShowErrorMessage (str "Invalid arguments passed to Edit Note command."))
  end.

Fixpoint forEach_updateDecorations (editors : list TextEditor) : M unit :=
  match editors with
  | [] => ret tt
  | e :: editors' => updateDecorations e ;; forEach_updateDecorations editors'
  end.

(** [activate]: the notes are loaded and the visible editors decorated. *)
Definition activate (visibleTextEditors : list TextEditor) : M unit :=
  loadNotes ;;
  forEach_updateDecorations visibleTextEditors.

End Extension.

(** The state at start-up: [let notes = {}]. *)
Definition initial_world (d : FS) : World := mk_world [] d [].

(** [toLowerCase] on the letters of ASCII, every other code unit kept: what
    [String.prototype.toLowerCase] does on the strings of ASCII. *)
Definition ascii_toLowerCase (s : jsstring) : jsstring :=
  map (fun c => if (65 <=? c) && (c <=? 90) then c + 32 else c) s.

(** ** Notions used in the statements *)

(** The properties [JSON.parse] creates for the entries of a notes object. *)
Definition JSON_properties (o : Notes) : object JSON :=
  map (fun kv => (fst kv, JString (snd kv))) o.

Definition set_all (props : Notes) (acc : object JSON) : object JSON :=
  fold_left (fun a kv => obj_set a (fst kv) (JString (snd kv))) props acc.

(** The white space [JSON.stringify] puts before a property, and between
    two properties. *)
Definition indent : jsstring := [10; 32; 32].
Definition separator : jsstring := 44 :: indent.

(** The strings in which every surrogate is part of a pair. *)
Fixpoint well_paired (s : jsstring) : bool :=
  match s with
  | [] => true
  | c :: r =>
      if is_high_surrogate c then
        match r with
        | c' :: r' => is_low_surrogate c' && well_paired r'
        | [] => false
        end
      else negb (is_low_surrogate c) && well_paired r
  end.

Definition not_surrogate (c : N) : bool :=
  negb (is_high_surrogate c) && negb (is_low_surrogate c).

(** The normal form the specification gives a path, on the code units of
    ASCII: a backslash becomes a forward slash, and a capital letter its
    small letter. *)
Definition canonical_unit (c : N) : N :=
  if c =? 92 then 47
  else if (65 <=? c) && (c <=? 90) then c + 32
  else c.

Definition canonical_path (path : jsstring) : jsstring := map canonical_unit path.

Definition is_ascii (s : jsstring) : bool := forallb (fun c => c <? 128) s.

(** The template literal of the hover message of a decoration, for the
    query that [encodeURIComponent] returned: the memo sign, [ **Note:** ],
    the note, two line feeds, and the link that edits the note. *)
Definition hover_text (note query : jsstring) : jsstring :=
  [55357; 56541] ++ str " **Note:** " ++ note ++ [10; 10]
  ++ [91; 9999; 65039] ++ str " **Edit Note**](command:code-canvas.editNote?"
  ++ query ++ str ")".

(** *** The handler of [onDidChangeActiveTextEditor] *)

(** [if (editor) { updateDecorations(editor); }]. *)
Definition onDidChangeActiveTextEditor (toLowerCase : jsstring -> jsstring)
    (editor : option TextEditor) : M unit :=
  match editor with
  | Some e => updateDecorations toLowerCase e
  | None => ret tt
  end.

(** The states of the path in which [saveNotes] gets to write the file. *)
Definition writable (d : FS) : bool :=
  match d with
  | NoDirectory true | NoFile true | File _ _ true => true
  | _ => false
  end.

(** The states in which the directory cannot be made, or the file cannot be
    opened for writing: [saveNotes] fails before it has changed anything. *)
Definition write_refused (d : FS) : bool :=
  match d with
  | NoDirectory false | NoFile false | File _ _ false | NotAFile => true
  | _ => false
  end.

(** The states in which the file is opened and the write is cut short, with
    the number of bytes that reach the file. *)
Definition cut_after (d : FS) : option nat :=
  match d with
  | NoDirectoryFailing (Some kept) | NoFileFailing kept | FileFailing _ _ kept => Some kept
  | _ => None
  end.

(** What [readFileSync] returns for the first [k] of the bytes of a text
    [T]: a part of [T] from its start, followed by U+FFFD when the cut
    falls inside the bytes of a character; the part is not all of [T] when
    the cut comes before the last byte. *)
Definition cut_of (T : jsstring) (bytes : list N) (k : nat) : Prop :=
  exists T1 T2 junk,
    T = T1 ++ T2
    /\ utf8_decode_from None (firstn k bytes) = T1 ++ junk
    /\ (junk = [] \/ junk = [65533])
    /\ ((k < List.length bytes)%nat -> T2 <> []).

(** The bytes [readFileSync] finds at the path, if it can read them. *)
Definition file_content (d : FS) : option (list N) :=
  match d with
  | File content true _ | FileFailing content true _ => Some content
  | _ => None
  end.

(** The decorations the entries give in an editor, entry by entry. *)
Definition decorations_of (toLowerCase : jsstring -> jsstring) (editor : TextEditor)
    (entries : Notes) : list Decoration :=
  flat_map (fun entry =>
              match decoration_of_entry toLowerCase editor entry with
              | Normal (Some d) => [d]
              | _ => []
              end) entries.

(** The strings of a store are strings of 16-bit code units. *)
Definition wf_entries (o : Notes) : bool :=
  forallb (fun kv => wf_string (fst kv) && wf_string (snd kv)) o.

(** The notes file holds what [notes] is declared to hold: if it can be
    read and its text is JSON, the value is an object whose values are all
    strings.  [loadNotes] has no check of this. *)
Definition declared_type (d : FS) : bool :=
  match file_content d with
  | Some content =>
      match JSON_parse (utf8_decode content) with
      | Some v =>
          match notes_of_JSON v with
          | Some _ => true
          | None => false
          end
      | None => true
      end
  | None => true
  end.

(** *** The runs of the extension

    The runs that are followed start with [activate] on a notes file of the
    declared type.  After [activate], the host calls the handlers the
    extension registered, in any order and with any arguments; between two
    calls, something else may change what is at the path of the notes
    file. *)

Inductive step (toLowerCase : jsstring -> jsstring) : World -> World -> Prop :=
| step_addNote w editor input :
    step toLowerCase w (snd (addNote toLowerCase editor input w))
| step_editNote w args input visible :
    step toLowerCase w (snd (editNote toLowerCase args input visible w))
| step_provideHover w filePath line :
    step toLowerCase w (snd (provideHover filePath line w))
| step_changeEditor w editor :
    step toLowerCase w (snd (onDidChangeActiveTextEditor toLowerCase editor w))
| step_disk w d :
    step toLowerCase w (mk_world (notes w) d (trace w)).

Inductive reachable (toLowerCase : jsstring -> jsstring) : World -> Prop :=
| reachable_activate d visible :
    declared_type d = true ->
    reachable toLowerCase (snd (activate toLowerCase visible (initial_world d)))
| reachable_step w w' :
    reachable toLowerCase w -> step toLowerCase w w' -> reachable toLowerCase w'.

(** A decoration on a line of the editor. *)
Definition on_a_line (editor : TextEditor) (d : Decoration) : Prop :=
  (0 <= range_line d < lineCount editor)%Z.

(** An event that sets decorations sets them on lines of its editor. *)
Definition within_the_view (ev : Event) : Prop :=
  match ev with
  | SetDecorations editor decorations => Forall (on_a_line editor) decorations
  | _ => True
  end.

(** What the two [catch] blocks log. *)
Definition load_error : Event := ConsoleError (str "Failed to load notes:").
Definition save_error : Event := ConsoleError (str "Failed to save notes:").

(** * Properties *)

(** ** The string operations on examples *)

Example split_plain : split (str "/repo/main.ts::5") = [str "/repo/main.ts"; str "5"].
Proof. reflexivity. Qed.

Example split_three_colons : split (str "a:::b") = [str "a"; str ":b"].
Proof. reflexivity. Qed.

Example split_empty : split [] = [[]].
Proof. reflexivity. Qed.

Example parseInt_trailing : parseInt (Some (str "5abc")) = Some 5%Z.
Proof. reflexivity. Qed.

Example parseInt_undefined : parseInt None = None.
Proof. reflexivity. Qed.

Example noteKey_example : noteKey (str "/repo/main.ts") 5%Z = str "/repo/main.ts::5".
Proof. reflexivity. Qed.

(** ** Strings *)

Lemma string_eqb_spec (a b : jsstring) : reflect (a = b) (string_eqb a b).
Proof.
  revert b; induction a as [|x a IH]; intros [|y b]; simpl;
    try (constructor; congruence).
  destruct (N.eqb_spec x y) as [->|Hxy]; simpl.
  - destruct (IH b) as [->|Hab]; constructor; congruence.
  - constructor; congruence.
Qed.

Lemma string_eqb_eq (a b : jsstring) : string_eqb a b = true <-> a = b.
Proof. destruct (string_eqb_spec a b); split; congruence. Qed.

Lemma string_eqb_refl (a : jsstring) : string_eqb a a = true.
Proof. now apply string_eqb_eq. Qed.

Lemma string_eqb_sym (a b : jsstring) : string_eqb a b = string_eqb b a.
Proof.
  destruct (string_eqb_spec a b) as [->|H]; [now rewrite string_eqb_refl|].
  destruct (string_eqb_spec b a); congruence.
Qed.

Lemma string_eqb_neq (a b : jsstring) : string_eqb a b = false <-> a <> b.
Proof. destruct (string_eqb_spec a b); split; congruence. Qed.

(** ** Objects *)

Section ObjectFacts.

Context {V : Type}.
Implicit Types (o : object V) (k : jsstring) (v : V).

Lemma has_key_app o o' k : has_key (o ++ o') k = has_key o k || has_key o' k.
Proof. apply existsb_app. Qed.

Lemma obj_get_has_key o k : has_key o k = false -> obj_get o k = None.
Proof.
  induction o as [|[k' v'] o IH]; simpl; [reflexivity|].
  destruct (string_eqb k' k); simpl; [discriminate|exact IH].
Qed.


Lemma has_key_replace o k k0 v : has_key (obj_replace o k v) k0 = has_key o k0.
Proof.
  induction o as [|[k' v'] o IH]; simpl; [reflexivity|].
  destruct (string_eqb k' k); simpl; [reflexivity|now rewrite IH].
Qed.

Lemma has_key_insert_index o i k k0 v :
  has_key (obj_insert_index o i k v) k0 = string_eqb k k0 || has_key o k0.
Proof.
  induction o as [|[k' v'] o IH]; simpl; [reflexivity|].
  destruct (array_index k') as [j|]; [destruct (j <? i)|]; simpl; try reflexivity.
  rewrite IH. now destruct (string_eqb k' k0), (string_eqb k k0).
Qed.


Lemma obj_get_replace o k v : has_key o k = true -> obj_get (obj_replace o k v) k = Some v.
Proof.
  induction o as [|[k' v'] o IH]; simpl; [discriminate|].
  destruct (string_eqb k' k) eqn:E; simpl; rewrite E; [reflexivity|exact IH].
Qed.

Lemma obj_get_insert_index o i k v :
  has_key o k = false -> obj_get (obj_insert_index o i k v) k = Some v.
Proof.
  induction o as [|[k' v'] o IH]; simpl.
  - now rewrite string_eqb_refl.
  - destruct (string_eqb k' k) eqn:E; simpl; [discriminate|]. intros Hk.
    destruct (array_index k') as [j|]; [destruct (j <? i)|]; simpl;
      rewrite ?E, ?string_eqb_refl; auto.
Qed.

Lemma obj_get_app_new o k v : has_key o k = false -> obj_get (o ++ [(k, v)]) k = Some v.
Proof.
  induction o as [|[k' v'] o IH]; simpl.
  - now rewrite string_eqb_refl.
  - destruct (string_eqb k' k); simpl; [discriminate|exact IH].
Qed.

(** Reading a property that was just written gives what was written. *)
Lemma obj_get_set o k v : obj_get (obj_set o k v) k = Some v.
Proof.
  unfold obj_set. destruct (has_key o k) eqn:Hk.
  - now apply obj_get_replace.
  - destruct (array_index k).
    + now apply obj_get_insert_index.
    + now apply obj_get_app_new.
Qed.










End ObjectFacts.

(** ** Quoting and reading back a string *)

Ltac Zify.zify_post_hook ::= Z.to_euclidean_division_equations.

(** Decides the comparisons of the goal, and closes the impossible cases. *)
Ltac cases_on_comparisons :=
  repeat (match goal with
          | |- context [?a <? ?b] => destruct (N.ltb_spec a b)
          | |- context [?a <=? ?b] => destruct (N.leb_spec a b)
          | |- context [?a =? ?b] => destruct (N.eqb_spec a b)
          end; try lia);
  cbn [andb orb negb]; try lia; try congruence.

Lemma list_pair_ind {A} (P : list A -> Prop) :
  P [] ->
  (forall c, P [c]) ->
  (forall c c' r, P r -> P (c' :: r) -> P (c :: c' :: r)) ->
  forall l, P l.
Proof.
  intros Hnil Hone Hstep l.
  assert (H : P l /\ forall c, P (c :: l)); [|apply H].
  induction l as [|x l [IH1 IH2]]; split; auto.
Qed.

Lemma hex_value_hex_lower d : d < 16 -> hex_value (hex_lower d) = Some d.
Proof.
  intros Hd. unfold hex_value, hex_lower, is_digit.
  cases_on_comparisons; f_equal; lia.
Qed.

Lemma hex4_UnicodeEscape c :
  c < 65536 ->
  hex4 (hex_lower (c / 4096 mod 16)) (hex_lower (c / 256 mod 16))
       (hex_lower (c / 16 mod 16)) (hex_lower (c mod 16)) = Some c.
Proof.
  intros Hc. unfold hex4.
  rewrite !hex_value_hex_lower by (apply N.mod_lt; lia).
  f_equal. lia.
Qed.

Lemma parse_string_UnicodeEscape c t :
  c < 65536 -> parse_string (UnicodeEscape c ++ t) = cons_unit c (parse_string t).
Proof.
  intros Hc. unfold UnicodeEscape. simpl. now rewrite hex4_UnicodeEscape.
Qed.

Lemma parse_string_escape c e t :
  JSON_escape c = Some e -> parse_string (e ++ t) = cons_unit c (parse_string t).
Proof.
  unfold JSON_escape.
  destruct (N.eqb_spec c 8) as [->|]; [intros [= <-]; reflexivity|].
  destruct (N.eqb_spec c 9) as [->|]; [intros [= <-]; reflexivity|].
  destruct (N.eqb_spec c 10) as [->|]; [intros [= <-]; reflexivity|].
  destruct (N.eqb_spec c 12) as [->|]; [intros [= <-]; reflexivity|].
  destruct (N.eqb_spec c 13) as [->|]; [intros [= <-]; reflexivity|].
  destruct (N.eqb_spec c 34) as [->|]; [intros [= <-]; reflexivity|].
  destruct (N.eqb_spec c 92) as [->|]; [intros [= <-]; reflexivity|].
  destruct (N.ltb_spec c 32); [|discriminate].
  intros [= <-]. apply parse_string_UnicodeEscape. lia.
Qed.

Lemma JSON_escape_none c :
  JSON_escape c = None -> c <> 34 /\ c <> 92 /\ 32 <= c.
Proof. unfold JSON_escape. cases_on_comparisons. Qed.

Lemma parse_string_raw c t :
  JSON_escape c = None -> parse_string (c :: t) = cons_unit c (parse_string t).
Proof.
  intros (H34 & H92 & H32)%JSON_escape_none. simpl.
  cases_on_comparisons.
Qed.

Lemma quote_units_cons c r :
  quote_units (c :: r) =
  match JSON_escape c with
  | Some e => e ++ quote_units r
  | None =>
      if is_high_surrogate c then
        match r with
        | c' :: r' =>
            if is_low_surrogate c' then c :: c' :: quote_units r'
            else UnicodeEscape c ++ quote_units r
        | [] => UnicodeEscape c ++ quote_units r
        end
      else if is_low_surrogate c then UnicodeEscape c ++ quote_units r
      else c :: quote_units r
  end.
Proof. reflexivity. Qed.

Lemma high_surrogate_range c : is_high_surrogate c = true -> 55296 <= c <= 56319.
Proof. unfold is_high_surrogate. cases_on_comparisons. Qed.

Lemma low_surrogate_range c : is_low_surrogate c = true -> 56320 <= c <= 57343.
Proof. unfold is_low_surrogate. cases_on_comparisons. Qed.

Lemma JSON_escape_surrogate c : 55296 <= c -> JSON_escape c = None.
Proof. intros Hc. unfold JSON_escape. cases_on_comparisons. Qed.

(** Reading a quoted string back gives the string, whatever its code units. *)
Lemma parse_string_quote_units s : forall rest,
  parse_string (quote_units s ++ 34 :: rest) = Some (s, rest).
Proof.
  induction s as [| c | c c' r IHr IHc'] using list_pair_ind; intros rest.
  - reflexivity.
  - rewrite quote_units_cons.
    destruct (JSON_escape c) as [e|] eqn:He.
    + rewrite <- app_assoc, (parse_string_escape c e) by assumption. reflexivity.
    + destruct (is_high_surrogate c) eqn:Hhi;
        [|destruct (is_low_surrogate c) eqn:Hlo].
      * apply high_surrogate_range in Hhi.
        rewrite <- app_assoc, parse_string_UnicodeEscape by lia. reflexivity.
      * apply low_surrogate_range in Hlo.
        rewrite <- app_assoc, parse_string_UnicodeEscape by lia. reflexivity.
      * rewrite <- app_comm_cons, parse_string_raw by assumption. reflexivity.
  - rewrite quote_units_cons.
    destruct (JSON_escape c) as [e|] eqn:He.
    + rewrite <- app_assoc, (parse_string_escape c e), IHc' by assumption.
      reflexivity.
    + destruct (is_high_surrogate c) eqn:Hhi;
        [destruct (is_low_surrogate c') eqn:Hlo'|destruct (is_low_surrogate c) eqn:Hlo].
      * apply low_surrogate_range in Hlo'.
        rewrite <- !app_comm_cons, parse_string_raw by assumption.
        rewrite parse_string_raw by (apply JSON_escape_surrogate; lia).
        rewrite IHr. reflexivity.
      * apply high_surrogate_range in Hhi.
        rewrite <- app_assoc, parse_string_UnicodeEscape, IHc' by lia. reflexivity.
      * apply low_surrogate_range in Hlo.
        rewrite <- app_assoc, parse_string_UnicodeEscape, IHc' by lia. reflexivity.
      * rewrite <- app_comm_cons, parse_string_raw, IHc' by assumption. reflexivity.
Qed.

Lemma parse_string_Quote s rest :
  parse_string (quote_units s ++ [34] ++ rest) = Some (s, rest).
Proof. apply parse_string_quote_units. Qed.

(** ** The fuel of [JSON.parse] is enough

    What a parser leaves is shorter than what it was given, so a parse never
    needs more fuel than the text has code units: a text on which
    [JSON_parse] gives [None] is a text [JSON.parse] rejects. *)

Lemma skip_ws_length s : (List.length (skip_ws s) <= List.length s)%nat.
Proof.
  induction s as [|c s IH]; cbn [skip_ws]; [lia|].
  destruct (is_JSON_ws c); cbn [List.length] in *; lia.
Qed.

Lemma skip_ws_cons_length s c r :
  skip_ws s = c :: r -> (List.length r < List.length s)%nat.
Proof.
  intros H. pose proof (skip_ws_length s) as Hlen. rewrite H in Hlen.
  cbn [List.length] in Hlen. lia.
Qed.

Lemma cons_unit_length c p x r :
  cons_unit c p = Some (x, r) -> exists x', p = Some (x', r).
Proof. destruct p as [[x' r']|]; [intros [= <- <-]; now exists x'|discriminate]. Qed.

Lemma parse_string_length n : forall s x r,
  (List.length s <= n)%nat ->
  parse_string s = Some (x, r) -> (List.length r < List.length s)%nat.
Proof.
  induction n as [|n IH]; intros s x r Hn.
  - destruct s; [discriminate|cbn [List.length] in Hn; lia].
  - destruct s as [|c s]; [discriminate|]. cbn [parse_string List.length] in *.
    destruct (c =? 34); [intros [= <- <-]; lia|].
    destruct (c =? 92).
    + destruct s as [|e s]; [discriminate|].
      destruct (e =? 117).
      * destruct s as [|h1 [|h2 [|h3 [|h4 s]]]]; try discriminate.
        destruct (hex4 h1 h2 h3 h4); [|discriminate].
        intros [x' H]%cons_unit_length. apply IH in H; cbn [List.length] in *; lia.
      * destruct (unescape e); [|discriminate].
        intros [x' H]%cons_unit_length. apply IH in H; cbn [List.length] in *; lia.
    + destruct (c <? 32); [discriminate|].
      intros [x' H]%cons_unit_length. apply IH in H; lia.
Qed.

Lemma take_digits_length s :
  (List.length (snd (take_digits s)) <= List.length s)%nat.
Proof.
  induction s as [|c s IH]; cbn [take_digits]; [cbn; lia|].
  destruct (is_digit c); [|cbn; lia].
  destruct (take_digits s) as [d r']. cbn [snd List.length] in *. lia.
Qed.

Lemma parse_int_part_length s x r :
  parse_int_part s = Some (x, r) -> (List.length r < List.length s)%nat.
Proof.
  destruct s as [|c s]; [discriminate|]. cbn [parse_int_part List.length].
  destruct (c =? 48); [intros [= <- <-]; lia|].
  destruct (is_digit c); [|discriminate].
  pose proof (take_digits_length s) as H. destruct (take_digits s) as [d r'].
  intros [= <- <-]. cbn [snd] in H. lia.
Qed.

Lemma next_is_length c s r : next_is c s = Some r -> List.length s = S (List.length r).
Proof.
  destruct s as [|x s]; [discriminate|]. cbn [next_is].
  destruct (x =? c); [intros [= <-]; reflexivity|discriminate].
Qed.

Lemma parse_frac_part_length s x r :
  parse_frac_part s = Some (x, r) -> (List.length r <= List.length s)%nat.
Proof.
  unfold parse_frac_part.
  destruct (next_is 46 s) as [s'|] eqn:Hdot; [|intros [= <- <-]; lia].
  apply next_is_length in Hdot.
  pose proof (take_digits_length s') as Hd. destruct (take_digits s') as [[|c d] r'];
    [discriminate|]. intros [= <- <-]. cbn [snd] in Hd. lia.
Qed.

Lemma parse_exp_sign_length s :
  (List.length (snd (parse_exp_sign s)) <= List.length s)%nat.
Proof.
  unfold parse_exp_sign.
  destruct (next_is 43 s) eqn:H43; [apply next_is_length in H43; cbn [snd]; lia|].
  destruct (next_is 45 s) eqn:H45; [apply next_is_length in H45; cbn [snd]; lia|].
  cbn [snd]. lia.
Qed.

Lemma parse_exp_part_length s x r :
  parse_exp_part s = Some (x, r) -> (List.length r <= List.length s)%nat.
Proof.
  destruct s as [|c s]; cbn [parse_exp_part]; [intros [= <- <-]; lia|].
  destruct ((c =? 101) || (c =? 69)); [|intros [= <- <-]; lia].
  pose proof (parse_exp_sign_length s) as Hsign.
  destruct (parse_exp_sign s) as [sign r1]. cbn [snd] in Hsign.
  pose proof (take_digits_length r1) as Hd. destruct (take_digits r1) as [[|c' d] r'];
    [discriminate|]. intros [= <- <-]. cbn [snd List.length] in *. lia.
Qed.

Lemma parse_number_length s x r :
  parse_number s = Some (x, r) -> (List.length r < List.length s)%nat.
Proof.
  unfold parse_number.
  assert (Hsign : (List.length (snd (parse_minus s)) <= List.length s)%nat).
  { unfold parse_minus.
    destruct (next_is 45 s) eqn:H45; [apply next_is_length in H45|]; cbn [snd]; lia. }
  destruct (parse_minus s) as [sign s1]. cbn [snd] in Hsign.
  destruct (parse_int_part s1) as [[i s2]|] eqn:Hi; [|discriminate].
  destruct (parse_frac_part s2) as [[f s3]|] eqn:Hf; [|discriminate].
  destruct (parse_exp_part s3) as [[e s4]|] eqn:He; [|discriminate].
  intros [= <- <-].
  apply parse_int_part_length in Hi. apply parse_frac_part_length in Hf.
  apply parse_exp_part_length in He. lia.
Qed.

Lemma strip_prefix_length p : forall s r,
  strip_prefix p s = Some r -> (List.length r + List.length p = List.length s)%nat.
Proof.
  induction p as [|x p IH]; intros s r; cbn [strip_prefix].
  - intros [= <-]. cbn; lia.
  - destruct s as [|y s]; [discriminate|]. destruct (x =? y); [|discriminate].
    intros H%IH. cbn [List.length]. lia.
Qed.

Lemma parse_literal_length s v r :
  parse_literal s = Some (v, r) -> (List.length r < List.length s)%nat.
Proof.
  unfold parse_literal.
  destruct (strip_prefix (str "true") s) eqn:H1;
    [intros [= <- <-]; apply strip_prefix_length in H1; cbn in H1; lia|].
  destruct (strip_prefix (str "false") s) eqn:H2;
    [intros [= <- <-]; apply strip_prefix_length in H2; cbn in H2; lia|].
  destruct (strip_prefix (str "null") s) eqn:H3;
    [intros [= <- <-]; apply strip_prefix_length in H3; cbn in H3; lia|].
  discriminate.
Qed.

Lemma parse_value_S fuel s :
  parse_value (S fuel) s =
  match skip_ws s with
  | [] => None
  | c :: r =>
      if c =? 123 then
        match next_is 125 (skip_ws r) with
        | Some r' => Some (JObject [], r')
        | None => parse_members fuel r []
        end
      else if c =? 91 then
        match next_is 93 (skip_ws r) with
        | Some r' => Some (JArray [], r')
        | None => parse_elements fuel r []
        end
      else if c =? 34 then
        match parse_string r with
        | Some (x, r') => Some (JString x, r')
        | None => None
        end
      else if (c =? 45) || is_digit c then
        match parse_number (c :: r) with
        | Some (x, r') => Some (JNumber x, r')
        | None => None
        end
      else parse_literal (c :: r)
  end.
Proof. reflexivity. Qed.

Lemma parse_members_S fuel s acc :
  parse_members (S fuel) s acc =
  match next_is 34 (skip_ws s) with
  | Some r =>
      match parse_string r with
      | Some (k, r1) =>
          match next_is 58 (skip_ws r1) with
          | Some r2 =>
              match parse_value fuel r2 with
              | Some (v, r3) =>
                  let acc' := obj_set acc k v in
                  match skip_ws r3 with
                  | c :: r4 =>
                      if c =? 44 then parse_members fuel r4 acc'
                      else if c =? 125 then Some (JObject acc', r4)
                      else None
                  | [] => None
                  end
              | None => None
              end
          | None => None
          end
      | None => None
      end
  | None => None
  end.
Proof. reflexivity. Qed.

Lemma parse_elements_S fuel s acc :
  parse_elements (S fuel) s acc =
  match parse_value fuel s with
  | Some (v, r) =>
      match skip_ws r with
      | c :: r' =>
          if c =? 44 then parse_elements fuel r' (acc ++ [v])
          else if c =? 93 then Some (JArray (acc ++ [v]), r')
          else None
      | [] => None
      end
  | None => None
  end.
Proof. reflexivity. Qed.

Lemma next_is_skip_ws_length c s r :
  next_is c (skip_ws s) = Some r -> (List.length r < List.length s)%nat.
Proof.
  intros H%next_is_length. pose proof (skip_ws_length s). lia.
Qed.

(** What a parse leaves is shorter than its input. *)
Lemma parse_shortens fuel :
  (forall s v r, parse_value fuel s = Some (v, r) ->
                 (List.length r < List.length s)%nat)
  /\ (forall s acc v r, parse_members fuel s acc = Some (v, r) ->
                        (List.length r < List.length s)%nat)
  /\ (forall s acc v r, parse_elements fuel s acc = Some (v, r) ->
                        (List.length r < List.length s)%nat).
Proof.
  induction fuel as [|fuel (IHv & IHm & IHe)];
    [repeat split; intros; discriminate|].
  split; [|split].
  - intros s v r. rewrite parse_value_S.
    destruct (skip_ws s) as [|c s'] eqn:Hs; [discriminate|].
    apply skip_ws_cons_length in Hs.
    destruct (c =? 123).
    { destruct (next_is 125 (skip_ws s')) eqn:Hc.
      - intros [= <- <-]. apply next_is_skip_ws_length in Hc. lia.
      - intros H%IHm. lia. }
    destruct (c =? 91).
    { destruct (next_is 93 (skip_ws s')) eqn:Hc.
      - intros [= <- <-]. apply next_is_skip_ws_length in Hc. lia.
      - intros H%IHe. lia. }
    destruct (c =? 34).
    { destruct (parse_string s') as [[x r']|] eqn:Hp; [|discriminate].
      intros [= <- <-]. apply (parse_string_length _ _ _ _ (le_n _)) in Hp. lia. }
    destruct ((c =? 45) || is_digit c).
    { destruct (parse_number (c :: s')) as [[x r']|] eqn:Hp; [|discriminate].
      intros [= <- <-]. apply parse_number_length in Hp. cbn [List.length] in Hp. lia. }
    intros H%parse_literal_length. cbn [List.length] in H. lia.
  - intros s acc v r. rewrite parse_members_S.
    destruct (next_is 34 (skip_ws s)) as [r0|] eqn:H0; [|discriminate].
    apply next_is_skip_ws_length in H0.
    destruct (parse_string r0) as [[k r1]|] eqn:H1; [|discriminate].
    apply (parse_string_length _ _ _ _ (le_n _)) in H1.
    destruct (next_is 58 (skip_ws r1)) as [r2|] eqn:H2; [|discriminate].
    apply next_is_skip_ws_length in H2.
    destruct (parse_value fuel r2) as [[v' r3]|] eqn:H3; [|discriminate].
    apply IHv in H3. cbv zeta.
    destruct (skip_ws r3) as [|c r4] eqn:H4; [discriminate|].
    apply skip_ws_cons_length in H4.
    destruct (c =? 44); [intros H%IHm; lia|].
    destruct (c =? 125); [intros [= <- <-]; lia|discriminate].
  - intros s acc v r. rewrite parse_elements_S.
    destruct (parse_value fuel s) as [[v' r1]|] eqn:H1; [|discriminate].
    apply IHv in H1.
    destruct (skip_ws r1) as [|c r2] eqn:H2; [discriminate|].
    apply skip_ws_cons_length in H2.
    destruct (c =? 44); [intros H%IHe; lia|].
    destruct (c =? 93); [intros [= <- <-]; lia|discriminate].
Qed.

(** More fuel than twice the length of the text changes nothing. *)
Lemma parse_fuel_enough fuel : forall fuel',
  (forall s, (2 * List.length s < fuel)%nat -> (2 * List.length s < fuel')%nat ->
             parse_value fuel s = parse_value fuel' s)
  /\ (forall s acc,
        (2 * List.length s < fuel)%nat -> (2 * List.length s < fuel')%nat ->
        parse_members fuel s acc = parse_members fuel' s acc)
  /\ (forall s acc,
        (2 * List.length s + 1 < fuel)%nat -> (2 * List.length s + 1 < fuel')%nat ->
        parse_elements fuel s acc = parse_elements fuel' s acc).
Proof.
  induction fuel as [|fuel IH]; intros fuel';
    [repeat split; intros; lia|].
  destruct fuel' as [|fuel']; [repeat split; intros; lia|].
  destruct (IH fuel') as (IHv & IHm & IHe).
  destruct (parse_shortens fuel) as (Sv & _ & _).
  split; [|split].
  - intros s H H'. rewrite !parse_value_S.
    destruct (skip_ws s) as [|c s'] eqn:Hs; [reflexivity|].
    apply skip_ws_cons_length in Hs.
    rewrite IHm, IHe by lia. reflexivity.
  - intros s acc H H'. rewrite !parse_members_S.
    destruct (next_is 34 (skip_ws s)) as [r0|] eqn:H0; [|reflexivity].
    apply next_is_skip_ws_length in H0.
    destruct (parse_string r0) as [[k r1]|] eqn:H1; [|reflexivity].
    apply (parse_string_length _ _ _ _ (le_n _)) in H1.
    destruct (next_is 58 (skip_ws r1)) as [r2|] eqn:H2; [|reflexivity].
    apply next_is_skip_ws_length in H2.
    rewrite <- IHv by lia.
    destruct (parse_value fuel r2) as [[v' r3]|] eqn:H3; [|reflexivity].
    apply Sv in H3. cbv zeta.
    destruct (skip_ws r3) as [|c r4] eqn:H4; [reflexivity|].
    apply skip_ws_cons_length in H4.
    rewrite IHm by lia. reflexivity.
  - intros s acc H H'. rewrite !parse_elements_S.
    rewrite <- IHv by lia.
    destruct (parse_value fuel s) as [[v' r1]|] eqn:H1; [|reflexivity].
    apply Sv in H1.
    destruct (skip_ws r1) as [|c r2] eqn:H2; [reflexivity|].
    apply skip_ws_cons_length in H2.
    rewrite IHe by lia. reflexivity.
Qed.

(** [JSON_parse] gives what the parser gives with any larger fuel. *)
Lemma JSON_parse_any_fuel text fuel :
  (2 * List.length text < fuel)%nat ->
  JSON_parse text =
  match parse_value fuel text with
  | Some (v, r) =>
      match skip_ws r with
      | [] => Some v
      | _ :: _ => None
      end
  | None => None
  end.
Proof.
  intros Hfuel. unfold JSON_parse.
  destruct (parse_fuel_enough (S (2 * List.length text)) fuel) as (Hv & _ & _).
  rewrite Hv by lia. reflexivity.
Qed.

(** ** Reading back the text of a notes object *)

Lemma parse_value_string f v rest :
  parse_value (S f) (32 :: QuoteJSONString v ++ rest) = Some (JString v, rest).
Proof.
  unfold QuoteJSONString. simpl.
  rewrite <- app_assoc. simpl.
  now rewrite parse_string_quote_units.
Qed.

Lemma property_text k v rest :
  [10; 32; 32] ++ stringify_property (k, v) ++ rest =
  10 :: 32 :: 32 :: 34 :: quote_units k
  ++ 34 :: 58 :: 32 :: 34 :: quote_units v ++ 34 :: rest.
Proof.
  unfold stringify_property, QuoteJSONString. cbn [fst snd].
  simpl. rewrite <- !app_assoc. simpl. rewrite <- !app_assoc. reflexivity.
Qed.

Lemma parse_members_step f k v rest acc :
  parse_members (S (S f))
    ([10; 32; 32] ++ stringify_property (k, v) ++ rest) acc =
  match skip_ws rest with
  | c :: r4 =>
      if c =? 44 then parse_members (S f) r4 (obj_set acc k (JString v))
      else if c =? 125 then Some (JObject (obj_set acc k (JString v)), r4)
      else None
  | [] => None
  end.
Proof.
  rewrite property_text.
  cbn [parse_members skip_ws is_JSON_ws next_is N.eqb Pos.eqb orb].
  rewrite parse_string_quote_units.
  cbn [parse_value skip_ws is_JSON_ws next_is N.eqb Pos.eqb orb].
  rewrite parse_string_quote_units.
  reflexivity.
Qed.

Lemma parse_members_join props : forall kv acc fuel tail,
  (List.length props + 2 <= fuel)%nat ->
  parse_members fuel
    (indent ++ join separator (map stringify_property (kv :: props))
     ++ [10; 125] ++ tail) acc =
  Some (JObject (set_all (kv :: props) acc), tail).
Proof.
  induction props as [|kv' props IH]; intros [k v] acc fuel tail Hfuel;
    destruct fuel as [|[|f]]; try (simpl in Hfuel; lia).
  - cbn [map join]. rewrite parse_members_step. reflexivity.
  - change (join separator (map stringify_property ((k, v) :: kv' :: props)))
      with (stringify_property (k, v) ++ separator
            ++ join separator (map stringify_property (kv' :: props))).
    rewrite <- !app_assoc, parse_members_step.
    change (skip_ws (separator ++ ?t)) with (44 :: indent ++ t).
    cbv iota.
    rewrite IH by (simpl in Hfuel; lia). reflexivity.
Qed.

Lemma join_length_lower props :
  (List.length props <= List.length (join separator (map stringify_property props)))%nat.
Proof.
  induction props as [|[k v] props IH]; [simpl; lia|].
  destruct props as [|kv' props].
  - unfold stringify_property, QuoteJSONString. simpl. lia.
  - change (join separator (map stringify_property ((k, v) :: kv' :: props)))
      with (stringify_property (k, v) ++ separator
            ++ join separator (map stringify_property (kv' :: props))).
    rewrite !length_app. simpl in IH |- *. lia.
Qed.

Lemma parse_value_object fuel body r :
  skip_ws body = 34 :: r ->
  parse_value (S fuel) (123 :: body) = parse_members fuel body [].
Proof.
  intros Hr. cbn [parse_value skip_ws is_JSON_ws N.eqb Pos.eqb orb].
  now rewrite Hr.
Qed.

Lemma skip_ws_properties kv props t :
  exists r,
    skip_ws (indent ++ join separator (map stringify_property (kv :: props)) ++ t)
    = 34 :: r.
Proof.
  destruct kv as [k v].
  destruct props as [|kv' props]; cbn [map join];
    rewrite <- ?app_assoc; unfold indent; rewrite property_text; eexists; reflexivity.
Qed.

(** [JSON.parse] of the text [JSON.stringify] writes for a notes object
    creates, in their order, the properties of that object. *)
Lemma JSON_parse_stringify (o : Notes) :
  JSON_parse (JSON_stringify_notes o) = Some (JObject (set_all o [])).
Proof.
  destruct o as [|kv props]; [reflexivity|].
  unfold JSON_parse.
  set (text := JSON_stringify_notes (kv :: props)).
  assert (Htext : text = 123 :: indent
            ++ join separator (map stringify_property (kv :: props))
            ++ [10; 125] ++ []) by reflexivity.
  assert (Hlen : (List.length props + 2 <= List.length text)%nat).
  { rewrite Htext. cbn [List.length]. rewrite !length_app.
    pose proof (join_length_lower (kv :: props)) as Hj.
    cbn [List.length] in Hj |- *. lia. }
  assert (Hfuel : (List.length props + 2 <= 2 * List.length text)%nat) by lia.
  remember (2 * List.length text)%nat as n eqn:Hn. clear Hn Hlen.
  rewrite Htext.
  destruct (skip_ws_properties kv props ([10; 125] ++ [])) as [r Hr].
  rewrite (parse_value_object _ _ _ Hr).
  rewrite parse_members_join by exact Hfuel.
  reflexivity.
Qed.

(** ** Creating the properties of an object in their order *)

Section ObjectOrder.

Context {V : Type}.
Implicit Types (o acc : object V) (k : jsstring) (v : V).

Lemma keys_unique_app_l o o' : keys_unique (o ++ o') = true -> keys_unique o = true.
Proof.
  induction o as [|[k v] o IH]; simpl; [reflexivity|].
  rewrite has_key_app, negb_orb.
  intros [[H1 _]%andb_true_iff H2]%andb_true_iff.
  rewrite H1. now apply IH.
Qed.

Lemma keys_unique_last acc k v :
  keys_unique (acc ++ [(k, v)]) = true -> has_key acc k = false.
Proof.
  induction acc as [|[k' v'] acc IH]; simpl; [reflexivity|].
  rewrite has_key_app, negb_orb. simpl. rewrite orb_false_r.
  intros [[_ H1]%andb_true_iff H2]%andb_true_iff.
  apply negb_true_iff in H1. rewrite string_eqb_sym, H1. now apply IH.
Qed.

Lemma no_index_key_app_l o o' : no_index_key (o ++ o') = true -> no_index_key o = true.
Proof.
  unfold no_index_key. rewrite forallb_app. now intros [H _]%andb_true_iff.
Qed.

Lemma no_index_key_last acc k v i :
  no_index_key (acc ++ [(k, v)]) = true -> array_index k = Some i -> False.
Proof.
  unfold no_index_key. rewrite forallb_app. simpl.
  intros [_ H]%andb_true_iff Hi. rewrite Hi in H. discriminate.
Qed.

Lemma index_ordered_app_l o : forall o' above,
  index_ordered (o ++ o') above = true -> index_ordered o above = true.
Proof.
  induction o as [|[k v] o IH]; simpl; [reflexivity|]. intros o' above.
  destruct (array_index k).
  - intros [H1 H2]%andb_true_iff. rewrite H1. now apply IH in H2.
  - apply no_index_key_app_l.
Qed.

Lemma obj_wf_app_l o o' : obj_wf (o ++ o') = true -> obj_wf o = true.
Proof.
  unfold obj_wf. intros [H1 H2]%andb_true_iff.
  apply keys_unique_app_l in H1. apply index_ordered_app_l in H2.
  now rewrite H1, H2.
Qed.

(** A new array-index key that is above all the others goes last. *)
Lemma obj_insert_index_last k v i : forall acc above,
  index_ordered (acc ++ [(k, v)]) above = true ->
  array_index k = Some i ->
  (forall b, above = Some b -> b < i)
  /\ obj_insert_index acc i k v = acc ++ [(k, v)].
Proof.
  induction acc as [|[k' v'] acc IH]; intros above Hord Hi.
  - simpl in Hord. rewrite Hi in Hord. split; [|reflexivity].
    intros b ->. apply andb_true_iff in Hord as [Hb _].
    now apply N.ltb_lt in Hb.
  - simpl in Hord |- *. destruct (array_index k') as [j|].
    + apply andb_true_iff in Hord as [Hab Hord].
      destruct (IH (Some j) Hord Hi) as [Hlt Heq].
      specialize (Hlt j eq_refl). split.
      * intros b ->. apply N.ltb_lt in Hab. lia.
      * apply N.ltb_lt in Hlt. now rewrite Hlt, Heq.
    + exfalso. eapply no_index_key_last; eassumption.
Qed.

(** Writing a key that comes last in an object puts it there. *)
Lemma obj_set_last acc k v :
  obj_wf (acc ++ [(k, v)]) = true -> obj_set acc k v = acc ++ [(k, v)].
Proof.
  unfold obj_wf. intros [Hu Hord]%andb_true_iff.
  unfold obj_set. rewrite (keys_unique_last _ _ _ Hu).
  destruct (array_index k) as [i|] eqn:Hi; [|reflexivity].
  now destruct (obj_insert_index_last k v i acc None Hord Hi).
Qed.

End ObjectOrder.

Lemma has_key_JSON_properties (o : Notes) k :
  has_key (JSON_properties o) k = has_key o k.
Proof.
  unfold JSON_properties, has_key.
  induction o as [|[k' v'] o IH]; simpl; [reflexivity|]. now rewrite IH.
Qed.

Lemma obj_wf_JSON_properties (o : Notes) : obj_wf (JSON_properties o) = obj_wf o.
Proof.
  unfold obj_wf. f_equal.
  - induction o as [|[k v] o IH]; simpl; [reflexivity|].
    now rewrite IH, has_key_JSON_properties.
  - generalize (@None N). induction o as [|[k v] o IH]; intros above; simpl;
      [reflexivity|].
    destruct (array_index k).
    + now rewrite IH.
    + unfold no_index_key, JSON_properties. clear IH.
      induction o as [|[k' v'] o IH]; simpl; [reflexivity|]. now rewrite IH.
Qed.

Lemma set_all_ordered props : forall acc,
  obj_wf (acc ++ JSON_properties props) = true ->
  set_all props acc = acc ++ JSON_properties props.
Proof.
  induction props as [|[k v] props IH]; intros acc Hwf; simpl.
  - now rewrite app_nil_r.
  - change (acc ++ JSON_properties ((k, v) :: props))
      with (acc ++ [(k, JString v)] ++ JSON_properties props) in Hwf.
    rewrite app_assoc in Hwf.
    rewrite obj_set_last by (eapply obj_wf_app_l; eassumption).
    unfold set_all in IH. rewrite IH by assumption.
    now rewrite <- app_assoc.
Qed.

Lemma strings_of_JSON_properties (o : Notes) :
  strings_of_properties (JSON_properties o) = Some o.
Proof.
  induction o as [|[k v] o IH]; simpl; [reflexivity|]. now rewrite IH.
Qed.

(** Parsing the text of a notes object gives the object back. *)
Lemma parse_stringify_notes (o : Notes) :
  obj_wf o = true ->
  JSON_parse (JSON_stringify_notes o) = Some (JObject (JSON_properties o))
  /\ notes_of_JSON (JObject (JSON_properties o)) = Some o.
Proof.
  intros Hwf. split.
  - rewrite JSON_parse_stringify, set_all_ordered; [reflexivity|].
    simpl. now rewrite obj_wf_JSON_properties.
  - apply strings_of_JSON_properties.
Qed.

(** ** Writing and reading a text in UTF-8 *)

Lemma utf8_lead_1 b : b <= 127 -> utf8_lead b = ([b], None).
Proof. intros Hb. unfold utf8_lead. cases_on_comparisons. Qed.

Lemma utf8_lead_2 b :
  194 <= b <= 223 -> utf8_lead b = ([], Some (mk_pending (b mod 32) 1 128 191)).
Proof. intros Hb. unfold utf8_lead. cases_on_comparisons. Qed.

Lemma utf8_lead_3 b :
  224 <= b <= 239 ->
  utf8_lead b = ([], Some (mk_pending (b mod 16) 2
                             (if b =? 224 then 160 else 128)
                             (if b =? 237 then 159 else 191))).
Proof.
  intros Hb. unfold utf8_lead.
  destruct (N.leb_spec b 127); [lia|].
  destruct (N.leb_spec 194 b); [|lia].
  destruct (N.leb_spec b 223); [lia|].
  destruct (N.leb_spec 224 b); [|lia].
  destruct (N.leb_spec b 239); [|lia].
  reflexivity.
Qed.

Lemma utf8_lead_4 b :
  240 <= b <= 244 ->
  utf8_lead b = ([], Some (mk_pending (b mod 8) 3
                             (if b =? 240 then 144 else 128)
                             (if b =? 244 then 143 else 191))).
Proof.
  intros Hb. unfold utf8_lead.
  destruct (N.leb_spec b 127); [lia|].
  destruct (N.leb_spec 194 b); [|lia].
  destruct (N.leb_spec b 223); [lia|].
  destruct (N.leb_spec 224 b); [|lia].
  destruct (N.leb_spec b 239); [lia|].
  destruct (N.leb_spec 240 b); [|lia].
  destruct (N.leb_spec b 244); [|lia].
  reflexivity.
Qed.

Lemma utf8_decode_lead b r :
  utf8_decode_from None (b :: r) =
  fst (utf8_lead b) ++ utf8_decode_from (snd (utf8_lead b)) r.
Proof. simpl. now destruct (utf8_lead b). Qed.

Lemma utf8_decode_continue bits n lower upper b r :
  lower <= b <= upper ->
  utf8_decode_from (Some (mk_pending bits (S (S n)) lower upper)) (b :: r) =
  utf8_decode_from (Some (mk_pending (bits * 64 + b mod 64) (S n) 128 191)) r.
Proof.
  intros Hb. cbn [utf8_decode_from pending_lower pending_upper pending_bits pending_needed].
  destruct (N.leb_spec lower b); [|lia].
  destruct (N.leb_spec b upper); [|lia].
  reflexivity.
Qed.

Lemma utf8_decode_last bits lower upper b r :
  lower <= b <= upper ->
  utf8_decode_from (Some (mk_pending bits 1 lower upper)) (b :: r) =
  units_of_code_point (bits * 64 + b mod 64) ++ utf8_decode_from None r.
Proof.
  intros Hb. cbn [utf8_decode_from pending_lower pending_upper pending_bits pending_needed].
  destruct (N.leb_spec lower b); [|lia].
  destruct (N.leb_spec b upper); [|lia].
  reflexivity.
Qed.

(** A code point that is written is read back. *)
Lemma utf8_decode_code_point cp rest :
  cp < 1114112 -> cp < 55296 \/ 57343 < cp ->
  utf8_decode_from None (utf8_of_code_point cp ++ rest) =
  units_of_code_point cp ++ utf8_decode_from None rest.
Proof.
  intros Hmax Hscalar. unfold utf8_of_code_point.
  destruct (N.ltb_spec cp 128); [|destruct (N.ltb_spec cp 2048);
    [|destruct (N.ltb_spec cp 65536)]]; cbn [app].
  - rewrite utf8_decode_lead, utf8_lead_1 by lia. cbn [fst snd app].
    unfold units_of_code_point. destruct (N.ltb_spec cp 65536); [reflexivity|lia].
  - rewrite utf8_decode_lead, utf8_lead_2 by lia. cbn [fst snd app].
    rewrite utf8_decode_last by lia. do 2 f_equal. lia.
  - rewrite utf8_decode_lead, utf8_lead_3 by lia. cbn [fst snd app].
    rewrite utf8_decode_continue by (cases_on_comparisons).
    rewrite utf8_decode_last by lia. do 2 f_equal. lia.
  - rewrite utf8_decode_lead, utf8_lead_4 by lia. cbn [fst snd app].
    rewrite utf8_decode_continue by (cases_on_comparisons).
    rewrite utf8_decode_continue by lia.
    rewrite utf8_decode_last by lia. do 2 f_equal. lia.
Qed.

Lemma utf8_encode_cons c r :
  utf8_encode (c :: r) =
  if is_high_surrogate c then
    match r with
    | c' :: r' =>
        if is_low_surrogate c'
        then utf8_of_code_point (code_point_of_pair c c') ++ utf8_encode r'
        else replacement_bytes ++ utf8_encode r
    | [] => replacement_bytes ++ utf8_encode r
    end
  else if is_low_surrogate c then replacement_bytes ++ utf8_encode r
  else utf8_of_code_point c ++ utf8_encode r.
Proof. reflexivity. Qed.

Lemma units_of_pair hi lo :
  is_high_surrogate hi = true -> is_low_surrogate lo = true ->
  units_of_code_point (code_point_of_pair hi lo) = [hi; lo].
Proof.
  intros Hhi%high_surrogate_range Hlo%low_surrogate_range.
  unfold units_of_code_point, code_point_of_pair.
  destruct (N.ltb_spec (65536 + (hi - 55296) * 1024 + (lo - 56320)) 65536); [lia|].
  f_equal; [|f_equal]; lia.
Qed.

Lemma units_of_code_unit c : c < 65536 -> units_of_code_point c = [c].
Proof.
  intros Hc. unfold units_of_code_point.
  destruct (N.ltb_spec c 65536); [reflexivity|lia].
Qed.

Lemma not_surrogate_range c :
  is_high_surrogate c = false -> is_low_surrogate c = false -> c < 55296 \/ 57343 < c.
Proof. unfold is_high_surrogate, is_low_surrogate. cases_on_comparisons. Qed.

(** A text in which every surrogate is part of a pair is read back from its
    UTF-8 bytes as it was written. *)
Lemma utf8_decode_encode s :
  wf_string s = true -> well_paired s = true -> utf8_decode (utf8_encode s) = s.
Proof.
  unfold utf8_decode.
  induction s as [| c | c c' r IHr IHc'] using list_pair_ind.
  - reflexivity.
  - cbn [wf_string forallb well_paired]. unfold code_unit.
    intros [Hc%N.ltb_lt _]%andb_true_iff.
    rewrite utf8_encode_cons.
    destruct (is_high_surrogate c) eqn:Hhi; [discriminate|].
    destruct (is_low_surrogate c) eqn:Hlo; [discriminate|]. intros _.
    rewrite utf8_decode_code_point, units_of_code_unit
      by (try apply not_surrogate_range; assumption || lia).
    reflexivity.
  - intros Hwf Hwp. rewrite utf8_encode_cons.
    cbn [wf_string forallb] in Hwf. unfold code_unit in Hwf.
    apply andb_true_iff in Hwf as [Hc%N.ltb_lt Hwf].
    change (well_paired (c :: c' :: r)) with
      (if is_high_surrogate c then is_low_surrogate c' && well_paired r
       else negb (is_low_surrogate c) && well_paired (c' :: r)) in Hwp.
    destruct (is_high_surrogate c) eqn:Hhi.
    + apply andb_true_iff in Hwp as [Hlo' Hwp]. rewrite Hlo'.
      apply andb_true_iff in Hwf as [_ Hwf].
      pose proof (high_surrogate_range _ Hhi). pose proof (low_surrogate_range _ Hlo').
      rewrite utf8_decode_code_point, units_of_pair
        by (assumption || unfold code_point_of_pair; lia).
      cbn [app]. now rewrite IHr.
    + apply andb_true_iff in Hwp as [Hlo%negb_true_iff Hwp]. rewrite Hlo.
      rewrite utf8_decode_code_point, units_of_code_unit
        by (try apply not_surrogate_range; assumption || lia).
      cbn [app]. now rewrite IHc'.
Qed.

(** *** The texts the extension writes pair their surrogates *)

Lemma well_paired_cons c r :
  well_paired (c :: r) =
  if is_high_surrogate c then
    match r with
    | c' :: r' => is_low_surrogate c' && well_paired r'
    | [] => false
    end
  else negb (is_low_surrogate c) && well_paired r.
Proof. reflexivity. Qed.

Lemma well_paired_app s : forall t,
  well_paired s = true -> well_paired t = true -> well_paired (s ++ t) = true.
Proof.
  induction s as [| c | c c' r IHr IHc'] using list_pair_ind; intros t.
  - auto.
  - cbn [app]. rewrite !well_paired_cons.
    destruct (is_high_surrogate c); [discriminate|].
    intros [-> _]%andb_true_iff Ht. now rewrite Ht.
  - change ((c :: c' :: r) ++ t) with (c :: c' :: r ++ t).
    rewrite (well_paired_cons c (c' :: r)), (well_paired_cons c (c' :: r ++ t)).
    destruct (is_high_surrogate c).
    + intros [-> Hr]%andb_true_iff Ht. cbn [andb]. now apply IHr.
    + intros [-> Hr]%andb_true_iff Ht. cbn [andb]. now apply (IHc' t).
Qed.

Lemma well_paired_plain s : forallb not_surrogate s = true -> well_paired s = true.
Proof.
  induction s as [|c s IH]; [reflexivity|]. cbn [forallb]. unfold not_surrogate at 1.
  intros [[Hhi%negb_true_iff Hlo]%andb_true_iff Hs]%andb_true_iff.
  rewrite well_paired_cons, Hhi, Hlo. now apply IH.
Qed.

Lemma hex_lower_ascii d : d < 16 -> hex_lower d < 128.
Proof. intros Hd. unfold hex_lower. destruct (d <? 10); lia. Qed.

Lemma UnicodeEscape_ascii c : forallb (fun u => u <? 128) (UnicodeEscape c) = true.
Proof.
  unfold UnicodeEscape. cbn [forallb].
  repeat (apply andb_true_iff; split); try reflexivity;
    apply N.ltb_lt, hex_lower_ascii, N.mod_lt; lia.
Qed.

Lemma JSON_escape_ascii c e :
  JSON_escape c = Some e -> forallb (fun u => u <? 128) e = true.
Proof.
  unfold JSON_escape.
  repeat match goal with
         | |- context [if ?b then _ else _] => destruct b
         end; intros [= <-]; try reflexivity.
  apply UnicodeEscape_ascii.
Qed.

Lemma ascii_plain s : forallb (fun u => u <? 128) s = true -> forallb not_surrogate s = true.
Proof.
  induction s as [|c s IH]; [reflexivity|]. cbn [forallb].
  intros [Hc%N.ltb_lt Hs]%andb_true_iff. rewrite IH by assumption.
  unfold not_surrogate, is_high_surrogate, is_low_surrogate. cases_on_comparisons.
Qed.

Lemma ascii_wf s : forallb (fun u => u <? 128) s = true -> wf_string s = true.
Proof.
  induction s as [|c s IH]; [reflexivity|]. cbn [forallb wf_string].
  intros [Hc%N.ltb_lt Hs]%andb_true_iff. unfold wf_string in IH.
  rewrite IH by assumption. unfold code_unit. cases_on_comparisons.
Qed.

Lemma ascii_well_paired s : forallb (fun u => u <? 128) s = true -> well_paired s = true.
Proof. intros H. now apply well_paired_plain, ascii_plain. Qed.

Lemma wf_string_app s t : wf_string (s ++ t) = wf_string s && wf_string t.
Proof. apply forallb_app. Qed.

(** Quoting leaves no surrogate outside a pair. *)
Lemma quote_units_well_paired s : well_paired (quote_units s) = true.
Proof.
  induction s as [| c | c c' r IHr IHc'] using list_pair_ind.
  - reflexivity.
  - rewrite quote_units_cons. destruct (JSON_escape c) as [e|] eqn:He.
    + apply well_paired_app; [|reflexivity].
      eapply ascii_well_paired, JSON_escape_ascii; eassumption.
    + destruct (is_high_surrogate c) eqn:Hhi;
        [|destruct (is_low_surrogate c) eqn:Hlo].
      * apply well_paired_app; [|reflexivity].
        apply ascii_well_paired, UnicodeEscape_ascii.
      * apply well_paired_app; [|reflexivity].
        apply ascii_well_paired, UnicodeEscape_ascii.
      * rewrite well_paired_cons, Hhi, Hlo. reflexivity.
  - rewrite quote_units_cons. destruct (JSON_escape c) as [e|] eqn:He.
    + apply well_paired_app; [|assumption].
      eapply ascii_well_paired, JSON_escape_ascii; eassumption.
    + destruct (is_high_surrogate c) eqn:Hhi;
        [destruct (is_low_surrogate c') eqn:Hlo'|destruct (is_low_surrogate c) eqn:Hlo].
      * rewrite well_paired_cons, Hhi, Hlo'. assumption.
      * apply well_paired_app; [|assumption].
        apply ascii_well_paired, UnicodeEscape_ascii.
      * apply well_paired_app; [|assumption].
        apply ascii_well_paired, UnicodeEscape_ascii.
      * rewrite well_paired_cons, Hhi, Hlo. assumption.
Qed.

Lemma quote_units_wf s : wf_string s = true -> wf_string (quote_units s) = true.
Proof.
  induction s as [| c | c c' r IHr IHc'] using list_pair_ind.
  - reflexivity.
  - cbn [wf_string forallb]. rewrite andb_true_r. intros Hc.
    rewrite quote_units_cons. destruct (JSON_escape c) as [e|] eqn:He.
    + rewrite wf_string_app. apply andb_true_iff; split; [|reflexivity].
      eapply ascii_wf, JSON_escape_ascii; eassumption.
    + destruct (is_high_surrogate c); [|destruct (is_low_surrogate c)];
        rewrite ?wf_string_app, ?(ascii_wf _ (UnicodeEscape_ascii c)); try reflexivity.
      cbn [wf_string forallb]. now rewrite Hc.
  - intros Hwf. change (wf_string (c :: c' :: r)) with
      (code_unit c && wf_string (c' :: r)) in Hwf.
    apply andb_true_iff in Hwf as [Hc Hwf]. specialize (IHc' Hwf).
    change (wf_string (c' :: r)) with (code_unit c' && wf_string r) in Hwf.
    apply andb_true_iff in Hwf as [Hc' Hwf]. specialize (IHr Hwf).
    rewrite quote_units_cons. destruct (JSON_escape c) as [e|] eqn:He.
    + rewrite wf_string_app, IHc'. apply andb_true_iff; split; [|reflexivity].
      eapply ascii_wf, JSON_escape_ascii; eassumption.
    + destruct (is_high_surrogate c);
        [destruct (is_low_surrogate c')|destruct (is_low_surrogate c)];
        rewrite ?wf_string_app, ?(ascii_wf _ (UnicodeEscape_ascii c)), ?IHc';
        try reflexivity.
      * change (wf_string (c :: c' :: quote_units r)) with
          (code_unit c && (code_unit c' && wf_string (quote_units r))).
        now rewrite Hc, Hc', IHr.
      * change (wf_string (c :: quote_units (c' :: r))) with
          (code_unit c && wf_string (quote_units (c' :: r))).
        now rewrite Hc, IHc'.
Qed.

Lemma Quote_well_paired s : well_paired (QuoteJSONString s) = true.
Proof.
  unfold QuoteJSONString. change (34 :: quote_units s ++ [34])
    with ([34] ++ quote_units s ++ [34]).
  repeat apply well_paired_app; try reflexivity. apply quote_units_well_paired.
Qed.

Lemma Quote_wf s : wf_string s = true -> wf_string (QuoteJSONString s) = true.
Proof.
  intros Hs. unfold QuoteJSONString. change (34 :: quote_units s ++ [34])
    with ([34] ++ quote_units s ++ [34]).
  now rewrite !wf_string_app, quote_units_wf.
Qed.

Lemma property_well_paired kv : well_paired (stringify_property kv) = true.
Proof.
  unfold stringify_property.
  apply well_paired_app; [apply Quote_well_paired|].
  apply well_paired_app; [reflexivity|apply Quote_well_paired].
Qed.

Lemma property_wf kv :
  wf_string (fst kv) && wf_string (snd kv) = true ->
  wf_string (stringify_property kv) = true.
Proof.
  intros [Hk Hv]%andb_true_iff. unfold stringify_property.
  now rewrite !wf_string_app, !Quote_wf.
Qed.

Lemma join_well_paired sep l :
  well_paired sep = true -> forallb well_paired l = true ->
  well_paired (join sep l) = true.
Proof.
  intros Hsep. induction l as [|x l IH]; [reflexivity|].
  cbn [forallb]. intros [Hx Hl]%andb_true_iff.
  destruct l as [|y l]; [exact Hx|].
  change (join sep (x :: y :: l)) with (x ++ sep ++ join sep (y :: l)).
  repeat apply well_paired_app; auto.
Qed.

Lemma join_wf sep l :
  wf_string sep = true -> forallb wf_string l = true -> wf_string (join sep l) = true.
Proof.
  intros Hsep. induction l as [|x l IH]; [reflexivity|].
  cbn [forallb]. intros [Hx Hl]%andb_true_iff.
  destruct l as [|y l]; [exact Hx|].
  change (join sep (x :: y :: l)) with (x ++ sep ++ join sep (y :: l)).
  now rewrite !wf_string_app, Hx, Hsep, IH.
Qed.

Lemma stringify_notes_well_paired (o : Notes) :
  well_paired (JSON_stringify_notes o) = true.
Proof.
  destruct o as [|kv o]; [reflexivity|]. unfold JSON_stringify_notes.
  repeat apply well_paired_app; try reflexivity.
  apply join_well_paired; [reflexivity|].
  rewrite forallb_forall. intros x [kv' [<- _]]%in_map_iff.
  apply property_well_paired.
Qed.

Lemma stringify_notes_wf (o : Notes) :
  forallb (fun kv => wf_string (fst kv) && wf_string (snd kv)) o = true ->
  wf_string (JSON_stringify_notes o) = true.
Proof.
  intros Ho. destruct o as [|kv o]; [reflexivity|]. unfold JSON_stringify_notes.
  rewrite !wf_string_app.
  rewrite join_wf; [reflexivity|reflexivity|].
  rewrite forallb_forall in Ho |- *. intros x [kv' [<- Hin]]%in_map_iff.
  now apply property_wf, Ho.
Qed.

(** The text of a notes object survives the file. *)
Lemma read_back_stringify (o : Notes) :
  forallb (fun kv => wf_string (fst kv) && wf_string (snd kv)) o = true ->
  utf8_decode (utf8_encode (JSON_stringify_notes o)) = JSON_stringify_notes o.
Proof.
  intros Ho. apply utf8_decode_encode.
  - now apply stringify_notes_wf.
  - apply stringify_notes_well_paired.
Qed.

(** ** Saving and loading *)

Lemma saveNotes_usable (w : World) :
  usable (disk w) = true ->
  saveNotes w =
  (Normal tt,
   mk_world (notes w) (File (utf8_encode (JSON_stringify_notes (notes w))) true true)
            (trace w)).
Proof.
  destruct w as [o d t]. cbn [disk notes trace].
  destruct d as [[|]|[|]|content [|] [|]| |[kept|]|kept|content [|] kept]; try discriminate; reflexivity.
Qed.

(** [saveNotes] returns, whatever the state of the disk, and leaves the
    notes as they are. *)
Lemma saveNotes_returns (w : World) :
  exists d t, saveNotes w = (Normal tt, mk_world (notes w) d t).
Proof.
  destruct w as [o d t].
  destruct d as [[|]|[|]|content [|] [|]| |[kept|]|kept|content [|] kept]; do 2 eexists; reflexivity.
Qed.

Lemma loadNotes_missing (w : World) :
  file_exists (disk w) = false -> loadNotes w = (Normal tt, w).
Proof.
  destruct w as [o d t]. cbn [disk].
  destruct d as [[|]|[|]|content [|] [|]| |[kept|]|kept|content [|] kept]; try discriminate; reflexivity.
Qed.

Lemma loadNotes_readable (o : Notes) content write_ok t :
  loadNotes (mk_world o (File content true write_ok) t) =
  match JSON_parse (utf8_decode content) with
  | Some v =>
      match notes_of_JSON v with
      | Some o' => (Normal tt, mk_world o' (File content true write_ok) t)
      | None => (OffType v, mk_world o (File content true write_ok) t)
      end
  | None =>
      (Normal tt, mk_world o (File content true write_ok)
                    (t ++ [ConsoleError (str "Failed to load notes:")]))
  end.
Proof.
  cbv [loadNotes try_catch bind existsSync_file readFileSync get_disk ret
       JSON_parse_or_throw assign_notes throw emit put_notes
       disk notes trace file_exists].
  destruct (JSON_parse (utf8_decode content)) as [v|]; [|reflexivity].
  destruct (notes_of_JSON v); reflexivity.
Qed.

Lemma loadNotes_unreadable (w : World) :
  file_exists (disk w) = true ->
  file_content (disk w) = None ->
  loadNotes w =
  (Normal tt, mk_world (notes w) (disk w)
                (trace w ++ [ConsoleError (str "Failed to load notes:")])).
Proof.
  destruct w as [o d t]. cbn [disk notes trace].
  destruct d as [[|]|[|]|content [|] [|]| |[kept|]|kept|content [|] kept];
    try discriminate; reflexivity.
Qed.

Lemma loadNotes_read (w : World) content :
  file_content (disk w) = Some content ->
  loadNotes w =
  match JSON_parse (utf8_decode content) with
  | Some v =>
      match notes_of_JSON v with
      | Some o' => (Normal tt, mk_world o' (disk w) (trace w))
      | None => (OffType v, w)
      end
  | None =>
      (Normal tt, mk_world (notes w) (disk w)
                    (trace w ++ [ConsoleError (str "Failed to load notes:")]))
  end.
Proof.
  destruct w as [o d t]. cbn [disk notes trace].
  destruct d as [[|]|[|]|c [|] write_ok| |[kept|]|kept|c [|] kept];
    try discriminate; intros [= ->].
  - apply loadNotes_readable.
  - cbv [loadNotes try_catch bind existsSync_file readFileSync get_disk ret
         JSON_parse_or_throw assign_notes throw emit put_notes
         disk notes trace file_exists].
    destruct (JSON_parse (utf8_decode content)) as [v|]; [|reflexivity].
    destruct (notes_of_JSON v); reflexivity.
Qed.

(** ** The pieces of a key *)

Lemma split_from_cons c r cur :
  split_from (c :: r) cur =
  match r with
  | c' :: r' =>
      if (c =? 58) && (c' =? 58)
      then List.rev cur :: split_from r' []
      else split_from r (c :: cur)
  | [] => split_from r (c :: cur)
  end.
Proof. reflexivity. Qed.

Lemma split_from_nonempty s : forall cur, split_from s cur <> [].
Proof.
  induction s as [| c | c c' r IHr IHc'] using list_pair_ind; intros cur.
  - discriminate.
  - discriminate.
  - rewrite split_from_cons. destruct ((c =? 58) && (c' =? 58)).
    + discriminate.
    + apply IHc'.
Qed.

Lemma split_shape key : split key = key_path key :: tl (split key).
Proof.
  unfold key_path. pose proof (split_from_nonempty key []) as H.
  unfold split in *. now destruct (split_from key []).
Qed.

(** ** The edit link can always be built *)

Lemma encodeURIComponent_cons c r :
  encodeURIComponent (c :: r) =
  if uri_unreserved c then app_result [c] (encodeURIComponent r)
  else if is_low_surrogate c then None
  else if is_high_surrogate c then
    match r with
    | c' :: r' =>
        if is_low_surrogate c'
        then app_result (percent_encode (code_point_of_pair c c'))
                        (encodeURIComponent r')
        else None
    | [] => None
    end
  else app_result (percent_encode c) (encodeURIComponent r).
Proof. reflexivity. Qed.

Lemma uri_unreserved_ascii c : uri_unreserved c = true -> c < 128.
Proof.
  unfold uri_unreserved, is_digit. intros H.
  destruct (N.ltb_spec c 128) as [|Hc]; [assumption|].
  exfalso. revert H. cases_on_comparisons.
Qed.

Lemma surrogates_disjoint c : is_high_surrogate c = true -> is_low_surrogate c = false.
Proof. unfold is_high_surrogate, is_low_surrogate. cases_on_comparisons. Qed.

Lemma high_surrogate_reserved c : is_high_surrogate c = true -> uri_unreserved c = false.
Proof.
  intros H%high_surrogate_range. destruct (uri_unreserved c) eqn:E; [|reflexivity].
  apply uri_unreserved_ascii in E. lia.
Qed.

(** [encodeURIComponent] does not throw on a string whose surrogates are
    paired. *)
Lemma encodeURIComponent_well_paired s :
  well_paired s = true -> exists q, encodeURIComponent s = Some q.
Proof.
  induction s as [| c | c c' r IHr IHc'] using list_pair_ind.
  - intros _. now exists [].
  - rewrite well_paired_cons, encodeURIComponent_cons.
    destruct (is_high_surrogate c); [discriminate|].
    intros [->%negb_true_iff _]%andb_true_iff.
    destruct (uri_unreserved c); eexists; reflexivity.
  - rewrite well_paired_cons, encodeURIComponent_cons.
    destruct (is_high_surrogate c) eqn:Hhi.
    + intros [Hlo' [q Hq]%IHr]%andb_true_iff.
      rewrite (high_surrogate_reserved c Hhi), (surrogates_disjoint c Hhi), Hlo', Hq.
      eexists; reflexivity.
    + intros [->%negb_true_iff [q Hq]%IHc']%andb_true_iff. rewrite Hq.
      destruct (uri_unreserved c); eexists; reflexivity.
Qed.

Lemma uint_chars_ascii u : forallb (fun c => c <? 128) (uint_chars u) = true.
Proof. induction u; simpl; auto. Qed.

Lemma Number_toString_ascii z : forallb (fun c => c <? 128) (Number_toString z) = true.
Proof. destruct z; simpl; auto using uint_chars_ascii. Qed.

Lemma stringify_args_well_paired filePath line :
  well_paired (JSON_stringify_args filePath line) = true.
Proof.
  unfold JSON_stringify_args.
  apply well_paired_app; [reflexivity|].
  apply well_paired_app; [reflexivity|].
  apply well_paired_app; [reflexivity|].
  apply well_paired_app; [apply Quote_well_paired|].
  apply well_paired_app; [reflexivity|].
  apply well_paired_app; [reflexivity|].
  apply well_paired_app; [reflexivity|].
  apply well_paired_app; [|reflexivity].
  apply ascii_well_paired, Number_toString_ascii.
Qed.

Lemma note_markdown_defined filePath line note :
  exists markdown, note_markdown filePath line note = Some markdown.
Proof.
  unfold note_markdown, edit_link.
  destruct (encodeURIComponent_well_paired _ (stringify_args_well_paired filePath line))
    as [q ->].
  eexists; reflexivity.
Qed.

(** ** The renderer *)

Section RendererFacts.

Variable toLowerCase : jsstring -> jsstring.

Lemma decoration_of_entry_eq editor key note :
  decoration_of_entry toLowerCase editor (key, note) =
  if string_eqb (normalize toLowerCase (key_path key))
                (normalize toLowerCase (fsPath editor))
  then
    match parseInt (key_line key) with
    | Some line =>
        if (0 <=? line)%Z && (line <? lineCount editor)%Z then
          match note_markdown (key_path key) line note with
          | Some markdown => Normal (Some (mk_decoration line markdown))
          | None => Throw URIError
          end
        else Normal None
    | None => Normal None
    end
  else Normal None.
Proof.
  unfold decoration_of_entry, key_line. rewrite (split_shape key). reflexivity.
Qed.

(** The body of the loop never throws. *)
Lemma decoration_of_entry_returns editor entry :
  exists r, decoration_of_entry toLowerCase editor entry = Normal r.
Proof.
  destruct entry as [key note]. rewrite decoration_of_entry_eq.
  destruct (string_eqb _ _); [|eexists; reflexivity].
  destruct (parseInt (key_line key)) as [line|]; [|eexists; reflexivity].
  destruct ((0 <=? line)%Z && (line <? lineCount editor)%Z); [|eexists; reflexivity].
  destruct (note_markdown_defined (key_path key) line note) as [m ->].
  eexists; reflexivity.
Qed.

Lemma collect_decorations_returns editor entries : forall decorations,
  exists ds, collect_decorations toLowerCase editor entries decorations = Normal ds.
Proof.
  induction entries as [|entry entries IH]; intros decorations.
  - eexists; reflexivity.
  - cbn [collect_decorations].
    destruct (decoration_of_entry_returns editor entry) as [[d|] ->]; apply IH.
Qed.

Lemma collect_decorations_none editor entries : forall decorations,
  Forall (fun entry => decoration_of_entry toLowerCase editor entry = Normal None)
         entries ->
  collect_decorations toLowerCase editor entries decorations = Normal decorations.
Proof.
  induction entries as [|entry entries IH]; intros decorations Hall.
  - reflexivity.
  - inversion Hall as [|? ? Hentry Hrest]; subst.
    cbn [collect_decorations]. rewrite Hentry. now apply IH.
Qed.

Lemma updateDecorations_eq editor (w : World) :
  updateDecorations toLowerCase editor w =
  match collect_decorations toLowerCase editor (notes w) [] with
  | Normal ds =>
      (Normal tt,
       mk_world (notes w) (disk w) (trace w ++ [SetDecorations editor ds]))
  | Throw e => (Throw e, w)
  | OffType v => (OffType v, w)
  end.
Proof.
  cbv [updateDecorations bind get_notes emit].
  destruct (collect_decorations toLowerCase editor (notes w) []); reflexivity.
Qed.

(** [updateDecorations] returns and sets the decorations the loop collected. *)
Lemma updateDecorations_returns editor (w : World) :
  exists ds,
    collect_decorations toLowerCase editor (notes w) [] = Normal ds
    /\ updateDecorations toLowerCase editor w =
       (Normal tt,
        mk_world (notes w) (disk w) (trace w ++ [SetDecorations editor ds])).
Proof.
  destruct (collect_decorations_returns editor (notes w) []) as [ds Hds].
  exists ds. split; [assumption|]. now rewrite updateDecorations_eq, Hds.
Qed.

End RendererFacts.

(** ** Reading a line number back *)

Lemma digit_prefix_not_digit c r : is_digit c = false -> digit_prefix (c :: r) = Nil.
Proof.
  unfold is_digit. destruct c as [|p]; [reflexivity|].
  do 7 (try destruct p as [p|p|]); intros H; try reflexivity; discriminate H.
Qed.

Lemma digit_prefix_uint_chars u rest :
  starts_with_digit rest = false -> digit_prefix (uint_chars u ++ rest) = u.
Proof.
  intros Hrest. induction u; cbn [uint_chars app digit_prefix]; try (now f_equal).
  destruct rest as [|c r]; [reflexivity|]. now apply digit_prefix_not_digit.
Qed.

Lemma trim_start_uint_chars u rest :
  u <> Nil -> trim_start (uint_chars u ++ rest) = uint_chars u ++ rest.
Proof. destruct u; [contradiction|..]; reflexivity. Qed.

Lemma strip_sign_uint_chars u rest :
  u <> Nil -> strip_sign (uint_chars u ++ rest) = (false, uint_chars u ++ rest).
Proof. destruct u; [contradiction|..]; reflexivity. Qed.

Lemma parseInt_unsigned u rest :
  u <> Nil -> starts_with_digit rest = false ->
  parseInt (Some (uint_chars u ++ rest)) = Some (Z.of_N (N.of_uint u)).
Proof.
  intros Hu Hrest. unfold parseInt.
  rewrite trim_start_uint_chars, strip_sign_uint_chars by assumption.
  cbv beta iota. rewrite digit_prefix_uint_chars by assumption.
  destruct u; [contradiction|..]; reflexivity.
Qed.

Lemma parseInt_negative u rest :
  u <> Nil -> starts_with_digit rest = false ->
  parseInt (Some (45 :: uint_chars u ++ rest)) = Some (- Z.of_N (N.of_uint u))%Z.
Proof.
  intros Hu Hrest. unfold parseInt.
  change (trim_start (45 :: ?s)) with (45 :: s).
  change (strip_sign (45 :: ?s)) with (true, s).
  cbv beta iota. rewrite digit_prefix_uint_chars by assumption.
  destruct u; [contradiction|..]; reflexivity.
Qed.

(** [parseInt] reads the decimal form of an integer back, and stops at the
    first code unit that is not a digit. *)
Lemma parseInt_Number_toString z rest :
  starts_with_digit rest = false ->
  parseInt (Some (Number_toString z ++ rest)) = Some z.
Proof.
  intros Hrest. destruct z as [|p|p]; cbn [Number_toString].
  - change (str "0") with (uint_chars (D0 Nil)).
    rewrite parseInt_unsigned by (assumption || discriminate). reflexivity.
  - rewrite parseInt_unsigned
      by (assumption || apply DecimalPos.Unsigned.to_uint_nonnil).
    unfold N.of_uint. now rewrite DecimalPos.Unsigned.of_to.
  - rewrite <- app_comm_cons, parseInt_negative
      by (assumption || apply DecimalPos.Unsigned.to_uint_nonnil).
    unfold N.of_uint. now rewrite DecimalPos.Unsigned.of_to.
Qed.

(** ** The commands *)

Section CommandFacts.

Variable toLowerCase : jsstring -> jsstring.

Lemma addNote_no_text editor input (w : World) :
  input = None \/ input = Some [] ->
  addNote toLowerCase (Some editor) input w =
  (Normal tt,
   mk_world (notes w) (disk w)
            (trace w ++ [ShowInputBox (str "Enter your note") None])).
Proof. intros [-> | ->]; reflexivity. Qed.

Lemma addNote_text editor note (w : World) :
  note <> [] ->
  let key := noteKey (fsPath editor) (active_line editor) in
  let written :=
    mk_world (obj_set (notes w) key note) (disk w)
             (trace w ++ [ShowInputBox (str "Enter your note") None]) in
  exists d t ds,
    saveNotes written = (Normal tt, mk_world (notes written) d t)
    /\ collect_decorations toLowerCase editor (notes written) [] = Normal ds
    /\ addNote toLowerCase (Some editor) (Some note) w =
       (Normal tt,
        mk_world (notes written) d
                 (t ++ [SetDecorations editor ds;
                        ShowInformationMessage (str "Note added!")])).
Proof.
  intros Hnote key written.
  destruct (saveNotes_returns written) as (d & t & Hsave).
  destruct (updateDecorations_returns toLowerCase editor (mk_world (notes written) d t))
    as (ds & Hds & Hupdate).
  exists d, t, ds. split; [exact Hsave|]. split; [exact Hds|].
  destruct note as [|c note]; [contradiction|].
  cbv [addNote bind emit get_notes put_notes truthy notes disk trace].
  fold key. destruct w as [o d0 t0].
  change (saveNotes _) with (saveNotes written). rewrite Hsave.
  rewrite Hupdate. cbn [notes disk trace]. now rewrite <- app_assoc.
Qed.

Lemma editNote_invalid args input visible (w : World) :
  match args with
  | Some (mk_args (Some _) (Some _)) => False
  | _ => True
  end ->
  editNote toLowerCase args input visible w =
  (Normal tt,
   mk_world (notes w) (disk w)
     (trace w ++ [ShowErrorMessage
                    (str "Invalid arguments passed to Edit Note command.")])).
Proof.
  destruct args as [[[f|] [l|]]|]; try contradiction; reflexivity.
Qed.

Lemma editNote_text filePath line newNote visible (w : World) :
  let key := noteKey filePath line in
  let written :=
    mk_world (obj_set (notes w) key newNote) (disk w)
             (trace w ++ [ShowInputBox (str "Edit your note")
                            (Some (prefill (notes w) key))]) in
  exists d t,
    saveNotes written = (Normal tt, mk_world (notes written) d t)
    /\ match find (fun e => string_eqb (fsPath e) filePath) visible with
       | Some editor =>
           exists ds,
             collect_decorations toLowerCase editor (notes written) [] = Normal ds
             /\ editNote toLowerCase (Some (mk_args (Some filePath) (Some line)))
                  (Some newNote) visible w =
                (Normal tt,
                 mk_world (notes written) d
                   (t ++ [SetDecorations editor ds;
                          ShowInformationMessage (str "Note updated!")]))
       | None =>
           editNote toLowerCase (Some (mk_args (Some filePath) (Some line)))
             (Some newNote) visible w =
           (Normal tt,
            mk_world (notes written) d
              (t ++ [ShowInformationMessage (str "Note updated!")]))
       end.
Proof.
  intros key written.
  destruct (saveNotes_returns written) as (d & t & Hsave).
  exists d, t. split; [exact Hsave|].
  destruct w as [o d0 t0].
  destruct (find _ visible) as [editor|] eqn:Hfind.
  - destruct (updateDecorations_returns toLowerCase editor
                (mk_world (notes written) d t)) as (ds & Hds & Hupdate).
    exists ds. split; [exact Hds|].
    cbv [editNote bind emit get_notes put_notes notes disk trace].
    fold key. change (saveNotes _) with (saveNotes written).
    rewrite Hsave, Hfind, Hupdate. cbn [notes disk trace].
    now rewrite <- app_assoc.
  - cbv [editNote bind emit get_notes put_notes notes disk trace ret].
    fold key. change (saveNotes _) with (saveNotes written).
    now rewrite Hsave, Hfind.
Qed.

Lemma editNote_cancelled filePath line visible (w : World) :
  editNote toLowerCase (Some (mk_args (Some filePath) (Some line))) None visible w =
  (Normal tt,
   mk_world (notes w) (disk w)
     (trace w ++ [ShowInputBox (str "Edit your note")
                    (Some (prefill (notes w) (noteKey filePath line)))])).
Proof. reflexivity. Qed.

(** Whatever the editors and the disk, [editNote] with a text writes it. *)
Lemma editNote_notes filePath line newNote visible (w : World) :
  notes (snd (editNote toLowerCase (Some (mk_args (Some filePath) (Some line)))
                (Some newNote) visible w))
  = obj_set (notes w) (noteKey filePath line) newNote.
Proof.
  destruct (editNote_text filePath line newNote visible w) as (d & t & _ & H).
  destruct (find _ visible).
  - destruct H as (ds & _ & ->). reflexivity.
  - rewrite H. reflexivity.
Qed.

End CommandFacts.

(** ** Keys are split where they were joined *)

Lemma split_from_no_colon s : forall cur,
  forallb (fun c => negb (c =? 58)) s = true ->
  split_from s cur = [List.rev cur ++ s].
Proof.
  induction s as [|c s IH]; intros cur.
  - intros _. cbn [split_from]. now rewrite app_nil_r.
  - cbn [forallb]. intros [Hc%negb_true_iff Hs]%andb_true_iff.
    rewrite split_from_cons, Hc. cbn [andb].
    assert (split_from s (c :: cur) = [List.rev cur ++ c :: s]) as ->.
    { rewrite IH by assumption. cbn [List.rev]. now rewrite <- app_assoc. }
    now destruct s.
Qed.

Lemma split_from_key path line : forall cur,
  no_separator path = true ->
  forallb (fun c => negb (c =? 58)) line = true ->
  split_from (path ++ 58 :: 58 :: line) cur = [List.rev cur ++ path; line].
Proof.
  induction path as [|c path IH]; intros cur Hpath Hline.
  - cbn [app]. rewrite split_from_cons. cbn [N.eqb Pos.eqb andb].
    now rewrite app_nil_r, split_from_no_colon.
  - cbn [no_separator] in Hpath. apply andb_true_iff in Hpath as [Hc Hpath].
    rewrite <- app_comm_cons, split_from_cons.
    assert (split_from (path ++ 58 :: 58 :: line) (c :: cur)
            = [List.rev cur ++ c :: path; line]) as Hrec.
    { rewrite IH by assumption. cbn [List.rev]. now rewrite <- app_assoc. }
    destruct path as [|c' path].
    + cbn [app] in *. destruct (N.eqb_spec c 58) as [->|]; [discriminate|].
      exact Hrec.
    + rewrite <- app_comm_cons in *.
      destruct (N.eqb_spec c 58) as [->|]; [|exact Hrec].
      apply negb_true_iff in Hc. rewrite Hc. exact Hrec.
Qed.

Lemma Number_toString_no_colon z :
  forallb (fun c => negb (c =? 58)) (Number_toString z) = true.
Proof.
  assert (H : forall u, forallb (fun c => negb (c =? 58)) (uint_chars u) = true)
    by (induction u; simpl; auto).
  destruct z; simpl; auto.
Qed.

(** A key built from a path without separator is split into that path and
    the decimal form of the line. *)
Lemma split_noteKey filePath line :
  no_separator filePath = true ->
  split (noteKey filePath line) = [filePath; Number_toString line].
Proof.
  intros Hpath. unfold split, noteKey.
  change (str "::" ++ ?s) with (58 :: 58 :: s).
  now rewrite split_from_key by (assumption || apply Number_toString_no_colon).
Qed.

Lemma key_parts_noteKey filePath line :
  no_separator filePath = true ->
  key_path (noteKey filePath line) = filePath
  /\ key_line (noteKey filePath line) = Some (Number_toString line)
  /\ parseInt (key_line (noteKey filePath line)) = Some line.
Proof.
  intros Hpath. unfold key_path, key_line. rewrite split_noteKey by assumption.
  cbn [hd tl hd_error]. repeat split.
  rewrite <- (app_nil_r (Number_toString line)).
  now apply parseInt_Number_toString.
Qed.

(** ** The renderer on an example *)

Example render_main_ts :
  updateDecorations ascii_toLowerCase (mk_editor (str "/repo/main.ts") 10 0)
    (mk_world [(str "/repo/main.ts::5", str "fix this")] (NoFile true) []) =
  (Normal tt,
   mk_world [(str "/repo/main.ts::5", str "fix this")] (NoFile true)
     [SetDecorations (mk_editor (str "/repo/main.ts") 10 0)
        [mk_decoration 5
           ([55357; 56541] ++ str " **Note:** fix this" ++ [10; 10]
            ++ [91; 9999; 65039]
            ++ str " **Edit Note**](command:code-canvas.editNote?"
            ++ str "%7B%22filePath%22%3A%22%2Frepo%2Fmain.ts%22%2C%22line%22%3A5%7D"
            ++ str ")")]]).
Proof. reflexivity. Qed.

Example render_other_ts :
  updateDecorations ascii_toLowerCase (mk_editor (str "/repo/other.ts") 10 0)
    (mk_world [(str "/repo/main.ts::5", str "fix this")] (NoFile true) []) =
  (Normal tt,
   mk_world [(str "/repo/main.ts::5", str "fix this")] (NoFile true)
     [SetDecorations (mk_editor (str "/repo/other.ts") 10 0) []]).
Proof. reflexivity. Qed.

Example saved_text :
  JSON_stringify_notes [(str "/repo/main.ts::5", str "fix this")] =
  str "{" ++ [10] ++ str "  " ++ [34] ++ str "/repo/main.ts::5" ++ [34]
  ++ str ": " ++ [34] ++ str "fix this" ++ [34] ++ [10] ++ str "}".
Proof. reflexivity. Qed.

Example parse_reorders_index_keys :
  JSON_parse (str "{" ++ [34] ++ str "b" ++ [34] ++ str ":1," ++ [34] ++ str "7"
              ++ [34] ++ str ":[true,null]}") =
  Some (JObject [(str "7", JArray [JBool true; JNull]); (str "b", JNumber (str "1"))]).
Proof. reflexivity. Qed.

(** ** Writing a property leaves the others *)

Section ObjectFrame.

Context {V : Type}.
Implicit Types (o : object V) (k : jsstring) (v : V).

Lemma obj_get_replace_other o k k' v :
  k <> k' -> obj_get (obj_replace o k v) k' = obj_get o k'.
Proof.
  intros Hne. induction o as [|[k0 v0] o IH]; simpl; [reflexivity|].
  destruct (string_eqb_spec k0 k) as [->|Hk0]; simpl.
  - apply string_eqb_neq in Hne. now rewrite Hne.
  - now rewrite IH.
Qed.

Lemma obj_get_insert_index_other o i k k' v :
  k <> k' -> obj_get (obj_insert_index o i k v) k' = obj_get o k'.
Proof.
  intros Hne. apply string_eqb_neq in Hne.
  induction o as [|[k0 v0] o IH]; simpl; [now rewrite Hne|].
  destruct (array_index k0) as [j|]; [destruct (j <? i)|]; simpl;
    rewrite ?Hne, ?IH; reflexivity.
Qed.

Lemma obj_get_app_other o k k' v :
  k <> k' -> obj_get (o ++ [(k, v)]) k' = obj_get o k'.
Proof.
  intros Hne. apply string_eqb_neq in Hne.
  induction o as [|[k0 v0] o IH]; simpl; [now rewrite Hne|].
  now rewrite IH.
Qed.

Lemma obj_get_set_other o k k' v :
  k <> k' -> obj_get (obj_set o k v) k' = obj_get o k'.
Proof.
  intros Hne. unfold obj_set. destruct (has_key o k).
  - now apply obj_get_replace_other.
  - destruct (array_index k).
    + now apply obj_get_insert_index_other.
    + now apply obj_get_app_other.
Qed.

Lemma obj_get_some_has_key o k v : obj_get o k = Some v -> has_key o k = true.
Proof.
  induction o as [|[k0 v0] o IH]; simpl; [discriminate|].
  destruct (string_eqb k0 k); simpl; auto.
Qed.

Lemma obj_replace_same o k v : obj_get o k = Some v -> obj_replace o k v = o.
Proof.
  induction o as [|[k0 v0] o IH]; simpl; [reflexivity|].
  destruct (string_eqb k0 k).
  - now intros [= ->].
  - intros H. now rewrite IH.
Qed.

Lemma length_obj_replace o k v : List.length (obj_replace o k v) = List.length o.
Proof.
  induction o as [|[k0 v0] o IH]; simpl; [reflexivity|].
  destruct (string_eqb k0 k); simpl; now rewrite ?IH.
Qed.

Lemma length_obj_insert_index o i k v :
  List.length (obj_insert_index o i k v) = S (List.length o).
Proof.
  induction o as [|[k0 v0] o IH]; simpl; [reflexivity|].
  destruct (array_index k0) as [j|]; [destruct (j <? i)|]; simpl; now rewrite ?IH.
Qed.

Lemma length_obj_set o k v :
  List.length (obj_set o k v)
  = if has_key o k then List.length o else S (List.length o).
Proof.
  unfold obj_set. destruct (has_key o k).
  - apply length_obj_replace.
  - destruct (array_index k).
    + apply length_obj_insert_index.
    + rewrite length_app. simpl. lia.
Qed.

End ObjectFrame.

(** ** An array-index key is the decimal numeral of its value *)

Lemma is_digit_cases c :
  is_digit c = true ->
  c = 48 \/ c = 49 \/ c = 50 \/ c = 51 \/ c = 52 \/ c = 53 \/ c = 54 \/ c = 55
  \/ c = 56 \/ c = 57.
Proof.
  unfold is_digit. intros [H1%N.leb_le H2%N.leb_le]%andb_true_iff. lia.
Qed.

Lemma uint_chars_digit_prefix s :
  forallb is_digit s = true -> uint_chars (digit_prefix s) = s.
Proof.
  induction s as [|c s IH]; [reflexivity|]. cbn [forallb].
  intros [Hc Hs]%andb_true_iff. specialize (IH Hs).
  destruct (is_digit_cases c Hc) as [->|[->|[->|[->|[->|[->|[->|[->|[->| ->]]]]]]]]];
    cbn [digit_prefix uint_chars]; now rewrite IH.
Qed.

Lemma unorm_digit_prefix c s :
  is_digit c = true -> c <> 48 ->
  unorm (digit_prefix (c :: s)) = digit_prefix (c :: s).
Proof.
  intros Hc Hne.
  destruct (is_digit_cases c Hc) as [->|[->|[->|[->|[->|[->|[->|[->|[->| ->]]]]]]]]];
    try reflexivity. now destruct Hne.
Qed.

Lemma array_index_cons c k :
  c <> 48 ->
  array_index (c :: k) =
  if forallb is_digit (c :: k)
  then let n := N.of_uint (digit_prefix (c :: k)) in
       if n <=? 4294967294 then Some n else None
  else None.
Proof.
  intros Hne. unfold array_index. destruct c as [|p]; [reflexivity|].
  do 7 (try destruct p as [p|p|]); try reflexivity. now destruct Hne.
Qed.

Lemma array_index_canonical k n :
  array_index k = Some n -> k = uint_chars (N.to_uint n).
Proof.
  destruct k as [|c k]; [discriminate|].
  destruct (N.eqb_spec c 48) as [->|Hne].
  - destruct k; [|discriminate]. now intros [= <-].
  - rewrite array_index_cons by assumption.
    destruct (forallb is_digit (c :: k)) eqn:Hd; [|discriminate]. cbv zeta.
    pose proof (uint_chars_digit_prefix _ Hd) as Hchars.
    assert (Hnorm : unorm (digit_prefix (c :: k)) = digit_prefix (c :: k)).
    { apply unorm_digit_prefix; [|assumption]. cbn [forallb] in Hd.
      now apply andb_true_iff in Hd. }
    remember (digit_prefix (c :: k)) as u eqn:Hu. clear Hu.
    destruct (N.of_uint u <=? 4294967294); [|discriminate].
    intros [= <-]. now rewrite DecimalN.Unsigned.to_of, Hnorm.
Qed.

(** Two keys that denote the same array index are the same key. *)
Lemma array_index_inj k k' n :
  array_index k = Some n -> array_index k' = Some n -> k = k'.
Proof.
  intros H%array_index_canonical H'%array_index_canonical. congruence.
Qed.

(** ** Writing a property keeps the store an object *)

Section ObjectInvariant.

Context {V : Type}.
Implicit Types (o : object V) (k : jsstring) (v : V).

Lemma keys_unique_replace o k v : keys_unique (obj_replace o k v) = keys_unique o.
Proof.
  induction o as [|[k0 v0] o IH]; simpl; [reflexivity|].
  destruct (string_eqb k0 k); simpl; [reflexivity|].
  now rewrite has_key_replace, IH.
Qed.

Lemma keys_unique_insert_index o i k v :
  has_key o k = false -> keys_unique o = true ->
  keys_unique (obj_insert_index o i k v) = true.
Proof.
  induction o as [|[k0 v0] o IH]; simpl; [reflexivity|].
  destruct (string_eqb k0 k) eqn:E; simpl; [discriminate|].
  intros Hk [Hk0 Hu]%andb_true_iff.
  destruct (array_index k0) as [j|]; [destruct (j <? i)|]; simpl.
  - rewrite has_key_insert_index, (string_eqb_sym k k0), E. simpl.
    rewrite Hk0. now apply IH.
  - rewrite E, Hk, Hk0, Hu. reflexivity.
  - rewrite E, Hk, Hk0, Hu. reflexivity.
Qed.

Lemma keys_unique_app_new o k v :
  has_key o k = false -> keys_unique o = true -> keys_unique (o ++ [(k, v)]) = true.
Proof.
  induction o as [|[k0 v0] o IH]; simpl; [reflexivity|].
  destruct (string_eqb k0 k) eqn:E; simpl; [discriminate|].
  intros Hk [Hk0 Hu]%andb_true_iff.
  rewrite has_key_app, negb_orb, Hk0. simpl.
  rewrite (string_eqb_sym k k0), E. simpl. now apply IH.
Qed.

Lemma keys_unique_set o k v : keys_unique o = true -> keys_unique (obj_set o k v) = true.
Proof.
  intros Hu. unfold obj_set. destruct (has_key o k) eqn:Hk.
  - now rewrite keys_unique_replace.
  - destruct (array_index k).
    + now apply keys_unique_insert_index.
    + now apply keys_unique_app_new.
Qed.

Lemma no_index_key_replace o k v : no_index_key (obj_replace o k v) = no_index_key o.
Proof.
  unfold no_index_key. induction o as [|[k0 v0] o IH]; simpl; [reflexivity|].
  destruct (string_eqb k0 k); simpl; now rewrite ?IH.
Qed.

Lemma index_ordered_replace o k v : forall above,
  index_ordered (obj_replace o k v) above = index_ordered o above.
Proof.
  induction o as [|[k0 v0] o IH]; intros above; simpl; [reflexivity|].
  destruct (string_eqb k0 k); simpl; [reflexivity|].
  destruct (array_index k0); [now rewrite IH|apply no_index_key_replace].
Qed.

Lemma index_ordered_insert_index o i k v : forall above,
  array_index k = Some i ->
  has_key o k = false ->
  index_ordered o above = true ->
  (forall b, above = Some b -> b < i) ->
  index_ordered (obj_insert_index o i k v) above = true.
Proof.
  induction o as [|[k0 v0] o IH]; intros above Hi Hk Hord Habove.
  - simpl. rewrite Hi. rewrite andb_true_r.
    destruct above as [b|]; [|reflexivity]. apply N.ltb_lt. now apply Habove.
  - simpl in Hk, Hord |- *.
    destruct (string_eqb_spec k0 k) as [->|Hne]; [discriminate|]. simpl in Hk.
    assert (Hhead : match above with
                    | Some b => b <? i
                    | None => true
                    end = true).
    { destruct above as [b|]; [|reflexivity]. apply N.ltb_lt. now apply Habove. }
    destruct (array_index k0) as [j|] eqn:Hj.
    + apply andb_true_iff in Hord as [Hb Hord].
      destruct (N.ltb_spec j i) as [Hlt|Hge]; simpl; rewrite ?Hj, ?Hi.
      * rewrite Hb. simpl. apply IH; auto. now intros b [= <-].
      * assert (j <> i) by (intros ->; apply Hne; eapply array_index_inj; eassumption).
        rewrite Hhead. simpl.
        destruct (N.ltb_spec i j); [|lia]. simpl. exact Hord.
    + simpl. rewrite Hi, Hhead, Hj. simpl. exact Hord.
Qed.

Lemma no_index_key_app_new o k v :
  array_index k = None -> no_index_key o = true -> no_index_key (o ++ [(k, v)]) = true.
Proof.
  intros Hk Ho. unfold no_index_key in *. rewrite forallb_app, Ho. simpl.
  now rewrite Hk.
Qed.

Lemma index_ordered_app_new o k v : forall above,
  array_index k = None ->
  index_ordered o above = true -> index_ordered (o ++ [(k, v)]) above = true.
Proof.
  induction o as [|[k0 v0] o IH]; intros above Hk; simpl.
  - now rewrite Hk.
  - destruct (array_index k0).
    + intros [Hb Hord]%andb_true_iff. rewrite Hb. simpl. now apply IH.
    + now apply no_index_key_app_new.
Qed.

(** [o[k] = v] keeps the keys unique and in the order of an object. *)
Lemma obj_wf_set o k v : obj_wf o = true -> obj_wf (obj_set o k v) = true.
Proof.
  unfold obj_wf. intros [Hu Hord]%andb_true_iff.
  rewrite keys_unique_set by assumption. simpl.
  unfold obj_set. destruct (has_key o k) eqn:Hk.
  - now rewrite index_ordered_replace.
  - destruct (array_index k) as [i|] eqn:Hi.
    + apply index_ordered_insert_index; auto. discriminate.
    + now apply index_ordered_app_new.
Qed.

End ObjectInvariant.

Lemma wf_entries_set (o : Notes) k v :
  wf_entries o = true -> wf_string k = true -> wf_string v = true ->
  wf_entries (obj_set o k v) = true.
Proof.
  unfold wf_entries. intros Ho Hk Hv.
  assert (Hkv : wf_string k && wf_string v = true) by now rewrite Hk, Hv.
  unfold obj_set. destruct (has_key o k).
  - clear Hkv. induction o as [|[k0 v0] o IH]; simpl in *; [reflexivity|].
    apply andb_true_iff in Ho as [[Hk0 Hv0]%andb_true_iff Ho].
    destruct (string_eqb k0 k); simpl.
    + now rewrite Hk0, Hv, Ho.
    + now rewrite Hk0, Hv0, IH.
  - destruct (array_index k) as [i|].
    + induction o as [|[k0 v0] o IH]; simpl in *; [now rewrite Hkv|].
      apply andb_true_iff in Ho as [Hkv0 Ho].
      destruct (array_index k0) as [j|]; [destruct (j <? i)|]; simpl;
        rewrite ?Hkv, ?Hkv0, ?Ho, ?IH; auto.
    + rewrite forallb_app, Ho. simpl. now rewrite Hkv.
Qed.

Lemma wf_string_noteKey filePath line :
  wf_string filePath = true -> wf_string (noteKey filePath line) = true.
Proof.
  intros Hf. unfold noteKey. rewrite !wf_string_app, Hf. simpl.
  apply ascii_wf, Number_toString_ascii.
Qed.

(** ** What [JSON.parse] returns for an object is an object *)

Lemma parse_members_object fuel : forall s acc v r,
  parse_members fuel s acc = Some (v, r) ->
  obj_wf acc = true ->
  exists o, v = JObject o /\ obj_wf o = true.
Proof.
  induction fuel as [|fuel IH]; intros s acc v r; [discriminate|].
  rewrite parse_members_S.
  destruct (next_is 34 (skip_ws s)) as [r0|]; [|discriminate].
  destruct (parse_string r0) as [[k r1]|]; [|discriminate].
  destruct (next_is 58 (skip_ws r1)) as [r2|]; [|discriminate].
  destruct (parse_value fuel r2) as [[v' r3]|]; [|discriminate]. cbv zeta.
  destruct (skip_ws r3) as [|c r4]; [discriminate|].
  intros H Hacc. pose proof (obj_wf_set acc k v' Hacc) as Hacc'.
  destruct (c =? 44); [now apply IH in H|].
  destruct (c =? 125); [|discriminate].
  injection H as <- <-. eexists; split; [reflexivity|assumption].
Qed.

Lemma parse_elements_array fuel : forall s acc v r,
  parse_elements fuel s acc = Some (v, r) -> exists l, v = JArray l.
Proof.
  induction fuel as [|fuel IH]; intros s acc v r; [discriminate|].
  rewrite parse_elements_S.
  destruct (parse_value fuel s) as [[v' r1]|]; [|discriminate].
  destruct (skip_ws r1) as [|c r2]; [discriminate|].
  destruct (c =? 44); [apply IH|].
  destruct (c =? 93); [|discriminate].
  intros [= <- <-]. eexists; reflexivity.
Qed.

Lemma parse_value_object_wf fuel s props r :
  parse_value fuel s = Some (JObject props, r) -> obj_wf props = true.
Proof.
  destruct fuel as [|fuel]; [discriminate|]. rewrite parse_value_S.
  destruct (skip_ws s) as [|c s']; [discriminate|].
  destruct (c =? 123).
  { destruct (next_is 125 (skip_ws s')).
    - now intros [= <- <-].
    - intros H. apply parse_members_object in H as (o & [= ->] & Ho); auto. }
  destruct (c =? 91).
  { destruct (next_is 93 (skip_ws s')); [discriminate|].
    intros H. apply parse_elements_array in H as (l & Hl). discriminate. }
  destruct (c =? 34).
  { destruct (parse_string s') as [[x r']|]; discriminate. }
  destruct ((c =? 45) || is_digit c).
  { destruct (parse_number (c :: s')) as [[x r']|]; discriminate. }
  unfold parse_literal.
  destruct (strip_prefix (str "true") (c :: s')); [discriminate|].
  destruct (strip_prefix (str "false") (c :: s')); [discriminate|].
  destruct (strip_prefix (str "null") (c :: s')); discriminate.
Qed.

Lemma strings_of_properties_inv props : forall o,
  strings_of_properties props = Some o -> props = JSON_properties o.
Proof.
  induction props as [|[k v] props IH]; intros o; simpl.
  - now intros [= <-].
  - destruct v; try discriminate.
    destruct (strings_of_properties props) as [o'|]; [|discriminate].
    intros [= <-]. simpl. now rewrite (IH o' eq_refl).
Qed.

(** The notes that a JSON text gives are an object: keys that the text
    repeats are one property. *)
Lemma parsed_notes_wf text v (o : Notes) :
  JSON_parse text = Some v -> notes_of_JSON v = Some o -> obj_wf o = true.
Proof.
  unfold JSON_parse.
  destruct (parse_value _ text) as [[v' r]|] eqn:Hparse; [|discriminate].
  destruct (skip_ws r); [|discriminate]. intros [= <-].
  destruct v' as [| | | | |props]; try discriminate. cbn [notes_of_JSON].
  intros ->%strings_of_properties_inv. rewrite <- obj_wf_JSON_properties.
  eapply parse_value_object_wf; eassumption.
Qed.

(** ** The ways [loadNotes] and [saveNotes] end *)

Lemma loadNotes_cases (w : World) :
  loadNotes w = (Normal tt, w)
  \/ loadNotes w = (Normal tt, mk_world (notes w) (disk w) (trace w ++ [load_error]))
  \/ (exists content v o,
        file_content (disk w) = Some content
        /\ JSON_parse (utf8_decode content) = Some v
        /\ notes_of_JSON v = Some o
        /\ loadNotes w = (Normal tt, mk_world o (disk w) (trace w)))
  \/ (exists content v,
        file_content (disk w) = Some content
        /\ JSON_parse (utf8_decode content) = Some v
        /\ notes_of_JSON v = None
        /\ loadNotes w = (OffType v, w)).
Proof.
  destruct (file_content (disk w)) as [content|] eqn:Hc.
  - rewrite (loadNotes_read w content Hc).
    destruct (JSON_parse (utf8_decode content)) as [v|] eqn:Hp; [|right; left; reflexivity].
    destruct (notes_of_JSON v) as [o'|] eqn:Hn.
    + right; right; left. exists content, v, o'. repeat split; assumption.
    + right; right; right. exists content, v. repeat split; assumption.
  - destruct (file_exists (disk w)) eqn:He.
    + right; left. now apply loadNotes_unreadable.
    + left. now apply loadNotes_missing.
Qed.

Lemma saveNotes_writable (w : World) :
  writable (disk w) = true ->
  exists read_ok,
    saveNotes w =
    (Normal tt,
     mk_world (notes w)
       (File (utf8_encode (JSON_stringify_notes (notes w))) read_ok true) (trace w)).
Proof.
  destruct w as [o d t]. cbn [disk notes trace].
  destruct d as [[|]|[|]|content read_ok [|]| |[kept|]|kept|content read_ok kept]; try discriminate;
    eexists; reflexivity.
Qed.

Lemma saveNotes_refused (w : World) :
  write_refused (disk w) = true ->
  saveNotes w = (Normal tt, mk_world (notes w) (disk w) (trace w ++ [save_error])).
Proof.
  destruct w as [o d t]. cbn [disk notes trace].
  destruct d as [[|]|[|]|content read_ok [|]| |[kept|]|kept|content read_ok kept];
    try discriminate; reflexivity.
Qed.

Lemma saveNotes_not_writable (w : World) :
  writable (disk w) = false ->
  exists d,
    saveNotes w = (Normal tt, mk_world (notes w) d (trace w ++ [save_error]))
    /\ (d = disk w
        \/ (disk w = NoDirectoryFailing None /\ d = NoFile false)
        \/ exists read_ok kept,
             d = FileFailing
                   (firstn kept (utf8_encode (JSON_stringify_notes (notes w))))
                   read_ok kept).
Proof.
  destruct w as [o d t]. cbn [disk notes trace].
  destruct d as [[|]|[|]|content read_ok [|]| |[kept|]|kept|content read_ok kept];
    try discriminate; intros _; eexists; (split; [reflexivity|]);
    try (now left); try (right; left; now split);
    right; right; do 2 eexists; reflexivity.
Qed.

(** ** Keys and the pairs they are built from *)

Lemma colon_free_split (a : jsstring) : forall a' b b',
  forallb (fun c => negb (c =? 58)) a = true ->
  forallb (fun c => negb (c =? 58)) a' = true ->
  a ++ 58 :: b = a' ++ 58 :: b' -> a = a' /\ b = b'.
Proof.
  induction a as [|x a IH]; intros [|x' a'] b b' Ha Ha'; cbn [app forallb] in *.
  - now intros [= <-].
  - intros [= <- _]. now apply andb_true_iff in Ha' as [[=] _].
  - intros [= -> _]. now apply andb_true_iff in Ha as [[=] _].
  - intros [= <- H]. apply andb_true_iff in Ha as [_ Ha].
    apply andb_true_iff in Ha' as [_ Ha'].
    destruct (IH a' b b' Ha Ha' H) as [-> ->]. now split.
Qed.

Lemma forallb_rev {A} (P : A -> bool) l : forallb P (List.rev l) = forallb P l.
Proof.
  induction l as [|x l IH]; [reflexivity|]. cbn [List.rev forallb].
  rewrite forallb_app, IH. simpl. rewrite andb_true_r. apply andb_comm.
Qed.

Lemma Number_toString_inj n n' : Number_toString n = Number_toString n' -> n = n'.
Proof.
  intros H.
  pose proof (parseInt_Number_toString n [] eq_refl) as Hn.
  pose proof (parseInt_Number_toString n' [] eq_refl) as Hn'.
  rewrite H in Hn. congruence.
Qed.

Lemma noteKey_inj filePath line filePath' line' :
  noteKey filePath line = noteKey filePath' line' ->
  filePath = filePath' /\ line = line'.
Proof.
  unfold noteKey. change (str "::" ++ ?s) with (58 :: 58 :: s). intros H.
  apply (f_equal (@List.rev N)) in H.
  rewrite !rev_app_distr in H. cbn [List.rev] in H.
  repeat rewrite <- app_assoc in H. cbn [app] in H.
  apply colon_free_split in H as [Hd H];
    try (rewrite forallb_rev; apply Number_toString_no_colon).
  injection H as H. apply (f_equal (@List.rev N)) in H, Hd.
  rewrite !rev_involutive in H, Hd. split; [exact H|].
  now apply Number_toString_inj.
Qed.

Lemma join_cons sep x l :
  l <> [] -> join sep (x :: l) = x ++ sep ++ join sep l.
Proof. destruct l; [contradiction|reflexivity]. Qed.

Lemma join_split_from s : forall cur,
  join (str "::") (split_from s cur) = List.rev cur ++ s.
Proof.
  induction s as [| c | c c' r IHr IHc'] using list_pair_ind; intros cur.
  - cbn [split_from join]. now rewrite app_nil_r.
  - reflexivity.
  - rewrite split_from_cons.
    destruct (N.eqb_spec c 58) as [->|Hc]; [destruct (N.eqb_spec c' 58) as [->|Hc']|];
      cbn [andb].
    + rewrite join_cons by apply split_from_nonempty. now rewrite IHr.
    + rewrite IHc'. cbn [List.rev]. now rewrite <- app_assoc.
    + rewrite IHc'. cbn [List.rev]. now rewrite <- app_assoc.
Qed.

(** ** The entries of a store *)

Section Entries.

Context {V : Type}.
Implicit Types (o : object V) (k : jsstring) (v : V).

Lemma obj_get_In o k v : obj_get o k = Some v -> In (k, v) o.
Proof.
  induction o as [|[k0 v0] o IH]; simpl; [discriminate|].
  destruct (string_eqb_spec k0 k) as [->|]; [intros [= ->]; now left|].
  intros H. right. now apply IH.
Qed.

Lemma obj_get_absent o k : obj_get o k = None -> has_key o k = false.
Proof.
  induction o as [|[k0 v0] o IH]; simpl; [reflexivity|].
  destruct (string_eqb k0 k); [discriminate|exact IH].
Qed.

End Entries.

(** ** What the renderer sets *)

Section RenderFacts.

Variable toLowerCase : jsstring -> jsstring.

Lemma collect_decorations_eq editor entries : forall decorations,
  collect_decorations toLowerCase editor entries decorations
  = Normal (decorations ++ decorations_of toLowerCase editor entries).
Proof.
  induction entries as [|entry entries IH]; intros decorations.
  - cbn. now rewrite app_nil_r.
  - cbn [collect_decorations decorations_of flat_map].
    destruct (decoration_of_entry_returns toLowerCase editor entry) as [[d|] ->].
    + rewrite IH. unfold decorations_of. now rewrite <- app_assoc.
    + rewrite IH. reflexivity.
Qed.

Lemma updateDecorations_run editor (w : World) :
  updateDecorations toLowerCase editor w =
  (Normal tt,
   mk_world (notes w) (disk w)
     (trace w ++ [SetDecorations editor (decorations_of toLowerCase editor (notes w))])).
Proof. now rewrite updateDecorations_eq, collect_decorations_eq. Qed.

Lemma forEach_updateDecorations_run editors : forall w : World,
  forEach_updateDecorations toLowerCase editors w =
  (Normal tt,
   mk_world (notes w) (disk w)
     (trace w ++ map (fun e => SetDecorations e
                                 (decorations_of toLowerCase e (notes w))) editors)).
Proof.
  induction editors as [|e editors IH]; intros w.
  - cbn. rewrite app_nil_r. now destruct w.
  - cbn [forEach_updateDecorations map]. unfold bind at 1.
    rewrite updateDecorations_run, IH. cbn [notes disk trace].
    now rewrite <- app_assoc.
Qed.

Lemma In_decorations_of editor entries d :
  In d (decorations_of toLowerCase editor entries) <->
  exists entry, In entry entries
                /\ decoration_of_entry toLowerCase editor entry = Normal (Some d).
Proof.
  unfold decorations_of. rewrite in_flat_map. split.
  - intros (entry & Hin & Hd). exists entry. split; [assumption|].
    destruct (decoration_of_entry toLowerCase editor entry) as [[d'|]| |];
      try contradiction.
    destruct Hd as [->|[]]. reflexivity.
  - intros (entry & Hin & Hd). exists entry. split; [assumption|].
    rewrite Hd. now left.
Qed.

Lemma length_decorations_of editor entries :
  (List.length (decorations_of toLowerCase editor entries) <= List.length entries)%nat.
Proof.
  induction entries as [|entry entries IH]; [reflexivity|].
  cbn [decorations_of flat_map]. rewrite length_app.
  fold (decorations_of toLowerCase editor entries).
  destruct (decoration_of_entry toLowerCase editor entry) as [[d|]| |];
    cbn [List.length]; lia.
Qed.

(** The decoration of an entry that the extension built, in a view that
    matches its path and has its line. *)
Lemma decoration_of_built_entry editor filePath line note :
  no_separator filePath = true ->
  normalize toLowerCase filePath = normalize toLowerCase (fsPath editor) ->
  (0 <= line < lineCount editor)%Z ->
  exists markdown,
    note_markdown filePath line note = Some markdown
    /\ decoration_of_entry toLowerCase editor (noteKey filePath line, note)
       = Normal (Some (mk_decoration line markdown)).
Proof.
  intros Hsep Hnorm [H0 H1].
  destruct (key_parts_noteKey filePath line Hsep) as (Hp & _ & Hl).
  destruct (note_markdown_defined filePath line note) as [m Hm].
  exists m. split; [exact Hm|].
  rewrite decoration_of_entry_eq, Hp, Hl, Hnorm, string_eqb_refl, Hm.
  apply Z.leb_le in H0. apply Z.ltb_lt in H1. now rewrite H0, H1.
Qed.

End RenderFacts.

Lemma provideHover_eq filePath line (w : World) :
  provideHover filePath line w =
  (match obj_get (notes w) (noteKey filePath line) with
   | Some note =>
       if truthy note then
         match note_markdown filePath line note with
         | Some markdown => Normal (Some markdown)
         | None => Throw URIError
         end
       else Normal None
   | None => Normal None
   end, w).
Proof.
  cbv [provideHover bind get_notes ret throw].
  destruct (obj_get (notes w) (noteKey filePath line)) as [note|]; [|reflexivity].
  destruct (truthy note); [|reflexivity].
  now destruct (note_markdown filePath line note).
Qed.

Lemma addNote_notes toLowerCase editor input (w : World) :
  notes (snd (addNote toLowerCase editor input w)) =
  match editor, input with
  | Some e, Some note =>
      if truthy note
      then obj_set (notes w) (noteKey (fsPath e) (active_line e)) note
      else notes w
  | _, _ => notes w
  end.
Proof.
  destruct editor as [e|]; [|reflexivity].
  destruct input as [note|]; [|reflexivity].
  destruct (truthy note) eqn:Hnote; [|now destruct note].
  assert (Hne : note <> []) by (intros ->; discriminate).
  destruct (addNote_text toLowerCase e note w Hne) as (d & t & ds & _ & _ & H).
  change (@Some jsstring note) with (@Some (list N) note).
  rewrite H. reflexivity.
Qed.

(** A saved store is loaded as it was saved. *)
Lemma loadNotes_saved (o stale : Notes) write_ok t :
  wf_notes o = true ->
  loadNotes (mk_world stale (File (utf8_encode (JSON_stringify_notes o)) true write_ok) t)
  = (Normal tt,
     mk_world o (File (utf8_encode (JSON_stringify_notes o)) true write_ok) t).
Proof.
  intros [Hobj Hstrings]%andb_true_iff.
  destruct (parse_stringify_notes o Hobj) as [Hparse Hnotes].
  rewrite loadNotes_readable, read_back_stringify, Hparse by assumption.
  now rewrite Hnotes.
Qed.

(** ** Each handler, as a change of the state *)

Lemma editNote_run toLowerCase args input visible (w : World) :
  exists d t,
    editNote toLowerCase args input visible w =
    (Normal tt,
     mk_world
       match args, input with
       | Some (mk_args (Some filePath) (Some line)), Some newNote =>
           obj_set (notes w) (noteKey filePath line) newNote
       | _, _ => notes w
       end d t).
Proof.
  destruct args as [[[f|] [l|]]|];
    try (do 2 eexists; apply editNote_invalid; exact I).
  destruct input as [newNote|].
  - destruct (editNote_text toLowerCase f l newNote visible w) as (d & t & _ & H).
    destruct (find _ visible).
    + destruct H as (ds & _ & H). do 2 eexists. exact H.
    + do 2 eexists. exact H.
  - do 2 eexists. apply editNote_cancelled.
Qed.

Lemma addNote_run toLowerCase editor input (w : World) :
  exists d t,
    addNote toLowerCase editor input w =
    (Normal tt, mk_world (notes (snd (addNote toLowerCase editor input w))) d t).
Proof.
  destruct editor as [e|]; [|destruct w; do 2 eexists; reflexivity].
  destruct input as [note|].
  - destruct (truthy note) eqn:Hnote.
    + assert (Hne : note <> []) by (intros ->; discriminate).
      destruct (addNote_text toLowerCase e note w Hne) as (d & t & ds & _ & _ & H).
      change (@Some jsstring note) with (@Some (list N) note).
      rewrite H. do 2 eexists. reflexivity.
    + destruct note; [|discriminate].
      rewrite addNote_no_text by (now right). do 2 eexists. reflexivity.
  - rewrite addNote_no_text by (now left). do 2 eexists. reflexivity.
Qed.

Lemma provideHover_state filePath line (w : World) :
  snd (provideHover filePath line w) = w.
Proof. now rewrite provideHover_eq. Qed.

Lemma onDidChangeActiveTextEditor_run toLowerCase editor (w : World) :
  onDidChangeActiveTextEditor toLowerCase editor w =
  (Normal tt,
   mk_world (notes w) (disk w)
     (trace w ++ match editor with
                 | Some e => [SetDecorations e (decorations_of toLowerCase e (notes w))]
                 | None => []
                 end)).
Proof.
  destruct editor as [e|]; cbn [onDidChangeActiveTextEditor].
  - apply updateDecorations_run.
  - rewrite app_nil_r. now destruct w.
Qed.

Lemma activate_run toLowerCase visible (w w1 : World) :
  loadNotes w = (Normal tt, w1) ->
  activate toLowerCase visible w =
  (Normal tt,
   mk_world (notes w1) (disk w1)
     (trace w1 ++ map (fun e => SetDecorations e
                                  (decorations_of toLowerCase e (notes w1))) visible)).
Proof.
  intros Hload. unfold activate, bind. rewrite Hload.
  apply forEach_updateDecorations_run.
Qed.

Lemma activate_loads toLowerCase visible (w w' : World) :
  activate toLowerCase visible w = (Normal tt, w') ->
  exists w1, loadNotes w = (Normal tt, w1)
             /\ notes w' = notes w1 /\ disk w' = disk w1
             /\ trace w' = trace w1
                  ++ map (fun e => SetDecorations e
                                     (decorations_of toLowerCase e (notes w1))) visible.
Proof.
  intros H. destruct (loadNotes w) as [[[]| |] w1] eqn:Hload.
  - rewrite (activate_run _ _ _ _ Hload) in H. injection H as <-.
    exists w1. repeat split.
  - unfold activate, bind in H. rewrite Hload in H. discriminate.
  - unfold activate, bind in H. rewrite Hload in H. discriminate.
Qed.

Lemma loadNotes_declared (w : World) :
  declared_type (disk w) = true ->
  exists w1,
    loadNotes w = (Normal tt, w1)
    /\ disk w1 = disk w
    /\ (trace w1 = trace w \/ trace w1 = trace w ++ [load_error]).
Proof.
  unfold declared_type. intros Hd.
  destruct (loadNotes_cases w)
    as [H|[H|[(c & v & o & _ & _ & _ & H)|(c & v & Hc & Hp & Hn & _)]]].
  - exists w. split; [exact H|]. split; [reflexivity|now left].
  - eexists. split; [exact H|]. split; [reflexivity|now right].
  - eexists. split; [exact H|]. split; [reflexivity|now left].
  - rewrite Hc, Hp, Hn in Hd. discriminate.
Qed.

Lemma loadNotes_wf (w w' : World) r :
  loadNotes w = (r, w') -> obj_wf (notes w) = true -> obj_wf (notes w') = true.
Proof.
  intros Hload Hwf.
  destruct (loadNotes_cases w)
    as [H|[H|[(c & v & o & _ & Hp & Hn & H)|(c & v & _ & _ & _ & H)]]];
    rewrite H in Hload; injection Hload as <- <-; try assumption.
  cbn [notes]. eapply parsed_notes_wf; eassumption.
Qed.

Lemma decorations_of_on_a_line toLowerCase editor entries :
  Forall (on_a_line editor) (decorations_of toLowerCase editor entries).
Proof.
  apply Forall_forall. intros d (entry & _ & Hd)%In_decorations_of.
  destruct entry as [key note]. rewrite decoration_of_entry_eq in Hd.
  destruct (string_eqb _ _); [|discriminate].
  destruct (parseInt (key_line key)) as [line|]; [|discriminate].
  destruct (Z.leb_spec 0 line); destruct (Z.ltb_spec line (lineCount editor));
    cbn [andb] in Hd; try discriminate.
  destruct (note_markdown (key_path key) line note); [|discriminate].
  injection Hd as <-. unfold on_a_line. cbn [range_line]. lia.
Qed.

Lemma saveNotes_trace (w : World) :
  exists d t,
    saveNotes w = (Normal tt, mk_world (notes w) d t)
    /\ (t = trace w \/ t = trace w ++ [save_error]).
Proof.
  destruct (writable (disk w)) eqn:Hw.
  - destruct (saveNotes_writable w Hw) as [r H]. do 2 eexists. split; [exact H|now left].
  - destruct (saveNotes_not_writable w Hw) as (d & H & _).
    do 2 eexists. split; [exact H|now right].
Qed.

Lemma within_the_view_saved (w : World) d t :
  saveNotes w = (Normal tt, mk_world (notes w) d t) ->
  Forall within_the_view (trace w) -> Forall within_the_view t.
Proof.
  intros Hsave Hw. destruct (saveNotes_trace w) as (d' & t' & H & Ht).
  rewrite H in Hsave. injection Hsave as _ <-.
  destruct Ht as [->| ->]; [assumption|].
  apply Forall_app. split; [assumption|]. repeat constructor.
Qed.

Lemma collected_on_a_line toLowerCase editor entries ds :
  collect_decorations toLowerCase editor entries [] = Normal ds ->
  Forall (on_a_line editor) ds.
Proof.
  rewrite collect_decorations_eq. intros [= <-]. apply decorations_of_on_a_line.
Qed.

Lemma step_within_the_view toLowerCase (w w' : World) :
  step toLowerCase w w' ->
  Forall within_the_view (trace w) -> Forall within_the_view (trace w').
Proof.
  intros Hstep Hw. destruct Hstep as [w editor input|w args input visible
                                     |w filePath line|w editor|w d].
  - destruct editor as [e|]; [|assumption].
    assert (Hasked : Forall within_the_view
                       (trace w ++ [ShowInputBox (str "Enter your note") None])).
    { apply Forall_app. split; [assumption|]. repeat constructor. }
    destruct input as [note|]; [|now rewrite addNote_no_text by (now left)].
    destruct (truthy note) eqn:Hnote.
    + assert (Hne : note <> []) by (intros ->; discriminate).
      destruct (addNote_text toLowerCase e note w Hne) as (d & t & ds & Hs & Hc & H).
      change (@Some jsstring note) with (@Some (list N) note). rewrite H.
      cbn [snd trace]. apply Forall_app. split.
      * apply (within_the_view_saved _ _ _ Hs). exact Hasked.
      * constructor; [|repeat constructor].
        cbn [within_the_view]. eapply collected_on_a_line. exact Hc.
    + destruct note; [|discriminate]. now rewrite addNote_no_text by (now right).
  - destruct args as [[[f|] [l|]]|];
      try (rewrite editNote_invalid by exact I; cbn [snd trace];
           apply Forall_app; split; [assumption|repeat constructor]).
    assert (Hasked : Forall within_the_view
                       (trace w ++ [ShowInputBox (str "Edit your note")
                                      (Some (prefill (notes w) (noteKey f l)))])).
    { apply Forall_app. split; [assumption|]. repeat constructor. }
    destruct input as [newNote|]; [|now rewrite editNote_cancelled].
    destruct (editNote_text toLowerCase f l newNote visible w) as (d & t & Hs & H).
    pose proof (within_the_view_saved _ _ _ Hs Hasked) as Ht.
    destruct (find _ visible) as [e|].
    + destruct H as (ds & Hc & ->). cbn [snd trace]. apply Forall_app. split; [exact Ht|].
      constructor; [|repeat constructor].
      cbn [within_the_view]. eapply collected_on_a_line. exact Hc.
    + rewrite H. cbn [snd trace]. apply Forall_app. split; [exact Ht|repeat constructor].
  - now rewrite provideHover_state.
  - rewrite onDidChangeActiveTextEditor_run. cbn [snd trace].
    apply Forall_app. split; [assumption|].
    destruct editor as [e|]; [|constructor].
    constructor; [|constructor]. apply decorations_of_on_a_line.
  - assumption.
Qed.

Lemma step_wf toLowerCase (w w' : World) :
  step toLowerCase w w' -> obj_wf (notes w) = true -> obj_wf (notes w') = true.
Proof.
  intros Hstep Hw. destruct Hstep as [w editor input|w args input visible
                                     |w filePath line|w editor|w d].
  - rewrite addNote_notes. destruct editor as [e|]; [|assumption].
    destruct input as [note|]; [|assumption].
    destruct (truthy note); [now apply obj_wf_set|assumption].
  - destruct (editNote_run toLowerCase args input visible w) as (d & t & ->).
    cbn [snd notes].
    destruct args as [[[f|] [l|]]|]; try assumption.
    destruct input; [now apply obj_wf_set|assumption].
  - now rewrite provideHover_state.
  - now rewrite onDidChangeActiveTextEditor_run.
  - assumption.
Qed.

Lemma stored_note_is_decorated toLowerCase (w : World) filePath line note view :
  obj_get (notes w) (noteKey filePath line) = Some note ->
  no_separator filePath = true ->
  normalize toLowerCase filePath = normalize toLowerCase (fsPath view) ->
  (0 <= line < lineCount view)%Z ->
  exists markdown,
    note_markdown filePath line note = Some markdown
    /\ In (mk_decoration line markdown) (decorations_of toLowerCase view (notes w)).
Proof.
  intros Hget Hsep Hnorm Hline.
  destruct (decoration_of_built_entry toLowerCase view filePath line note Hsep Hnorm Hline)
    as (m & Hm & Hd).
  exists m. split; [exact Hm|]. apply In_decorations_of.
  exists (noteKey filePath line, note). split; [now apply obj_get_In|exact Hd].
Qed.

Lemma saved_store_is_reloaded toLowerCase (o : Notes) d0 t0 visible :
  wf_notes o = true ->
  usable d0 = true ->
  exists d,
    saveNotes (mk_world o d0 t0) = (Normal tt, mk_world o d t0)
    /\ loadNotes (initial_world d) = (Normal tt, mk_world o d [])
    /\ activate toLowerCase visible (initial_world d) =
       (Normal tt,
        mk_world o d
          (map (fun e => SetDecorations e (decorations_of toLowerCase e o)) visible)).
Proof.
  intros Hwf Hd. eexists. split; [now rewrite saveNotes_usable|].
  assert (Hload : loadNotes
                    (initial_world
                       (File (utf8_encode (JSON_stringify_notes o)) true true))
                  = (Normal tt,
                     mk_world o
                       (File (utf8_encode (JSON_stringify_notes o)) true true) [])).
  { unfold initial_world. now apply loadNotes_saved. }
  split; [exact Hload|]. now rewrite (activate_run _ _ _ _ Hload).
Qed.

Lemma wf_notes_set (o : Notes) filePath line note :
  wf_notes o = true -> wf_string filePath = true -> wf_string note = true ->
  wf_notes (obj_set o (noteKey filePath line) note) = true.
Proof.
  unfold wf_notes. fold (wf_entries o).
  fold (wf_entries (obj_set o (noteKey filePath line) note)).
  intros [Hobj He]%andb_true_iff Hf Hn.
  rewrite obj_wf_set by assumption.
  now rewrite wf_entries_set by (assumption || now apply wf_string_noteKey).
Qed.

Lemma saveNotes_effects (w : World) d t :
  saveNotes w = (Normal tt, mk_world (notes w) d t) ->
  let text := utf8_encode (JSON_stringify_notes (notes w)) in
  t = trace w ++ (if writable (disk w) then [] else [save_error])
  /\ (writable (disk w) = true -> exists read_ok, d = File text read_ok true)
  /\ (write_refused (disk w) = true -> d = disk w)
  /\ (writable (disk w) = false ->
      d = disk w
      \/ (disk w = NoDirectoryFailing None /\ d = NoFile false)
      \/ exists read_ok kept, d = FileFailing (firstn kept text) read_ok kept).
Proof.
  intros Hs text. destruct (writable (disk w)) eqn:Hw.
  - destruct (saveNotes_writable w Hw) as [r H]. rewrite H in Hs.
    injection Hs as <- <-. rewrite app_nil_r.
    split; [reflexivity|]. split; [intros _; now exists r|].
    split; [|discriminate].
    intros Hr. destruct (disk w) as [[|]|[|]|c r0 [|]| | | |]; discriminate.
  - destruct (saveNotes_not_writable w Hw) as (d' & H & Hd). rewrite H in Hs.
    injection Hs as <- <-.
    split; [reflexivity|]. split; [discriminate|]. split; [|intros _; exact Hd].
    intros Hr. rewrite (saveNotes_refused w Hr) in H. now injection H as <-.
Qed.

Lemma addNote_effects (toLowerCase : jsstring -> jsstring) (w : World)
    editor (note : jsstring) :
  note <> [] ->
  let w' := snd (addNote toLowerCase (Some editor) (Some note) w) in
  trace w' =
  trace w ++ [ShowInputBox (str "Enter your note") None]
  ++ (if writable (disk w) then [] else [save_error])
  ++ [SetDecorations editor (decorations_of toLowerCase editor (notes w'));
      ShowInformationMessage (str "Note added!")].
Proof.
  intros Hnote w'. unfold w'.
  destruct (addNote_text toLowerCase editor note w Hnote) as (d & t & ds & Hs & Hc & H).
  change (@Some jsstring note) with (@Some (list N) note). rewrite H.
  cbn [snd trace notes]. apply saveNotes_effects in Hs as (-> & _).
  rewrite collect_decorations_eq in Hc. injection Hc as <-.
  cbn [disk trace]. now rewrite <- !app_assoc.
Qed.

Lemma editNote_effects (toLowerCase : jsstring -> jsstring) (w : World)
    filePath line (newNote : jsstring) visible :
  let w' := snd (editNote toLowerCase (Some (mk_args (Some filePath) (Some line)))
                   (Some newNote) visible w) in
  trace w' =
  trace w
  ++ [ShowInputBox (str "Edit your note")
        (Some (prefill (notes w) (noteKey filePath line)))]
  ++ (if writable (disk w) then [] else [save_error])
  ++ match find (fun e => string_eqb (fsPath e) filePath) visible with
     | Some e => [SetDecorations e (decorations_of toLowerCase e (notes w'))]
     | None => []
     end
  ++ [ShowInformationMessage (str "Note updated!")].
Proof.
  intros w'. unfold w'.
  destruct (editNote_text toLowerCase filePath line newNote visible w)
    as (d & t & Hs & H).
  apply saveNotes_effects in Hs as (-> & _). cbn [disk trace] in H.
  destruct (find _ visible) as [e|].
  - destruct H as (ds & Hc & ->). cbn [snd trace notes].
    rewrite collect_decorations_eq in Hc. injection Hc as <-.
    now rewrite <- !app_assoc.
  - rewrite H. cbn [snd trace notes]. now rewrite <- !app_assoc.
Qed.

Lemma addNote_disk (toLowerCase : jsstring -> jsstring) (w : World)
    editor (note : jsstring) :
  note <> [] ->
  let w' := snd (addNote toLowerCase (Some editor) (Some note) w) in
  let text := utf8_encode (JSON_stringify_notes (notes w')) in
  (writable (disk w) = true -> exists read_ok, disk w' = File text read_ok true)
  /\ (write_refused (disk w) = true -> disk w' = disk w)
  /\ (writable (disk w) = false ->
      disk w' = disk w
      \/ (disk w = NoDirectoryFailing None /\ disk w' = NoFile false)
      \/ exists read_ok kept, disk w' = FileFailing (firstn kept text) read_ok kept).
Proof.
  intros Hnote w'. unfold w'.
  destruct (addNote_text toLowerCase editor note w Hnote) as (d & t & ds & Hs & _ & H).
  change (@Some jsstring note) with (@Some (list N) note). rewrite H.
  cbn [snd disk notes]. apply saveNotes_effects in Hs as (_ & Hs). exact Hs.
Qed.

Lemma editNote_disk (toLowerCase : jsstring -> jsstring) (w : World)
    filePath line (newNote : jsstring) visible :
  let w' := snd (editNote toLowerCase (Some (mk_args (Some filePath) (Some line)))
                   (Some newNote) visible w) in
  let text := utf8_encode (JSON_stringify_notes (notes w')) in
  (writable (disk w) = true -> exists read_ok, disk w' = File text read_ok true)
  /\ (write_refused (disk w) = true -> disk w' = disk w)
  /\ (writable (disk w) = false ->
      disk w' = disk w
      \/ (disk w = NoDirectoryFailing None /\ disk w' = NoFile false)
      \/ exists read_ok kept, disk w' = FileFailing (firstn kept text) read_ok kept).
Proof.
  intros w'. unfold w'.
  destruct (editNote_text toLowerCase filePath line newNote visible w)
    as (d & t & Hs & H).
  apply saveNotes_effects in Hs as (_ & Hs). cbn [disk notes] in Hs.
  destruct (find _ visible).
  - destruct H as (ds & _ & ->). cbn [snd disk notes]. exact Hs.
  - rewrite H. cbn [snd disk notes]. exact Hs.
Qed.

(** ** A text that is cut short *)

Lemma skip_ws_app s q c r : skip_ws s = c :: r -> skip_ws (s ++ q) = c :: r ++ q.
Proof.
  induction s as [|x s IH]; [discriminate|]. cbn [skip_ws app].
  destruct (is_JSON_ws x); [exact IH|]. intros [= <- <-]. reflexivity.
Qed.

Lemma skip_ws_suffix s : exists u, s = u ++ skip_ws s.
Proof.
  induction s as [|x s [u IH]]; [now exists []|]. cbn [skip_ws].
  destruct (is_JSON_ws x); [|now exists []].
  exists (x :: u). cbn [app]. now f_equal.
Qed.

Lemma skip_ws_nil_last s d :
  skip_ws s = [] -> s <> [] -> is_JSON_ws (last s d) = true.
Proof.
  induction s as [|x s IH]; [contradiction|]. cbn [skip_ws].
  destruct (is_JSON_ws x) eqn:Hx; [|discriminate].
  intros Hs _. destruct s as [|y s]; [exact Hx|].
  change (last (x :: y :: s) d) with (last (y :: s) d). apply IH; [exact Hs|discriminate].
Qed.

Lemma next_is_eq c s r : next_is c s = Some r -> s = c :: r.
Proof.
  destruct s as [|x s]; [discriminate|]. cbn [next_is].
  destruct (N.eqb_spec x c); [|discriminate]. intros [= <-]. now subst.
Qed.

Lemma next_is_app c s r q : next_is c s = Some r -> next_is c (s ++ q) = Some (r ++ q).
Proof.
  destruct s as [|x s]; [discriminate|]. cbn [next_is app].
  destruct (x =? c); [|discriminate]. now intros [= <-].
Qed.

Lemma next_is_none_app c s q : next_is c s = None -> s <> [] -> next_is c (s ++ q) = None.
Proof.
  destruct s as [|x s]; [contradiction|]. cbn [next_is app].
  now destruct (x =? c).
Qed.

Lemma cons_unit_inv c p x r :
  cons_unit c p = Some (x, r) -> exists x', p = Some (x', r) /\ x = c :: x'.
Proof. destruct p as [[x' r']|]; [intros [= <- <-]; now exists x'|discriminate]. Qed.

Lemma parse_string_app n : forall s x r q,
  (List.length s <= n)%nat ->
  parse_string s = Some (x, r) -> parse_string (s ++ q) = Some (x, r ++ q).
Proof.
  induction n as [|n IH]; intros s x r q Hn.
  - destruct s; [discriminate|cbn [List.length] in Hn; lia].
  - destruct s as [|c s]; [discriminate|]. cbn [parse_string List.length app] in *.
    destruct (c =? 34); [now intros [= <- <-]|].
    destruct (c =? 92).
    + destruct s as [|e s]; [discriminate|]. cbn [app].
      destruct (e =? 117).
      * destruct s as [|h1 [|h2 [|h3 [|h4 s]]]]; try discriminate. cbn [app].
        destruct (hex4 h1 h2 h3 h4); [|discriminate].
        intros (x' & H & ->)%cons_unit_inv.
        apply (IH _ _ _ q) in H; [|cbn [List.length] in *; lia]. now rewrite H.
      * destruct (unescape e); [|discriminate].
        intros (x' & H & ->)%cons_unit_inv.
        apply (IH _ _ _ q) in H; [|cbn [List.length] in *; lia]. now rewrite H.
    + destruct (c <? 32); [discriminate|].
      intros (x' & H & ->)%cons_unit_inv.
      apply (IH _ _ _ q) in H; [|lia]. now rewrite H.
Qed.

Lemma parse_string_suffix n : forall s x r,
  (List.length s <= n)%nat ->
  parse_string s = Some (x, r) -> exists u, s = u ++ r.
Proof.
  induction n as [|n IH]; intros s x r Hn.
  - destruct s; [discriminate|cbn [List.length] in Hn; lia].
  - destruct s as [|c s]; [discriminate|]. cbn [parse_string List.length] in *.
    destruct (c =? 34); [intros [= <- <-]; now exists [c]|].
    destruct (c =? 92).
    + destruct s as [|e s]; [discriminate|].
      destruct (e =? 117).
      * destruct s as [|h1 [|h2 [|h3 [|h4 s]]]]; try discriminate.
        destruct (hex4 h1 h2 h3 h4); [|discriminate].
        intros (x' & H & ->)%cons_unit_inv.
        apply IH in H as [u ->]; [|cbn [List.length] in *; lia].
        now exists (c :: e :: h1 :: h2 :: h3 :: h4 :: u).
      * destruct (unescape e); [|discriminate].
        intros (x' & H & ->)%cons_unit_inv.
        apply IH in H as [u ->]; [|cbn [List.length] in *; lia].
        now exists (c :: e :: u).
    + destruct (c <? 32); [discriminate|].
      intros (x' & H & ->)%cons_unit_inv.
      apply IH in H as [u ->]; [|lia].
      now exists (c :: u).
Qed.

Lemma take_digits_eq s d r : take_digits s = (d, r) -> s = d ++ r.
Proof.
  revert d r. induction s as [|x s IH]; intros d r; cbn [take_digits].
  - now intros [= <- <-].
  - destruct (is_digit x); [|now intros [= <- <-]].
    destruct (take_digits s) as [d' r']. intros [= <- <-].
    cbn [app]. f_equal. now apply IH.
Qed.

Lemma take_digits_app s q : forall d c r,
  take_digits s = (d, c :: r) -> take_digits (s ++ q) = (d, c :: r ++ q).
Proof.
  induction s as [|x s IH]; intros d c r; cbn [take_digits app]; [discriminate|].
  destruct (is_digit x).
  - destruct (take_digits s) as [d' r']. intros [= <- ->].
    now rewrite (IH d' c r eq_refl).
  - now intros [= <- <- <-].
Qed.

Lemma parse_int_part_eq s i r : parse_int_part s = Some (i, r) -> s = i ++ r.
Proof.
  destruct s as [|c s]; [discriminate|]. cbn [parse_int_part].
  destruct (c =? 48); [now intros [= <- <-]|].
  destruct (is_digit c); [|discriminate].
  destruct (take_digits s) as [d r'] eqn:Hd. intros [= <- <-].
  cbn [app]. f_equal. now apply take_digits_eq.
Qed.

Lemma parse_int_part_app s q i c r :
  parse_int_part s = Some (i, c :: r) ->
  parse_int_part (s ++ q) = Some (i, c :: r ++ q).
Proof.
  destruct s as [|x s]; [discriminate|]. cbn [parse_int_part app].
  destruct (x =? 48); [now intros [= <- ->]|].
  destruct (is_digit x); [|discriminate].
  destruct (take_digits s) as [d r'] eqn:Hd. intros [= <- ->].
  now rewrite (take_digits_app s q d c r Hd).
Qed.

Lemma parse_frac_part_eq s f r : parse_frac_part s = Some (f, r) -> s = f ++ r.
Proof.
  unfold parse_frac_part. destruct (next_is 46 s) as [r0|] eqn:Hn.
  - apply next_is_eq in Hn as ->.
    destruct (take_digits r0) as [[|d0 d] r'] eqn:Hd; [discriminate|].
    intros [= <- <-]. cbn [app]. f_equal. exact (take_digits_eq _ _ _ Hd).
  - now intros [= <- <-].
Qed.

Lemma parse_frac_part_app s q f c r :
  parse_frac_part s = Some (f, c :: r) ->
  parse_frac_part (s ++ q) = Some (f, c :: r ++ q).
Proof.
  unfold parse_frac_part. destruct (next_is 46 s) as [r0|] eqn:Hn.
  - rewrite (next_is_app _ _ _ q Hn).
    destruct (take_digits r0) as [[|d0 d] r'] eqn:Hd; [discriminate|].
    intros [= <- ->]. now rewrite (take_digits_app r0 q _ c r Hd).
  - intros [= <- ->]. now rewrite (next_is_none_app _ _ q Hn) by discriminate.
Qed.

Lemma parse_exp_sign_eq s sg r : parse_exp_sign s = (sg, r) -> s = sg ++ r.
Proof.
  unfold parse_exp_sign. destruct (next_is 43 s) as [r0|] eqn:H1.
  - apply next_is_eq in H1 as ->. now intros [= <- <-].
  - destruct (next_is 45 s) as [r0|] eqn:H2.
    + apply next_is_eq in H2 as ->. now intros [= <- <-].
    + now intros [= <- <-].
Qed.

Lemma parse_exp_sign_app s q sg c r :
  parse_exp_sign s = (sg, c :: r) -> parse_exp_sign (s ++ q) = (sg, c :: r ++ q).
Proof.
  unfold parse_exp_sign. destruct (next_is 43 s) as [r0|] eqn:H1.
  - rewrite (next_is_app _ _ _ q H1). now intros [= <- ->].
  - destruct (next_is 45 s) as [r0|] eqn:H2.
    + intros [= <- ->]. rewrite (next_is_none_app _ _ q H1), (next_is_app _ _ _ q H2);
        [reflexivity|]. apply next_is_eq in H2 as ->. discriminate.
    + intros [= <- ->].
      now rewrite (next_is_none_app _ _ q H1), (next_is_none_app _ _ q H2) by discriminate.
Qed.

Lemma parse_exp_part_eq s e r : parse_exp_part s = Some (e, r) -> s = e ++ r.
Proof.
  destruct s as [|c s]; [now intros [= <- <-]|]. cbn [parse_exp_part].
  destruct ((c =? 101) || (c =? 69)); [|now intros [= <- <-]].
  destruct (parse_exp_sign s) as [sg r1] eqn:Hs.
  destruct (take_digits r1) as [[|d0 d] r'] eqn:Hd; [discriminate|].
  intros [= <- <-]. apply parse_exp_sign_eq in Hs as ->. apply take_digits_eq in Hd as ->.
  cbn [app]. now rewrite <- app_assoc.
Qed.

Lemma parse_exp_part_app s q e c r :
  parse_exp_part s = Some (e, c :: r) ->
  parse_exp_part (s ++ q) = Some (e, c :: r ++ q).
Proof.
  destruct s as [|x s]; [discriminate|]. cbn [parse_exp_part app].
  destruct ((x =? 101) || (x =? 69)); [|now intros [= <- <- <-]].
  destruct (parse_exp_sign s) as [sg r1] eqn:Hs.
  destruct (take_digits r1) as [[|d0 d] r'] eqn:Hd; [discriminate|].
  intros [= <- ->].
  pose proof (take_digits_eq _ _ _ Hd) as Hr1.
  destruct r1 as [|c1 r1']; [discriminate|].
  rewrite (parse_exp_sign_app s q sg c1 r1' Hs).
  change (c1 :: r1' ++ q) with ((c1 :: r1') ++ q).
  now rewrite (take_digits_app _ q _ c r Hd).
Qed.

Lemma parse_minus_eq s sg r : parse_minus s = (sg, r) -> s = sg ++ r.
Proof.
  unfold parse_minus. destruct (next_is 45 s) as [r0|] eqn:H.
  - apply next_is_eq in H as ->. now intros [= <- <-].
  - now intros [= <- <-].
Qed.

Lemma parse_number_eq s n r : parse_number s = Some (n, r) -> s = n ++ r.
Proof.
  unfold parse_number. destruct (parse_minus s) as [sg s1] eqn:Hm.
  destruct (parse_int_part s1) as [[i s2]|] eqn:Hi; [|discriminate].
  destruct (parse_frac_part s2) as [[f s3]|] eqn:Hf; [|discriminate].
  destruct (parse_exp_part s3) as [[e s4]|] eqn:He; [|discriminate].
  intros [= <- <-].
  apply parse_minus_eq in Hm as ->. apply parse_int_part_eq in Hi as ->.
  apply parse_frac_part_eq in Hf as ->. apply parse_exp_part_eq in He as ->.
  now rewrite <- !app_assoc.
Qed.

Lemma parse_number_app s q n c r :
  parse_number s = Some (n, c :: r) -> parse_number (s ++ q) = Some (n, c :: r ++ q).
Proof.
  unfold parse_number. destruct (parse_minus s) as [sg s1] eqn:Hm.
  destruct (parse_int_part s1) as [[i s2]|] eqn:Hi; [|discriminate].
  destruct (parse_frac_part s2) as [[f s3]|] eqn:Hf; [|discriminate].
  destruct (parse_exp_part s3) as [[e s4]|] eqn:He; [|discriminate].
  intros [= <- ->].
  pose proof (parse_exp_part_eq _ _ _ He) as H3.
  destruct s3 as [|c3 r3]; [now destruct e|].
  pose proof (parse_frac_part_eq _ _ _ Hf) as H2.
  destruct s2 as [|c2 r2]; [now destruct f|].
  pose proof (parse_int_part_eq _ _ _ Hi) as H1.
  destruct s1 as [|c1 r1]; [now destruct i|].
  assert (Hm' : parse_minus (s ++ q) = (sg, (c1 :: r1) ++ q)).
  { unfold parse_minus in *. destruct (next_is 45 s) as [r0|] eqn:Hn.
    - rewrite (next_is_app _ _ _ q Hn). now injection Hm as <- <-.
    - injection Hm as <- ->. now rewrite (next_is_none_app _ _ q Hn) by discriminate. }
  rewrite Hm'. cbn [app].
  change (c1 :: r1 ++ q) with ((c1 :: r1) ++ q).
  rewrite (parse_int_part_app _ q _ _ _ Hi).
  change (c2 :: r2 ++ q) with ((c2 :: r2) ++ q).
  rewrite (parse_frac_part_app _ q _ _ _ Hf).
  change (c3 :: r3 ++ q) with ((c3 :: r3) ++ q).
  now rewrite (parse_exp_part_app _ q _ _ _ He).
Qed.

Lemma strip_prefix_eq p : forall s r, strip_prefix p s = Some r -> s = p ++ r.
Proof.
  induction p as [|x p IH]; intros s r; cbn [strip_prefix]; [now intros [= <-]|].
  destruct s as [|y s]; [discriminate|].
  destruct (N.eqb_spec x y); [|discriminate]. intros H%IH. now subst.
Qed.

Lemma parse_literal_cases s v r :
  parse_literal s = Some (v, r) ->
  (v = JBool true /\ s = str "true" ++ r)
  \/ (v = JBool false /\ s = str "false" ++ r)
  \/ (v = JNull /\ s = str "null" ++ r).
Proof.
  unfold parse_literal.
  destruct (strip_prefix (str "true") s) as [r0|] eqn:H1.
  - intros [= <- <-]. left. split; [reflexivity|now apply strip_prefix_eq].
  - destruct (strip_prefix (str "false") s) as [r0|] eqn:H2.
    + intros [= <- <-]. right; left. split; [reflexivity|now apply strip_prefix_eq].
    + destruct (strip_prefix (str "null") s) as [r0|] eqn:H3; [|discriminate].
      intros [= <- <-]. right; right. split; [reflexivity|now apply strip_prefix_eq].
Qed.

Lemma parse_literal_app s q v r :
  parse_literal s = Some (v, r) -> parse_literal (s ++ q) = Some (v, r ++ q).
Proof.
  intros [[-> ->]|[[-> ->]|[-> ->]]]%parse_literal_cases; reflexivity.
Qed.

Lemma parse_value_starts fuel s v r :
  parse_value fuel s = Some (v, r) -> exists c r0, skip_ws s = c :: r0.
Proof.
  destruct fuel as [|fuel]; [discriminate|]. rewrite parse_value_S.
  destruct (skip_ws s) as [|c r0]; [discriminate|]. intros _. now exists c, r0.
Qed.

Lemma parse_members_starts fuel s acc v r :
  parse_members fuel s acc = Some (v, r) -> exists r0, skip_ws s = 34 :: r0.
Proof.
  destruct fuel as [|fuel]; [discriminate|]. rewrite parse_members_S.
  destruct (next_is 34 (skip_ws s)) as [r0|] eqn:H; [|discriminate].
  intros _. exists r0. now apply next_is_eq.
Qed.

Lemma parse_elements_starts fuel s acc v r :
  parse_elements fuel s acc = Some (v, r) -> exists c r0, skip_ws s = c :: r0.
Proof.
  destruct fuel as [|fuel]; [discriminate|]. rewrite parse_elements_S.
  destruct (parse_value fuel s) as [[v0 r0]|] eqn:H; [|discriminate].
  intros _. eapply parse_value_starts. exact H.
Qed.

(** What a parse has returned does not depend on the text after what it
    left, when that is not empty or the value is not a number. *)
Lemma parse_app fuel :
  (forall s v r q,
      parse_value fuel s = Some (v, r) ->
      r <> [] \/ (forall n, v <> JNumber n) ->
      parse_value fuel (s ++ q) = Some (v, r ++ q))
  /\ (forall s acc v r q,
        parse_members fuel s acc = Some (v, r) ->
        parse_members fuel (s ++ q) acc = Some (v, r ++ q))
  /\ (forall s acc v r q,
        parse_elements fuel s acc = Some (v, r) ->
        parse_elements fuel (s ++ q) acc = Some (v, r ++ q)).
Proof.
  induction fuel as [|fuel (IHv & IHm & IHe)]; [repeat split; discriminate|].
  split; [|split].
  - intros s v r q. rewrite !parse_value_S.
    destruct (skip_ws s) as [|c r0] eqn:Hs; [discriminate|].
    rewrite (skip_ws_app s q c r0 Hs).
    destruct (c =? 123).
    { destruct (next_is 125 (skip_ws r0)) as [r'|] eqn:Hn.
      - intros [= <- <-] _. apply next_is_eq in Hn.
        now rewrite (skip_ws_app r0 q _ _ Hn).
      - intros H _. destruct (parse_members_starts _ _ _ _ _ H) as [r1 Hr1].
        rewrite (skip_ws_app r0 q _ _ Hr1). cbn [next_is N.eqb Pos.eqb].
        now apply IHm. }
    destruct (c =? 91).
    { destruct (next_is 93 (skip_ws r0)) as [r'|] eqn:Hn.
      - intros [= <- <-] _. apply next_is_eq in Hn.
        now rewrite (skip_ws_app r0 q _ _ Hn).
      - intros H _. destruct (parse_elements_starts _ _ _ _ _ H) as (c1 & r1 & Hr1).
        rewrite (skip_ws_app r0 q _ _ Hr1).
        rewrite Hr1 in Hn. change (c1 :: r1 ++ q) with ((c1 :: r1) ++ q).
        rewrite (next_is_none_app _ _ q Hn) by discriminate.
        now apply IHe. }
    destruct (c =? 34).
    { destruct (parse_string r0) as [[x r']|] eqn:Hp; [|discriminate].
      intros [= <- <-] _.
      now rewrite (parse_string_app _ _ _ _ q (le_n _) Hp). }
    destruct ((c =? 45) || is_digit c).
    { destruct (parse_number (c :: r0)) as [[x r']|] eqn:Hp; [|discriminate].
      intros [= <- <-] [Hr|Hv]; [|now destruct (Hv x)].
      destruct r' as [|c' r']; [contradiction|].
      change (c :: r0 ++ q) with ((c :: r0) ++ q).
      now rewrite (parse_number_app _ q _ _ _ Hp). }
    intros H _. change (c :: r0 ++ q) with ((c :: r0) ++ q).
    now apply parse_literal_app.
  - intros s acc v r q. rewrite !parse_members_S.
    destruct (next_is 34 (skip_ws s)) as [r0|] eqn:Hn; [|discriminate].
    apply next_is_eq in Hn. rewrite (skip_ws_app s q _ _ Hn). cbn [next_is N.eqb Pos.eqb].
    destruct (parse_string r0) as [[k r1]|] eqn:Hp; [|discriminate].
    rewrite (parse_string_app _ _ _ _ q (le_n _) Hp).
    destruct (next_is 58 (skip_ws r1)) as [r2|] eqn:Hc; [|discriminate].
    apply next_is_eq in Hc. rewrite (skip_ws_app r1 q _ _ Hc). cbn [next_is N.eqb Pos.eqb].
    destruct (parse_value fuel r2) as [[v0 r3]|] eqn:Hv; [|discriminate].
    cbv zeta.
    destruct (skip_ws r3) as [|c r4] eqn:H3; [discriminate|].
    assert (Hr3 : r3 <> []) by (intros ->; discriminate).
    rewrite (IHv _ _ _ q Hv (or_introl Hr3)). cbv zeta.
    rewrite (skip_ws_app r3 q _ _ H3).
    destruct (c =? 44); [now apply IHm|].
    destruct (c =? 125); [|discriminate]. now intros [= <- <-].
  - intros s acc v r q. rewrite !parse_elements_S.
    destruct (parse_value fuel s) as [[v0 r0]|] eqn:Hv; [|discriminate].
    destruct (skip_ws r0) as [|c r1] eqn:H0; [discriminate|].
    assert (Hr0 : r0 <> []) by (intros ->; discriminate).
    rewrite (IHv _ _ _ q Hv (or_introl Hr0)).
    rewrite (skip_ws_app r0 q _ _ H0).
    destruct (c =? 44); [now apply IHe|].
    destruct (c =? 93); [|discriminate]. now intros [= <- <-].
Qed.

(** What a parse leaves is the end of the text it was given. *)
Lemma parse_suffix fuel :
  (forall s v r, parse_value fuel s = Some (v, r) -> exists u, s = u ++ r)
  /\ (forall s acc v r, parse_members fuel s acc = Some (v, r) -> exists u, s = u ++ r)
  /\ (forall s acc v r, parse_elements fuel s acc = Some (v, r) -> exists u, s = u ++ r).
Proof.
  induction fuel as [|fuel (IHv & IHm & IHe)]; [repeat split; discriminate|].
  split; [|split].
  - intros s v r. rewrite parse_value_S.
    destruct (skip_ws_suffix s) as [u0 Hu0].
    destruct (skip_ws s) as [|c r0]; [discriminate|]. rewrite Hu0.
    destruct (c =? 123).
    { destruct (next_is 125 (skip_ws r0)) as [r'|] eqn:Hn.
      - intros [= <- <-]. apply next_is_eq in Hn.
        destruct (skip_ws_suffix r0) as [u1 Hu1]. rewrite Hn in Hu1.
        exists (u0 ++ c :: u1 ++ [125]). rewrite Hu1 at 1.
        rewrite <- !app_assoc. cbn [app]. now rewrite <- app_assoc.
      - intros [u ->]%IHm. exists (u0 ++ c :: u). now rewrite <- app_assoc. }
    destruct (c =? 91).
    { destruct (next_is 93 (skip_ws r0)) as [r'|] eqn:Hn.
      - intros [= <- <-]. apply next_is_eq in Hn.
        destruct (skip_ws_suffix r0) as [u1 Hu1]. rewrite Hn in Hu1.
        exists (u0 ++ c :: u1 ++ [93]). rewrite Hu1 at 1.
        rewrite <- !app_assoc. cbn [app]. now rewrite <- app_assoc.
      - intros [u ->]%IHe. exists (u0 ++ c :: u). now rewrite <- app_assoc. }
    destruct (c =? 34).
    { destruct (parse_string r0) as [[x r']|] eqn:Hp; [|discriminate].
      intros [= <- <-]. apply (parse_string_suffix _ _ _ _ (le_n _)) in Hp as [u ->].
      exists (u0 ++ c :: u). now rewrite <- app_assoc. }
    destruct ((c =? 45) || is_digit c).
    { destruct (parse_number (c :: r0)) as [[x r']|] eqn:Hp; [|discriminate].
      intros [= <- <-]. apply parse_number_eq in Hp. rewrite Hp.
      exists (u0 ++ x). now rewrite <- app_assoc. }
    intros [[_ ->]|[[_ ->]|[_ ->]]]%parse_literal_cases;
      eexists; rewrite app_assoc; reflexivity.
  - intros s acc v r. rewrite parse_members_S.
    destruct (skip_ws_suffix s) as [u0 Hu0].
    destruct (next_is 34 (skip_ws s)) as [r0|] eqn:Hn; [|discriminate].
    apply next_is_eq in Hn. rewrite Hn in Hu0.
    destruct (parse_string r0) as [[k r1]|] eqn:Hp; [|discriminate].
    apply (parse_string_suffix _ _ _ _ (le_n _)) in Hp as [u1 Hu1].
    destruct (skip_ws_suffix r1) as [u2 Hu2].
    destruct (next_is 58 (skip_ws r1)) as [r2|] eqn:Hc; [|discriminate].
    apply next_is_eq in Hc. rewrite Hc in Hu2.
    destruct (parse_value fuel r2) as [[v0 r3]|] eqn:Hv; [|discriminate].
    apply IHv in Hv as [u3 Hu3]. cbv zeta.
    destruct (skip_ws_suffix r3) as [u4 Hu4].
    destruct (skip_ws r3) as [|c r4]; [discriminate|].
    assert (Hs : s = (u0 ++ 34 :: u1 ++ u2 ++ 58 :: u3 ++ u4 ++ [c]) ++ r4).
    { rewrite Hu0, Hu1, Hu2, Hu3, Hu4. rewrite <- !app_assoc. cbn [app].
      repeat (rewrite <- ?app_assoc; cbn [app]; f_equal). }
    destruct (c =? 44).
    + intros [u ->]%IHm. rewrite Hs. eexists. rewrite app_assoc. reflexivity.
    + destruct (c =? 125); [|discriminate]. intros [= <- <-]. rewrite Hs. now eexists.
  - intros s acc v r. rewrite parse_elements_S.
    destruct (parse_value fuel s) as [[v0 r0]|] eqn:Hv; [|discriminate].
    apply IHv in Hv as [u0 Hu0].
    destruct (skip_ws_suffix r0) as [u1 Hu1].
    destruct (skip_ws r0) as [|c r1]; [discriminate|].
    assert (Hs : s = (u0 ++ u1 ++ [c]) ++ r1).
    { rewrite Hu0, Hu1. rewrite <- !app_assoc. reflexivity. }
    destruct (c =? 44).
    + intros [u ->]%IHe. rewrite Hs. eexists. rewrite app_assoc. reflexivity.
    + destruct (c =? 93); [|discriminate]. intros [= <- <-]. rewrite Hs. now eexists.
Qed.

(** An object ends with its closing brace. *)
Lemma parse_members_brace fuel : forall s acc v r,
  parse_members fuel s acc = Some (v, r) -> exists u, s = u ++ 125 :: r.
Proof.
  induction fuel as [|fuel IH]; [discriminate|].
  intros s acc v r. rewrite parse_members_S.
  destruct (skip_ws_suffix s) as [u0 Hu0].
  destruct (next_is 34 (skip_ws s)) as [r0|] eqn:Hn; [|discriminate].
  apply next_is_eq in Hn. rewrite Hn in Hu0.
  destruct (parse_string r0) as [[k r1]|] eqn:Hp; [|discriminate].
  apply (parse_string_suffix _ _ _ _ (le_n _)) in Hp as [u1 Hu1].
  destruct (skip_ws_suffix r1) as [u2 Hu2].
  destruct (next_is 58 (skip_ws r1)) as [r2|] eqn:Hc; [|discriminate].
  apply next_is_eq in Hc. rewrite Hc in Hu2.
  destruct (parse_value fuel r2) as [[v0 r3]|] eqn:Hv; [|discriminate].
  apply (proj1 (parse_suffix fuel)) in Hv as [u3 Hu3]. cbv zeta.
  destruct (skip_ws_suffix r3) as [u4 Hu4].
  destruct (skip_ws r3) as [|c r4]; [discriminate|].
  assert (Hs : s = (u0 ++ 34 :: u1 ++ u2 ++ 58 :: u3 ++ u4) ++ c :: r4).
  { rewrite Hu0, Hu1, Hu2, Hu3, Hu4. rewrite <- !app_assoc. cbn [app].
    repeat (rewrite <- ?app_assoc; cbn [app]; f_equal). }
  destruct (c =? 44).
  - intros [u ->]%IH. rewrite Hs. eexists.
    change (c :: u ++ 125 :: r) with ((c :: u) ++ 125 :: r). rewrite app_assoc. reflexivity.
  - destruct (N.eqb_spec c 125) as [->|]; [|discriminate].
    intros [= <- <-]. rewrite Hs. now eexists.
Qed.

Lemma parse_members_is_object fuel : forall s acc v r,
  parse_members fuel s acc = Some (v, r) -> exists props, v = JObject props.
Proof.
  induction fuel as [|fuel IH]; [discriminate|].
  intros s acc v r. rewrite parse_members_S.
  destruct (next_is 34 (skip_ws s)) as [r0|]; [|discriminate].
  destruct (parse_string r0) as [[k r1]|]; [|discriminate].
  destruct (next_is 58 (skip_ws r1)) as [r2|]; [|discriminate].
  destruct (parse_value fuel r2) as [[v0 r3]|]; [|discriminate]. cbv zeta.
  destruct (skip_ws r3) as [|c r4]; [discriminate|].
  destruct (c =? 44); [apply IH|].
  destruct (c =? 125); [|discriminate]. intros [= <- _]. now eexists.
Qed.

(** A text that starts with a brace and is parsed gives an object that
    ends with a brace. *)
Lemma parse_value_brace fuel s r0 v r :
  skip_ws s = 123 :: r0 ->
  parse_value fuel s = Some (v, r) ->
  (exists props, v = JObject props) /\ exists u, s = u ++ 125 :: r.
Proof.
  intros Hs. destruct fuel as [|fuel]; [discriminate|]. rewrite parse_value_S, Hs.
  cbn [N.eqb Pos.eqb].
  destruct (skip_ws_suffix s) as [u0 Hu0]. rewrite Hs in Hu0.
  destruct (next_is 125 (skip_ws r0)) as [r'|] eqn:Hn.
  - intros [= <- <-]. split; [now eexists|].
    apply next_is_eq in Hn. destruct (skip_ws_suffix r0) as [u1 Hu1]. rewrite Hn in Hu1.
    exists (u0 ++ 123 :: u1). rewrite Hu0, Hu1 at 1. now rewrite <- app_assoc.
  - intros H. split; [eapply parse_members_is_object; exact H|].
    apply parse_members_brace in H as [u ->].
    exists (u0 ++ 123 :: u). rewrite Hu0 at 1. now rewrite <- app_assoc.
Qed.

Lemma last_app_cons {A} (u : list A) (x : A) (r : list A) d :
  last (u ++ x :: r) d = last (x :: r) d.
Proof.
  induction u as [|y u IH]; [reflexivity|].
  cbn [app]. destruct (u ++ x :: r) eqn:H; [now destruct u|].
  change (last (y :: a :: l) d) with (last (a :: l) d). exact IH.
Qed.

(** A text that starts with a brace, ends with a brace and is JSON is not
    JSON when it is cut short, nor when U+FFFD follows the cut. *)
Lemma cut_object_is_not_JSON (T' T1 T2 junk : jsstring) (v : JSON) :
  JSON_parse (123 :: T') = Some v ->
  last (123 :: T') 0 = 125 ->
  123 :: T' = T1 ++ T2 ->
  T2 <> [] ->
  junk = [] \/ junk = [65533] ->
  JSON_parse (T1 ++ junk) = None.
Proof.
  intros Hparse Hlast Hcut HT2 Hjunk.
  destruct (JSON_parse (T1 ++ junk)) as [v1|] eqn:H1; [exfalso|reflexivity].
  destruct T1 as [|c T1].
  { destruct Hjunk as [-> | ->]; discriminate H1. }
  injection Hcut as <- HT'.
  unfold JSON_parse in H1.
  destruct (parse_value _ _) as [[v1' r1]|] eqn:Hv in H1; [|discriminate].
  destruct (skip_ws r1) eqn:Hr1 in H1; [|discriminate].
  destruct (parse_value_brace _ ((123 :: T1) ++ junk) (T1 ++ junk) _ _ eq_refl Hv)
    as ([props ->] & u & Hu).
  destruct Hjunk as [-> | ->].
  - rewrite app_nil_r in *.
    assert (Hfuel : parse_value (S (2 * List.length (123 :: T'))) (123 :: T1)
                    = Some (JObject props, r1)).
    { rewrite <- Hv. symmetry.
      apply (proj1 (parse_fuel_enough _ _)); subst T'; cbn [List.length];
        rewrite ?length_app; lia. }
    apply (proj1 (parse_app _) _ _ _ T2) in Hfuel; [|right; discriminate].
    unfold JSON_parse in Hparse. rewrite HT' in Hparse at 2.
    change (123 :: T1 ++ T2) with ((123 :: T1) ++ T2) in Hparse.
    rewrite Hfuel in Hparse.
    destruct (skip_ws (r1 ++ T2)) eqn:Hws in Hparse; [|discriminate].
    assert (Hne : r1 ++ T2 <> []) by (destruct r1; [exact HT2|discriminate]).
    pose proof (skip_ws_nil_last _ 0 Hws Hne) as Hl.
    destruct T2 as [|x T2]; [contradiction|].
    rewrite last_app_cons in Hl.
    rewrite HT' in Hlast. change (123 :: T1 ++ x :: T2) with ((123 :: T1) ++ x :: T2) in Hlast.
    rewrite last_app_cons in Hlast. rewrite Hlast in Hl. discriminate Hl.
  - assert (Hl : last ((123 :: T1) ++ [65533]) 0 = 65533) by apply last_last.
    rewrite Hu, last_app_cons in Hl.
    destruct r1 as [|y r1]; [discriminate Hl|].
    change (last (125 :: y :: r1) 0) with (last (y :: r1) 0) in Hl.
    pose proof (skip_ws_nil_last (y :: r1) 0 Hr1 ltac:(discriminate)) as Hw.
    rewrite Hl in Hw. discriminate Hw.
Qed.

(** ** The bytes of a text that are cut short *)

Lemma utf8_of_code_point_length cp :
  (1 <= List.length (utf8_of_code_point cp) <= 4)%nat.
Proof.
  unfold utf8_of_code_point.
  destruct (cp <? 128); [cbn; lia|]. destruct (cp <? 2048); [cbn; lia|].
  destruct (cp <? 65536); cbn; lia.
Qed.

(** The first bytes of a code point, without the last: nothing, or a
    sequence that the end of the file breaks. *)
Lemma utf8_decode_partial cp k :
  cp < 1114112 -> cp < 55296 \/ 57343 < cp ->
  (k < List.length (utf8_of_code_point cp))%nat ->
  utf8_decode_from None (firstn k (utf8_of_code_point cp))
  = match k with O => [] | S _ => [65533] end.
Proof.
  intros Hmax Hscalar. unfold utf8_of_code_point.
  destruct (N.ltb_spec cp 128); [|destruct (N.ltb_spec cp 2048);
    [|destruct (N.ltb_spec cp 65536)]]; cbn [List.length]; intros Hk.
  - destruct k as [|k]; [reflexivity|lia].
  - destruct k as [|[|k]]; [reflexivity| |lia]. cbn [firstn].
    rewrite utf8_decode_lead, utf8_lead_2 by lia. reflexivity.
  - destruct k as [|[|[|k]]]; [reflexivity| | |lia]; cbn [firstn].
    + rewrite utf8_decode_lead, utf8_lead_3 by lia. reflexivity.
    + rewrite utf8_decode_lead, utf8_lead_3 by lia. cbn [fst snd app].
      rewrite utf8_decode_continue by (cases_on_comparisons). reflexivity.
  - destruct k as [|[|[|[|k]]]]; [reflexivity| | | |lia]; cbn [firstn].
    + rewrite utf8_decode_lead, utf8_lead_4 by lia. reflexivity.
    + rewrite utf8_decode_lead, utf8_lead_4 by lia. cbn [fst snd app].
      rewrite utf8_decode_continue by (cases_on_comparisons). reflexivity.
    + rewrite utf8_decode_lead, utf8_lead_4 by lia. cbn [fst snd app].
      rewrite utf8_decode_continue by (cases_on_comparisons).
      rewrite utf8_decode_continue by lia. reflexivity.
Qed.

Lemma cut_of_code_point cp us rest E k :
  cp < 1114112 -> cp < 55296 \/ 57343 < cp ->
  units_of_code_point cp = us -> us <> [] ->
  (forall k', cut_of rest E k') ->
  cut_of (us ++ rest) (utf8_of_code_point cp ++ E) k.
Proof.
  intros Hmax Hscalar Hus Hne IH. unfold cut_of. rewrite firstn_app.
  pose proof (utf8_of_code_point_length cp) as Hlen.
  destruct (Nat.ltb_spec k (List.length (utf8_of_code_point cp))) as [Hk|Hk].
  - replace (k - List.length (utf8_of_code_point cp))%nat with 0%nat by lia.
    cbn [firstn]. rewrite app_nil_r, (utf8_decode_partial cp k Hmax Hscalar Hk).
    exists [], (us ++ rest), (match k with O => [] | S _ => [65533] end).
    split; [reflexivity|]. split; [reflexivity|]. split; [destruct k; auto|].
    intros _. destruct us; [contradiction|discriminate].
  - rewrite (firstn_all2 _ Hk), (utf8_decode_code_point cp _ Hmax Hscalar), Hus.
    destruct (IH (k - List.length (utf8_of_code_point cp))%nat)
      as (T1 & T2 & junk & -> & Hd & Hj & Hcut).
    exists (us ++ T1), T2, junk. rewrite Hd, <- !app_assoc.
    split; [reflexivity|]. split; [reflexivity|]. split; [exact Hj|].
    rewrite length_app. intros Hlt. apply Hcut. lia.
Qed.

Lemma utf8_decode_cut T :
  wf_string T = true -> well_paired T = true ->
  forall k, cut_of T (utf8_encode T) k.
Proof.
  induction T as [| c | c c' r IHr IHc'] using list_pair_ind.
  - intros _ _ k. exists [], [], []. destruct k; cbn; repeat split; auto; lia.
  - cbn [wf_string forallb well_paired]. unfold code_unit.
    intros [Hc%N.ltb_lt _]%andb_true_iff.
    destruct (is_high_surrogate c) eqn:Hhi; [discriminate|].
    destruct (is_low_surrogate c) eqn:Hlo; [discriminate|]. intros _ k.
    rewrite utf8_encode_cons, Hhi, Hlo.
    apply (cut_of_code_point c [c] [] (utf8_encode []) k);
      [lia|now apply not_surrogate_range|now apply units_of_code_unit|discriminate|].
    intros k'. exists [], [], []. destruct k'; cbn; repeat split; auto; lia.
  - intros Hwf Hwp k. rewrite utf8_encode_cons.
    cbn [wf_string forallb] in Hwf. unfold code_unit in Hwf.
    apply andb_true_iff in Hwf as [Hc%N.ltb_lt Hwf].
    rewrite well_paired_cons in Hwp.
    destruct (is_high_surrogate c) eqn:Hhi.
    + apply andb_true_iff in Hwp as [Hlo' Hwp]. rewrite Hlo'.
      apply andb_true_iff in Hwf as [_ Hwf].
      pose proof (high_surrogate_range _ Hhi). pose proof (low_surrogate_range _ Hlo').
      apply (cut_of_code_point (code_point_of_pair c c') [c; c'] r (utf8_encode r) k);
        [unfold code_point_of_pair; lia|unfold code_point_of_pair; lia
        |now apply units_of_pair|discriminate|].
      now apply IHr.
    + apply andb_true_iff in Hwp as [Hlo%negb_true_iff Hwp]. rewrite Hlo.
      apply (cut_of_code_point c [c] (c' :: r) (utf8_encode (c' :: r)) k);
        [lia|now apply not_surrogate_range|now apply units_of_code_unit|discriminate|].
      now apply IHc'.
Qed.

Lemma stringify_notes_braces (o : Notes) :
  (exists T', JSON_stringify_notes o = 123 :: T')
  /\ last (JSON_stringify_notes o) 0 = 125.
Proof.
  destruct o as [|kv o]; [split; [now eexists|reflexivity]|].
  unfold JSON_stringify_notes. split; [now eexists|].
  rewrite !app_assoc. apply last_last.
Qed.

(** The text of a store, cut short, is not JSON. *)
Lemma cut_text_is_not_JSON (o : Notes) (kept : nat) :
  wf_entries o = true ->
  (kept < List.length (utf8_encode (JSON_stringify_notes o)))%nat ->
  JSON_parse (utf8_decode (firstn kept (utf8_encode (JSON_stringify_notes o)))) = None.
Proof.
  intros Hwf Hkept.
  destruct (utf8_decode_cut (JSON_stringify_notes o)
              (stringify_notes_wf o Hwf) (stringify_notes_well_paired o) kept)
    as (T1 & T2 & junk & HT & Hd & Hj & Hcut).
  unfold utf8_decode. rewrite Hd.
  destruct (stringify_notes_braces o) as ([T' HT'] & Hlast).
  rewrite HT' in HT, Hlast.
  apply (cut_object_is_not_JSON T' T1 T2 junk (JObject (set_all o [])));
    [rewrite <- HT'; apply JSON_parse_stringify|exact Hlast|exact HT|now apply Hcut|exact Hj].
Qed.

Lemma saveNotes_cut (w : World) (kept : nat) :
  cut_after (disk w) = Some kept ->
  exists read_ok,
    saveNotes w =
    (Normal tt,
     mk_world (notes w)
       (FileFailing (firstn kept (utf8_encode (JSON_stringify_notes (notes w))))
          read_ok kept)
       (trace w ++ [save_error])).
Proof.
  destruct w as [o d t]. cbn [disk notes trace].
  destruct d as [[|]|[|]|content read_ok [|]| |[k|]|k|content read_ok k];
    try discriminate; intros [= ->]; eexists; reflexivity.
Qed.

Lemma loadNotes_cut (o : Notes) (kept k : nat) read_ok :
  wf_entries o = true ->
  (kept < List.length (utf8_encode (JSON_stringify_notes o)))%nat ->
  let d := FileFailing (firstn kept (utf8_encode (JSON_stringify_notes o))) read_ok k in
  loadNotes (initial_world d) = (Normal tt, mk_world [] d [load_error]).
Proof.
  intros Hwf Hkept d. destruct read_ok.
  - unfold d.
    rewrite (loadNotes_read
               (initial_world
                  (FileFailing (firstn kept (utf8_encode (JSON_stringify_notes o))) true k))
               (firstn kept (utf8_encode (JSON_stringify_notes o))) eq_refl).
    now rewrite (cut_text_is_not_JSON o kept Hwf Hkept).
  - now apply loadNotes_unreadable.
Qed.

(** ** The two ways the source writes the markdown of a note *)

Lemma note_markdown_text filePath line note :
  note_markdown filePath line note
  = option_map (hover_text note)
      (encodeURIComponent (JSON_stringify_args filePath line)).
Proof.
  unfold note_markdown, edit_link, hover_text, note_heading.
  destruct (encodeURIComponent (JSON_stringify_args filePath line)) as [query|];
    [|reflexivity].
  cbn [option_map]. now rewrite <- !app_assoc.
Qed.

(** ** The normal form of a path of ASCII *)

Lemma replace_backslashes_ascii (s : jsstring) :
  is_ascii s = true -> is_ascii (replace_backslashes s) = true.
Proof.
  unfold is_ascii, replace_backslashes. induction s as [|c s IH]; [reflexivity|].
  cbn [forallb map]. intros [Hc Hs]%andb_true_iff. rewrite (IH Hs), andb_true_r.
  destruct (c =? 92); [reflexivity|exact Hc].
Qed.

Lemma ascii_lower_replace (s : jsstring) :
  ascii_toLowerCase (replace_backslashes s) = canonical_path s.
Proof.
  unfold ascii_toLowerCase, replace_backslashes, canonical_path.
  rewrite map_map. apply map_ext. intros c. unfold canonical_unit.
  destruct (c =? 92); reflexivity.
Qed.

Lemma normalize_ascii (toLowerCase : jsstring -> jsstring) (path : jsstring) :
  (forall s, forallb (fun c => c <? 128) s = true ->
             toLowerCase s = ascii_toLowerCase s) ->
  is_ascii path = true ->
  toLowerCase (replace_backslashes path) = canonical_path path.
Proof.
  intros Hascii Hpath.
  rewrite Hascii by (apply replace_backslashes_ascii; exact Hpath).
  apply ascii_lower_replace.
Qed.

(** ** A path that can be confused with the separator *)

Lemma split_from_confused (path tail cur : jsstring) :
  no_separator path = false ->
  exists pre,
    hd [] (split_from (path ++ 58 :: 58 :: tail) cur) = rev cur ++ pre
    /\ (List.length pre < List.length path)%nat.
Proof.
  revert cur. induction path as [|c r IH]; intros cur H; [discriminate|].
  cbn [no_separator] in H. cbn [app split_from].
  destruct r as [|c' r'].
  - cbn [app]. destruct (c =? 58) eqn:Hc.
    + cbn [andb N.eqb Pos.eqb hd]. exists []. split; [now rewrite app_nil_r|cbn; lia].
    + discriminate.
  - cbn [app]. destruct ((c =? 58) && (c' =? 58)) eqn:Hcc.
    + cbn [hd]. exists []. split; [now rewrite app_nil_r|cbn; lia].
    + assert (Hr : no_separator (c' :: r') = false).
      { destruct (c =? 58); [|exact H].
        cbn [andb] in Hcc. rewrite Hcc in H. exact H. }
      destruct (IH (c :: cur) Hr) as (pre & Hpre & Hlen).
      exists (c :: pre). split.
      * change ((c' :: r') ++ 58 :: 58 :: tail) with (c' :: r' ++ 58 :: 58 :: tail) in Hpre.
        rewrite Hpre. cbn [rev]. now rewrite <- app_assoc.
      * cbn [List.length] in *. lia.
Qed.

Lemma key_path_confused (filePath : jsstring) (line : Z) :
  no_separator filePath = false ->
  (List.length (key_path (noteKey filePath line)) < List.length filePath)%nat.
Proof.
  intros H. unfold key_path, split, noteKey.
  change (str "::" ++ Number_toString line) with (58 :: 58 :: Number_toString line).
  destruct (split_from_confused filePath (Number_toString line) [] H) as (pre & -> & Hlen).
  exact Hlen.
Qed.

(** * The claims *)

(** C1.  Round trip.  For every notes object [M] (keys unique and in the
    order of an object, strings of 16-bit code units), on a path where the
    file can be written and read: [saveNotes] writes the UTF-8 bytes of
    [JSON.stringify(M, null, 2)], [JSON.parse] of what is read back gives the
    properties of [M], and [loadNotes] then binds [notes] to [M], whatever
    [notes] held before the load. *)
Theorem save_then_load (M stale : Notes) (d : FS) (t : list Event) :
  wf_notes M = true ->
  usable d = true ->
  let file := File (utf8_encode (JSON_stringify_notes M)) true true in
  saveNotes (mk_world M d t) = (Normal tt, mk_world M file t)
  /\ JSON_parse (utf8_decode (utf8_encode (JSON_stringify_notes M)))
     = Some (JObject (JSON_properties M))
  /\ loadNotes (mk_world stale file t) = (Normal tt, mk_world M file t).
Proof.
  intros [Hobj Hstrings]%andb_true_iff Hd file.
  destruct (parse_stringify_notes M Hobj) as [Hparse Hnotes].
  split; [|split].
  - now rewrite saveNotes_usable.
  - now rewrite read_back_stringify.
  - unfold file. rewrite loadNotes_readable, read_back_stringify, Hparse by assumption.
    now rewrite Hnotes.
Qed.

Lemma save_then_load_witness :
  let M := [(str "/repo/main.ts::5", str "fix this");
            (str "C:\Proj\a.ts::3", [34; 10; 55357; 56541; 233])] in
  let file := File (utf8_encode (JSON_stringify_notes M)) true true in
  wf_notes M = true
  /\ usable (NoFile true) = true
  /\ saveNotes (mk_world M (NoFile true) []) = (Normal tt, mk_world M file [])
  /\ loadNotes (mk_world [] file []) = (Normal tt, mk_world M file []).
Proof.
  intros M file.
  split; [reflexivity|]. split; [reflexivity|].
  destruct (save_then_load M [] (NoFile true) [] eq_refl eq_refl) as (Hs & _ & Hl).
  split; [exact Hs|exact Hl].
Defined.





(** C4, as stated, fails: the line portion [5abc] is not the decimal
    numeral of an integer, and the entry is decorated all the same, at
    line 5. *)
Lemma trailing_characters_are_ignored :
  let editor := mk_editor (str "/repo/main.ts") 10 0 in
  key_line (str "/repo/main.ts::5abc") = Some (str "5abc")
  /\ canonical_decimal (str "5abc") = false
  /\ exists markdown,
       decoration_of_entry ascii_toLowerCase editor
         (str "/repo/main.ts::5abc", str "fix this")
       = Normal (Some (mk_decoration 5 markdown)).
Proof.
  intros editor. split; [reflexivity|]. split; [reflexivity|].
  eexists. vm_compute. reflexivity.
Qed.

(** C4, amended.  The line portion of a key is read by [parseInt(_, 10)].
    The decimal form of an integer is read back as that integer, also when
    code units that are not digits follow it.  A key built by the extension
    decodes to the path and the line it was built from when no colon of the
    path is followed by a colon or ends the path, and to a shorter path when
    one is: the key of [/repo/a:] and 5 splits into [/repo/a] and [:5],
    which gives [NaN].  An entry whose line portion gives [NaN] is skipped
    without an error; and a decoration sits on the line that [parseInt]
    read. *)
Theorem line_portion_is_read_by_parseInt (toLowerCase : jsstring -> jsstring) :
  (forall line rest,
      starts_with_digit rest = false ->
      parseInt (Some (Number_toString line ++ rest)) = Some line)
  /\ (forall filePath line,
        no_separator filePath = true ->
        key_path (noteKey filePath line) = filePath
        /\ parseInt (key_line (noteKey filePath line)) = Some line)
  /\ (forall editor key note,
        parseInt (key_line key) = None ->
        decoration_of_entry toLowerCase editor (key, note) = Normal None)
  /\ (forall editor key note d,
        decoration_of_entry toLowerCase editor (key, note) = Normal (Some d) ->
        parseInt (key_line key) = Some (range_line d))
  /\ (forall filePath line,
        no_separator filePath = false ->
        key_path (noteKey filePath line) <> filePath
        /\ (List.length (key_path (noteKey filePath line)) < List.length filePath)%nat)
  /\ (forall editor note,
        key_path (noteKey (str "/repo/a:") 5) = str "/repo/a"
        /\ key_line (noteKey (str "/repo/a:") 5) = Some (str ":5")
        /\ parseInt (Some (str ":5")) = None
        /\ decoration_of_entry toLowerCase editor (noteKey (str "/repo/a:") 5, note)
           = Normal None).
Proof.
  assert (Hnan : forall editor key note,
             parseInt (key_line key) = None ->
             decoration_of_entry toLowerCase editor (key, note) = Normal None).
  { intros editor key note Hnan. rewrite decoration_of_entry_eq, Hnan.
    now destruct (string_eqb _ _). }
  split; [|split; [|split; [exact Hnan|split; [|split]]]];
    [| | |intros filePath line Hpath;
          pose proof (key_path_confused filePath line Hpath) as Hlen;
          split; [intros Heq; rewrite Heq in Hlen; lia|exact Hlen]
         |intros editor note; repeat (split; [reflexivity|]);
          apply Hnan; reflexivity].
  - intros line rest Hrest. now apply parseInt_Number_toString.
  - intros filePath line Hpath.
    destruct (key_parts_noteKey filePath line Hpath) as (Hp & _ & Hl). now split.
  - intros editor key note d. rewrite decoration_of_entry_eq.
    destruct (string_eqb _ _); [|discriminate].
    destruct (parseInt (key_line key)) as [line|]; [|discriminate].
    destruct ((0 <=? line)%Z && (line <? lineCount editor)%Z); [|discriminate].
    destruct (note_markdown (key_path key) line note); [|discriminate].
    now intros [= <-].
Qed.

Lemma line_portion_is_read_by_parseInt_witness :
  starts_with_digit (str "abc") = false
  /\ parseInt (Some (Number_toString 5 ++ str "abc")) = Some 5%Z
  /\ no_separator (str "C:\Proj\a.ts") = true
  /\ parseInt (key_line (noteKey (str "C:\Proj\a.ts") 12)) = Some 12%Z
  /\ parseInt (key_line (str "/repo/main.ts::abc")) = None
  /\ decoration_of_entry ascii_toLowerCase (mk_editor (str "/repo/main.ts") 10 0)
       (str "/repo/main.ts::abc", str "fix this") = Normal None
  /\ no_separator (str "/repo/a:") = false
  /\ key_path (noteKey (str "/repo/a:") 5) <> str "/repo/a:".
Proof.
  destruct (line_portion_is_read_by_parseInt ascii_toLowerCase)
    as (Hread & Hkey & Hnan & _ & Hconfused & _).
  split; [reflexivity|]. split; [apply Hread; reflexivity|].
  split; [reflexivity|]. split; [apply Hkey; reflexivity|].
  split; [reflexivity|]. split; [apply Hnan; reflexivity|].
  split; [reflexivity|]. apply Hconfused. reflexivity.
Defined.

(** C5.  Range.  The body of the loop never throws.  It gives a decoration
    only on a line that [parseInt] read from the key and that lies in
    [0 <= line < lineCount]; an entry whose line is [lineCount] or more, or
    is below 0, or whose line portion gives [NaN], gives none; and a store
    of such entries sets the empty list of decorations on the view. *)
Theorem decoration_only_on_a_line_of_the_view (toLowerCase : jsstring -> jsstring)
    (editor : TextEditor) :
  let out_of_range key :=
    match parseInt (key_line key) with
    | Some line => (line < 0 \/ lineCount editor <= line)%Z
    | None => True
    end in
  (forall entry, exists r, decoration_of_entry toLowerCase editor entry = Normal r)
  /\ (forall key note d,
        decoration_of_entry toLowerCase editor (key, note) = Normal (Some d) ->
        parseInt (key_line key) = Some (range_line d)
        /\ (0 <= range_line d < lineCount editor)%Z)
  /\ (forall key note,
        out_of_range key ->
        decoration_of_entry toLowerCase editor (key, note) = Normal None)
  /\ (forall w : World,
        Forall (fun entry => out_of_range (fst entry)) (notes w) ->
        updateDecorations toLowerCase editor w =
        (Normal tt,
         mk_world (notes w) (disk w) (trace w ++ [SetDecorations editor []]))).
Proof.
  intros out_of_range.
  assert (Hout : forall key note,
             out_of_range key ->
             decoration_of_entry toLowerCase editor (key, note) = Normal None).
  { intros key note. unfold out_of_range. rewrite decoration_of_entry_eq.
    destruct (string_eqb _ _); [|reflexivity].
    destruct (parseInt (key_line key)) as [line|]; [|reflexivity].
    intros Hline.
    destruct (Z.leb_spec 0 line); destruct (Z.ltb_spec line (lineCount editor));
      cbn [andb]; try reflexivity; lia. }
  split; [|split; [|split; [exact Hout|]]].
  - apply decoration_of_entry_returns.
  - intros key note d. rewrite decoration_of_entry_eq.
    destruct (string_eqb _ _); [|discriminate].
    destruct (parseInt (key_line key)) as [line|]; [|discriminate].
    destruct (Z.leb_spec 0 line); destruct (Z.ltb_spec line (lineCount editor));
      cbn [andb]; try discriminate.
    destruct (note_markdown (key_path key) line note); [|discriminate].
    intros [= <-]. cbn [range_line]. split; [reflexivity|lia].
  - intros w Hall. rewrite updateDecorations_eq.
    rewrite collect_decorations_none; [reflexivity|].
    apply Forall_forall. intros [key note] Hin.
    rewrite Forall_forall in Hall. apply Hout. exact (Hall _ Hin).
Qed.

Lemma decoration_only_on_a_line_of_the_view_witness :
  let editor := mk_editor (str "/repo/main.ts") 10 0 in
  let w := mk_world [(str "/repo/main.ts::10", str "past the end");
                     (str "/repo/main.ts::x", str "no line")] (NoFile true) [] in
  parseInt (key_line (str "/repo/main.ts::10")) = Some 10%Z
  /\ parseInt (key_line (str "/repo/main.ts::x")) = None
  /\ decoration_of_entry ascii_toLowerCase editor
       (str "/repo/main.ts::10", str "past the end") = Normal None
  /\ updateDecorations ascii_toLowerCase editor w =
     (Normal tt,
      mk_world (notes w) (disk w) (trace w ++ [SetDecorations editor []])).
Proof.
  intros editor w.
  destruct (decoration_only_on_a_line_of_the_view ascii_toLowerCase editor)
    as (_ & _ & Hout & Hview).
  split; [reflexivity|]. split; [reflexivity|]. split.
  - apply Hout. vm_compute. right. discriminate.
  - apply Hview. constructor; [|constructor; [|constructor]].
    + vm_compute. right. discriminate.
    + vm_compute. exact I.
Defined.

(** C6.  Invalid arguments.  When [args] is missing, or its [filePath] or
    its [line] is [undefined], [editNote] shows the error message and
    nothing else: no input box, and the notes and the disk are as before. *)
Theorem editNote_rejects_missing_arguments (toLowerCase : jsstring -> jsstring)
    (args : option EditArgs) (input : option jsstring)
    (visible : list TextEditor) (w : World) :
  args = None
  \/ (exists a, args = Some a /\ (arg_filePath a = None \/ arg_line a = None)) ->
  editNote toLowerCase args input visible w =
  (Normal tt,
   mk_world (notes w) (disk w)
     (trace w ++ [ShowErrorMessage
                    (str "Invalid arguments passed to Edit Note command.")])).
Proof.
  intros Hargs. apply editNote_invalid.
  destruct Hargs as [-> | ([f l] & -> & [Hf | Hl])]; cbn in *; subst; auto.
  now destruct f.
Qed.

Lemma editNote_rejects_missing_arguments_witness :
  let w := mk_world [(str "/repo/main.ts::5", str "fix this")] (NoFile true) [] in
  editNote ascii_toLowerCase (Some (mk_args None (Some 5%Z))) (Some (str "new"))
    [] w =
  (Normal tt,
   mk_world (notes w) (disk w)
     (trace w ++ [ShowErrorMessage
                    (str "Invalid arguments passed to Edit Note command.")])).
Proof.
  intros w. apply editNote_rejects_missing_arguments.
  right. exists (mk_args None (Some 5%Z)). split; [reflexivity|]. left. reflexivity.
Defined.

(** C7.  Loading.  [loadNotes] never throws.  When no file is at the path
    it changes nothing, so that the notes are still empty after the load at
    start-up; when the file is read and its text is not JSON, the exception
    is caught, an error is logged, and the notes are what they were; the
    same holds when the file cannot be read. *)
Theorem loadNotes_never_throws :
  (forall w e, fst (loadNotes w) <> Throw e)
  /\ (forall w, file_exists (disk w) = false -> loadNotes w = (Normal tt, w))
  /\ (forall d, file_exists d = false ->
                notes (snd (loadNotes (initial_world d))) = [])
  /\ (forall o content write_ok t,
        JSON_parse (utf8_decode content) = None ->
        loadNotes (mk_world o (File content true write_ok) t) =
        (Normal tt,
         mk_world o (File content true write_ok)
           (t ++ [ConsoleError (str "Failed to load notes:")])))
  /\ (forall w, file_exists (disk w) = true ->
                (forall e, fst (readFileSync w) = Throw e) ->
                loadNotes w =
                (Normal tt,
                 mk_world (notes w) (disk w)
                   (trace w ++ [ConsoleError (str "Failed to load notes:")]))).
Proof.
  split; [|split; [|split; [|split]]].
  - intros w e.
    destruct (file_content (disk w)) as [content|] eqn:Hc.
    + rewrite (loadNotes_read w content Hc).
      destruct (JSON_parse (utf8_decode content)) as [v|]; [|discriminate].
      destruct (notes_of_JSON v); discriminate.
    + destruct (file_exists (disk w)) eqn:He.
      * now rewrite loadNotes_unreadable.
      * now rewrite loadNotes_missing.
  - apply loadNotes_missing.
  - intros d Hd. now rewrite loadNotes_missing.
  - intros o content write_ok t Hparse. now rewrite loadNotes_readable, Hparse.
  - intros [o d t] Hexists Hread. apply loadNotes_unreadable; [exact Hexists|].
    cbn [disk] in *.
    destruct d as [[|]|[|]|content [|] write_ok| |[kept|]|kept|content [|] kept];
      try reflexivity; specialize (Hread IOError); discriminate.
Qed.

Lemma loadNotes_never_throws_witness :
  file_exists (NoFile true) = false
  /\ loadNotes (initial_world (NoFile true)) = (Normal tt, initial_world (NoFile true))
  /\ JSON_parse (utf8_decode (utf8_encode (str "{ not json"))) = None
  /\ loadNotes (mk_world [(str "/repo/main.ts::5", str "fix this")]
                  (File (utf8_encode (str "{ not json")) true true) []) =
     (Normal tt,
      mk_world [(str "/repo/main.ts::5", str "fix this")]
        (File (utf8_encode (str "{ not json")) true true)
        [ConsoleError (str "Failed to load notes:")]).
Proof.
  destruct loadNotes_never_throws as (_ & Hmissing & _ & Hbad & _).
  split; [reflexivity|]. split; [apply Hmissing; reflexivity|].
  split; [reflexivity|]. apply Hbad. reflexivity.
Defined.

(** C8.  Adding.  With an active editor, [addNote] does nothing but show its
    input box when the input is cancelled or empty: the notes, the disk and
    the rest of the trace are as before.  With a text, it writes the text
    under the key of the cursor, runs [saveNotes] on the store so written,
    sets on the editor the decorations collected from that store, and shows
    the confirmation.  The save is the save of that store: where the file
    can be written it holds afterwards the UTF-8 bytes of
    [JSON.stringify] of the store with the new note, and an error is logged
    exactly where it cannot.  The decorations are those of that store:
    among them, when the path of the editor cannot be confused with the
    separator and the cursor is on a line of the editor, one on the line of
    the cursor with the markdown of the text. *)
Theorem addNote_acts_only_on_a_text (toLowerCase : jsstring -> jsstring)
    (editor : TextEditor) (w : World) :
  let key := noteKey (fsPath editor) (active_line editor) in
  let asked := trace w ++ [ShowInputBox (str "Enter your note") None] in
  (forall input,
      input = None \/ input = Some [] ->
      addNote toLowerCase (Some editor) input w =
      (Normal tt, mk_world (notes w) (disk w) asked))
  /\ (forall note,
        note <> [] ->
        let written := obj_set (notes w) key note in
        exists d t ds,
          saveNotes (mk_world written (disk w) asked) = (Normal tt, mk_world written d t)
          /\ collect_decorations toLowerCase editor written [] = Normal ds
          /\ addNote toLowerCase (Some editor) (Some note) w =
             (Normal tt,
              mk_world written d
                (t ++ [SetDecorations editor ds;
                       ShowInformationMessage (str "Note added!")])))
  /\ (forall note : jsstring,
        note <> [] ->
        let written := obj_set (notes w) key note in
        let w' := snd (addNote toLowerCase (Some editor) (Some note) w) in
        notes w' = written
        /\ (writable (disk w) = true ->
            exists read_ok,
              disk w' = File (utf8_encode (JSON_stringify_notes written)) read_ok true)
        /\ trace w' =
           asked ++ (if writable (disk w) then [] else [save_error])
           ++ [SetDecorations editor (decorations_of toLowerCase editor written);
               ShowInformationMessage (str "Note added!")]
        /\ (no_separator (fsPath editor) = true ->
            (0 <= active_line editor < lineCount editor)%Z ->
            exists markdown,
              note_markdown (fsPath editor) (active_line editor) note = Some markdown
              /\ In (mk_decoration (active_line editor) markdown)
                    (decorations_of toLowerCase editor written))).
Proof.
  intros key asked. split; [|split].
  - intros input Hinput. now apply addNote_no_text.
  - intros note Hnote written.
    destruct (addNote_text toLowerCase editor note w Hnote) as (d & t & ds & H).
    exists d, t, ds. exact H.
  - intros note Hnote written w'.
    assert (Hnotes : notes w' = written).
    { unfold w'. rewrite addNote_notes.
      destruct note; [contradiction|reflexivity]. }
    split; [exact Hnotes|]. split; [|split].
    + intros Hw.
      destruct (addNote_disk toLowerCase w editor note Hnote) as (Hdisk & _).
      fold w' in Hdisk. rewrite Hnotes in Hdisk. exact (Hdisk Hw).
    + pose proof (addNote_effects toLowerCase w editor note Hnote) as Ht.
      cbv zeta in Ht. fold w' in Ht. rewrite Hnotes in Ht.
      unfold asked. rewrite <- app_assoc. exact Ht.
    + intros Hsep Hline.
      apply (stored_note_is_decorated toLowerCase (mk_world written (disk w) (trace w))
               (fsPath editor) (active_line editor) note editor);
        [apply obj_get_set|exact Hsep|reflexivity|exact Hline].
Qed.

Lemma addNote_acts_only_on_a_text_witness :
  let editor := mk_editor (str "/repo/main.ts") 10 5 in
  let w := mk_world [] (NoFile true) [] in
  let written := [(str "/repo/main.ts::5", str "fix this")] in
  addNote ascii_toLowerCase (Some editor) (Some []) w =
  (Normal tt, mk_world [] (NoFile true) [ShowInputBox (str "Enter your note") None])
  /\ (exists read_ok,
        disk (snd (addNote ascii_toLowerCase (Some editor) (Some (str "fix this")) w))
        = File (utf8_encode (JSON_stringify_notes written)) read_ok true)
  /\ trace (snd (addNote ascii_toLowerCase (Some editor) (Some (str "fix this")) w)) =
     [ShowInputBox (str "Enter your note") None;
      SetDecorations editor (decorations_of ascii_toLowerCase editor written);
      ShowInformationMessage (str "Note added!")]
  /\ exists markdown,
       In (mk_decoration 5 markdown) (decorations_of ascii_toLowerCase editor written).
Proof.
  intros editor w written.
  destruct (addNote_acts_only_on_a_text ascii_toLowerCase editor w)
    as (Hno & _ & Htext).
  split; [apply Hno; right; reflexivity|].
  destruct (Htext (str "fix this")) as (_ & Hdisk & Htrace & Hdecorated);
    [discriminate|].
  split; [exact (Hdisk eq_refl)|]. split; [exact Htrace|].
  destruct Hdecorated as (m & _ & Hin); [reflexivity|split; [discriminate|reflexivity]|].
  exists m. exact Hin.
Defined.

(** C9.  Hover on an empty note.  When the note stored under the key of
    [(filePath, line)] is the empty string, [provideHover] returns [null]
    and changes nothing, as it does when no note is stored there; and
    [editNote] given the empty string stores it. *)
Theorem hover_ignores_an_empty_note (toLowerCase : jsstring -> jsstring)
    (filePath : jsstring) (line : Z) (w : World) :
  (obj_get (notes w) (noteKey filePath line) = Some [] ->
   provideHover filePath line w = (Normal None, w))
  /\ (obj_get (notes w) (noteKey filePath line) = None ->
      provideHover filePath line w = (Normal None, w))
  /\ (forall visible,
        let edited := snd (editNote toLowerCase
                             (Some (mk_args (Some filePath) (Some line)))
                             (Some []) visible w) in
        obj_get (notes edited) (noteKey filePath line) = Some []
        /\ provideHover filePath line edited = (Normal None, edited)).
Proof.
  assert (Hempty : forall w', obj_get (notes w') (noteKey filePath line) = Some [] ->
                              provideHover filePath line w' = (Normal None, w')).
  { intros w' Hget. cbv [provideHover bind get_notes ret]. now rewrite Hget. }
  split; [apply Hempty|split].
  - intros Hget. cbv [provideHover bind get_notes ret]. now rewrite Hget.
  - intros visible edited.
    assert (Hget : obj_get (notes edited) (noteKey filePath line) = Some []).
    { unfold edited. rewrite editNote_notes. apply obj_get_set. }
    split; [exact Hget|now apply Hempty].
Qed.

Lemma hover_ignores_an_empty_note_witness :
  let w := mk_world [(str "/repo/main.ts::5", [])] (NoFile true) [] in
  obj_get (notes w) (noteKey (str "/repo/main.ts") 5) = Some []
  /\ provideHover (str "/repo/main.ts") 5 w = (Normal None, w)
  /\ obj_get (notes w) (noteKey (str "/repo/main.ts") 6) = None
  /\ provideHover (str "/repo/main.ts") 6 w = (Normal None, w).
Proof.
  intros w.
  destruct (hover_ignores_an_empty_note ascii_toLowerCase (str "/repo/main.ts") 5 w)
    as (Hempty & _ & _).
  destruct (hover_ignores_an_empty_note ascii_toLowerCase (str "/repo/main.ts") 6 w)
    as (_ & Habsent & _).
  split; [reflexivity|]. split; [apply Hempty; reflexivity|].
  split; [reflexivity|]. apply Habsent; reflexivity.
Defined.

(** C10.  Re-rendering after an edit.  Once [editNote] has written and saved
    the new text, the editor it re-renders is the first visible one whose
    path is, code unit for code unit, the [filePath] of the invocation.
    When no visible editor has that very path, the write and the save are
    done and the confirmation shown, and no decoration is set, even on an
    editor whose path the renderer would match with [filePath].  The save
    is done in both cases: where the file can be written it holds
    afterwards the UTF-8 bytes of [JSON.stringify] of the store with the new
    text, and an error is logged exactly where it cannot; and what the
    command adds to the trace is its input box, that error if any, the
    decorations of the store with the new text on the editor found, if one
    is found, and the confirmation. *)
Theorem editNote_rerenders_the_exact_path (toLowerCase : jsstring -> jsstring)
    (filePath : jsstring) (line : Z) (newNote : jsstring)
    (visible : list TextEditor) (w : World) :
  let key := noteKey filePath line in
  let written := obj_set (notes w) key newNote in
  let asked := trace w ++ [ShowInputBox (str "Edit your note")
                             (Some (prefill (notes w) key))] in
  let run := editNote toLowerCase (Some (mk_args (Some filePath) (Some line)))
               (Some newNote) visible w in
  let errors := if writable (disk w) then [] else [save_error] in
  (exists d t,
    saveNotes (mk_world written (disk w) asked) = (Normal tt, mk_world written d t)
    /\ ((forall e, In e visible -> fsPath e <> filePath) ->
        run = (Normal tt,
               mk_world written d (t ++ [ShowInformationMessage (str "Note updated!")])))
    /\ (forall before e after,
          visible = before ++ e :: after ->
          (forall e', In e' before -> fsPath e' <> filePath) ->
          fsPath e = filePath ->
          exists ds,
            collect_decorations toLowerCase e written [] = Normal ds
            /\ run = (Normal tt,
                      mk_world written d
                        (t ++ [SetDecorations e ds;
                               ShowInformationMessage (str "Note updated!")]))))
  /\ notes (snd run) = written
  /\ (writable (disk w) = true ->
      exists read_ok,
        disk (snd run) = File (utf8_encode (JSON_stringify_notes written)) read_ok true)
  /\ ((forall e, In e visible -> fsPath e <> filePath) ->
      trace (snd run) =
      asked ++ errors ++ [ShowInformationMessage (str "Note updated!")])
  /\ (forall before e after,
        visible = before ++ e :: after ->
        (forall e', In e' before -> fsPath e' <> filePath) ->
        fsPath e = filePath ->
        trace (snd run) =
        asked ++ errors
        ++ [SetDecorations e (decorations_of toLowerCase e written);
            ShowInformationMessage (str "Note updated!")]).
Proof.
  intros key written asked run errors.
  assert (Hnone : (forall e, In e visible -> fsPath e <> filePath) ->
                  find (fun e => string_eqb (fsPath e) filePath) visible = None).
  { intros Hnone.
    destruct (find _ visible) as [e|] eqn:Hfind; [|reflexivity].
    apply find_some in Hfind as [Hin Heq]. apply string_eqb_eq in Heq.
    now destruct (Hnone e Hin). }
  assert (Hfirst : forall before e after,
             (forall e', In e' before -> fsPath e' <> filePath) ->
             fsPath e = filePath ->
             find (fun e0 => string_eqb (fsPath e0) filePath) (before ++ e :: after)
             = Some e).
  { intros before e after Hbefore He.
    induction before as [|e' before IH]; cbn [app find].
    - now rewrite He, string_eqb_refl.
    - assert (Hne : fsPath e' <> filePath) by (apply Hbefore; now left).
      apply string_eqb_neq in Hne. rewrite Hne. apply IH.
      intros e0 Hin. apply Hbefore. now right. }
  assert (Hnotes : notes (snd run) = written) by apply editNote_notes.
  pose proof (editNote_effects toLowerCase w filePath line newNote visible) as Htrace.
  cbv zeta in Htrace. fold run key errors in Htrace. rewrite Hnotes in Htrace.
  rewrite app_assoc in Htrace. fold asked in Htrace.
  split; [|split; [exact Hnotes|split; [|split]]].
  - destruct (editNote_text toLowerCase filePath line newNote visible w)
      as (d & t & Hsave & Hrun).
    exists d, t. split; [exact Hsave|]. split.
    + intros Hno. rewrite (Hnone Hno) in Hrun. exact Hrun.
    + intros before e after Hv Hbefore He. subst visible.
      rewrite (Hfirst before e after Hbefore He) in Hrun. exact Hrun.
  - intros Hw.
    destruct (editNote_disk toLowerCase w filePath line newNote visible) as (Hdisk & _).
    fold run in Hdisk. rewrite Hnotes in Hdisk. exact (Hdisk Hw).
  - intros Hno. rewrite (Hnone Hno) in Htrace. exact Htrace.
  - intros before e after Hv Hbefore He. subst visible.
    rewrite (Hfirst before e after Hbefore He) in Htrace. exact Htrace.
Qed.

Lemma editNote_rerenders_the_exact_path_witness :
  let open := mk_editor (str "c:/proj/a.ts") 10 0 in
  let w := mk_world [] (NoFile true) [] in
  let filePath := str "C:\Proj\a.ts" in
  let written := [(str "C:\Proj\a.ts::3", str "fix this")] in
  let run := editNote ascii_toLowerCase (Some (mk_args (Some filePath) (Some 3%Z)))
               (Some (str "fix this")) [open] w in
  normalize ascii_toLowerCase filePath = normalize ascii_toLowerCase (fsPath open)
  /\ (forall e, In e [open] -> fsPath e <> filePath)
  /\ notes (snd run) = written
  /\ (exists read_ok,
        disk (snd run) = File (utf8_encode (JSON_stringify_notes written)) read_ok true)
  /\ trace (snd run) =
     [ShowInputBox (str "Edit your note") (Some []);
      ShowInformationMessage (str "Note updated!")].
Proof.
  intros open w filePath written run.
  assert (Hnone : forall e, In e [open] -> fsPath e <> filePath).
  { intros e [<- | []]. discriminate. }
  split; [reflexivity|]. split; [exact Hnone|].
  destruct (editNote_rerenders_the_exact_path ascii_toLowerCase filePath 3
              (str "fix this") [open] w) as (_ & Hnotes & Hdisk & Htrace & _).
  split; [exact Hnotes|]. split; [exact (Hdisk eq_refl)|]. exact (Htrace Hnone).
Defined.

(** * Further properties of the store, the file and the renderer *)

(** X1.  The store stays an object.  Start the extension on a notes file of
    the declared type: a file that is missing, or cannot be read, or does
    not hold JSON, or holds an object whose values are all strings.  In
    every state reached from there through any calls of the handlers, the
    keys of [notes] are unique and in the order of an object: a key that
    the file repeats has been loaded as one property, and a write under an
    existing key has replaced its value. *)
Theorem reachable_store_is_an_object (toLowerCase : jsstring -> jsstring) (w : World) :
  reachable toLowerCase w -> obj_wf (notes w) = true.
Proof.
  induction 1 as [d visible Hd|w w' _ IH Hstep].
  - destruct (loadNotes_declared (initial_world d) Hd) as (w1 & Hload & _).
    rewrite (activate_run _ _ _ _ Hload). cbn [snd notes].
    eapply loadNotes_wf; [exact Hload|reflexivity].
  - eapply step_wf; eassumption.
Qed.

Lemma reachable_store_is_an_object_witness :
  let editor := mk_editor (str "/repo/main.ts") 10 5 in
  let file := File (utf8_encode (str "{}")) true true in
  let started := snd (activate ascii_toLowerCase [editor] (initial_world file)) in
  let w := snd (addNote ascii_toLowerCase (Some editor) (Some (str "fix this")) started) in
  reachable ascii_toLowerCase w /\ obj_wf (notes w) = true.
Proof.
  intros editor file started w.
  assert (Hreach : reachable ascii_toLowerCase w).
  { apply reachable_step with (w := started); [|apply step_addNote].
    apply (reachable_activate ascii_toLowerCase file [editor]). reflexivity. }
  split; [exact Hreach|]. exact (reachable_store_is_an_object _ _ Hreach).
Defined.

(** X2.  Decorations stay in the view.  Start the extension on a notes file
    of the declared type, as in X1.  In every state reached from there,
    each call of [setDecorations] the extension has made gave the editor
    decorations on lines between 0 and the line count of that editor,
    whatever keys the notes file held. *)
Theorem reachable_decorations_are_within_the_view (toLowerCase : jsstring -> jsstring)
    (w : World) :
  reachable toLowerCase w ->
  forall editor decorations d,
    In (SetDecorations editor decorations) (trace w) ->
    In d decorations ->
    (0 <= range_line d < lineCount editor)%Z.
Proof.
  intros Hreach.
  assert (Hall : Forall within_the_view (trace w)).
  { induction Hreach as [d visible Hd|w w' _ IH Hstep].
    - destruct (loadNotes_declared (initial_world d) Hd) as (w1 & Hload & _ & Ht).
      rewrite (activate_run _ _ _ _ Hload). cbn [snd trace].
      apply Forall_app. split.
      + destruct Ht as [-> | ->]; repeat constructor.
      + apply Forall_forall. intros ev (e & <- & _)%in_map_iff.
        apply decorations_of_on_a_line.
    - eapply step_within_the_view; eassumption. }
  intros editor decorations d Hin Hd.
  rewrite Forall_forall in Hall. specialize (Hall _ Hin). cbn in Hall.
  rewrite Forall_forall in Hall. exact (Hall _ Hd).
Qed.

Lemma reachable_decorations_are_within_the_view_witness :
  let editor := mk_editor (str "/repo/main.ts") 10 5 in
  let file := File (utf8_encode (str "{}")) true true in
  let started := snd (activate ascii_toLowerCase [editor] (initial_world file)) in
  let w := snd (addNote ascii_toLowerCase (Some editor) (Some (str "fix this")) started) in
  exists decorations d,
    In (SetDecorations editor decorations) (trace w)
    /\ In d decorations
    /\ (0 <= range_line d < lineCount editor)%Z.
Proof.
  intros editor file started w.
  assert (Hreach : reachable ascii_toLowerCase w).
  { apply reachable_step with (w := started); [|apply step_addNote].
    apply (reachable_activate ascii_toLowerCase file [editor]). reflexivity. }
  assert (Hin : In (SetDecorations editor
                      (decorations_of ascii_toLowerCase editor
                         [(str "/repo/main.ts::5", str "fix this")])) (trace w)).
  { vm_compute. right. right. left. reflexivity. }
  eexists. eexists. split; [exact Hin|].
  assert (Hd : In (mk_decoration 5
                     (hoverMessage
                        (hd (mk_decoration 0 [])
                           (decorations_of ascii_toLowerCase editor
                              [(str "/repo/main.ts::5", str "fix this")]))))
                 (decorations_of ascii_toLowerCase editor
                    [(str "/repo/main.ts::5", str "fix this")])).
  { vm_compute. left. reflexivity. }
  split; [exact Hd|].
  exact (reachable_decorations_are_within_the_view _ _ Hreach _ _ _ Hin Hd).
Defined.

(** X3.  Keys do not collide.  The keys built for two pairs of a path and a
    line are equal only when the paths are equal and the lines are equal,
    also for paths that contain the separator: a note is never stored under
    the key of another place. *)
Theorem places_have_keys_of_their_own (filePath filePath' : jsstring) (line line' : Z) :
  noteKey filePath line = noteKey filePath' line' <->
  filePath = filePath' /\ line = line'.
Proof.
  split.
  - apply noteKey_inj.
  - now intros [-> ->].
Qed.

Lemma places_have_keys_of_their_own_witness :
  noteKey (str "/repo/a::b.ts") 12 <> noteKey (str "/repo/a") 12
  /\ noteKey (str "C:\Proj\a.ts") 3 <> noteKey (str "c:/proj/a.ts") 3.
Proof.
  split; intros H;
    apply (proj1 (places_have_keys_of_their_own _ _ _ _)) in H as [H _];
    discriminate H.
Defined.

(** X4.  Splitting a key.  [key.split('::')] always has a first piece, and
    joining its pieces with the separator gives the key back; so the path
    the renderer reads is a prefix of the key, and a key without a second
    piece is its own path and has no line. *)
Theorem split_is_undone_by_join (key : jsstring) :
  split key <> []
  /\ join (str "::") (split key) = key
  /\ (exists rest, key = key_path key ++ rest)
  /\ (key_line key = None -> key_path key = key).
Proof.
  pose proof (join_split_from key []) as Hjoin. fold (split key) in Hjoin.
  cbn [List.rev app] in Hjoin.
  split; [apply split_from_nonempty|]. split; [exact Hjoin|].
  rewrite split_shape in Hjoin. unfold key_line.
  destruct (tl (split key)) as [|piece pieces] eqn:Htl.
  - cbn [join] in Hjoin. split; [exists []; now rewrite app_nil_r|]. now intros _.
  - rewrite join_cons in Hjoin by discriminate. split; [|discriminate].
    eexists. symmetry. exact Hjoin.
Qed.

Lemma split_is_undone_by_join_witness :
  key_line (str "/repo/main.ts") = None
  /\ key_path (str "/repo/main.ts") = str "/repo/main.ts"
  /\ join (str "::") (split (str "a::b:::5")) = str "a::b:::5".
Proof.
  destruct (split_is_undone_by_join (str "/repo/main.ts")) as (_ & _ & _ & Hpath).
  destruct (split_is_undone_by_join (str "a::b:::5")) as (_ & Hjoin & _).
  split; [reflexivity|]. split; [apply Hpath; reflexivity|exact Hjoin].
Defined.

(** X5.  The other notes are left alone.  [addNote] and [editNote] change
    the store at one key at most: after either command every other key
    holds what it held before, the store has as many properties or one
    more, and the hover at any other pair of a path and a line is what it
    was, also at a path that differs from the written one only by case or
    by the slashes. *)
Theorem commands_leave_the_other_notes (toLowerCase : jsstring -> jsstring)
    (w : World) :
  (forall editor input key',
      key' <> noteKey (fsPath editor) (active_line editor) ->
      obj_get (notes (snd (addNote toLowerCase (Some editor) input w))) key'
      = obj_get (notes w) key')
  /\ (forall filePath line input visible key',
        key' <> noteKey filePath line ->
        obj_get (notes (snd (editNote toLowerCase
                               (Some (mk_args (Some filePath) (Some line)))
                               input visible w))) key'
        = obj_get (notes w) key')
  /\ (forall filePath line input visible filePath' line',
        (filePath', line') <> (filePath, line) ->
        let w' := snd (editNote toLowerCase
                         (Some (mk_args (Some filePath) (Some line)))
                         input visible w) in
        fst (provideHover filePath' line' w') = fst (provideHover filePath' line' w))
  /\ (forall filePath line input visible,
        let w' := snd (editNote toLowerCase
                         (Some (mk_args (Some filePath) (Some line)))
                         input visible w) in
        (List.length (notes w) <= List.length (notes w') <= S (List.length (notes w)))%nat)
  /\ (forall editor input filePath' line',
        (filePath', line') <> (fsPath editor, active_line editor) ->
        let w' := snd (addNote toLowerCase (Some editor) input w) in
        fst (provideHover filePath' line' w') = fst (provideHover filePath' line' w))
  /\ (forall editor input,
        let w' := snd (addNote toLowerCase editor input w) in
        (List.length (notes w) <= List.length (notes w') <= S (List.length (notes w)))%nat).
Proof.
  assert (Hadd : forall editor input key',
             key' <> noteKey (fsPath editor) (active_line editor) ->
             obj_get (notes (snd (addNote toLowerCase (Some editor) input w))) key'
             = obj_get (notes w) key').
  { intros editor input key' Hne. rewrite addNote_notes.
    destruct input as [note|]; [|reflexivity].
    destruct (truthy note); [|reflexivity]. apply obj_get_set_other. congruence. }
  assert (Hedit : forall filePath line input visible key',
             key' <> noteKey filePath line ->
             obj_get (notes (snd (editNote toLowerCase
                                    (Some (mk_args (Some filePath) (Some line)))
                                    input visible w))) key'
             = obj_get (notes w) key').
  { intros f l input visible key' Hne.
    destruct (editNote_run toLowerCase (Some (mk_args (Some f) (Some l)))
                input visible w) as (d & t & ->). cbn [snd notes].
    destruct input; [|reflexivity]. apply obj_get_set_other. congruence. }
  split; [exact Hadd|split; [exact Hedit|split; [|split; [|split]]]].
  - intros f l input visible f' l' Hne w'. unfold w'. rewrite !provideHover_eq.
    cbn [fst]. rewrite Hedit; [reflexivity|].
    intros [-> ->]%noteKey_inj. now apply Hne.
  - intros f l input visible w'. unfold w'.
    destruct (editNote_run toLowerCase (Some (mk_args (Some f) (Some l)))
                input visible w) as (d & t & ->). cbn [snd notes].
    destruct input; [|lia]. rewrite length_obj_set.
    destruct (has_key (notes w) (noteKey f l)); lia.
  - intros editor input f' l' Hne w'. unfold w'. rewrite !provideHover_eq.
    cbn [fst]. rewrite Hadd; [reflexivity|].
    intros [-> ->]%noteKey_inj. now apply Hne.
  - intros editor input w'. unfold w'. rewrite addNote_notes.
    destruct editor as [e|]; [|lia]. destruct input as [note|]; [|lia].
    destruct (truthy note); [|lia]. rewrite length_obj_set.
    destruct (has_key (notes w) _); lia.
Qed.

Lemma commands_leave_the_other_notes_witness :
  let w := mk_world [(str "c:/proj/a.ts::3", str "keep me")] (NoFile true) [] in
  let w' := snd (editNote ascii_toLowerCase
                   (Some (mk_args (Some (str "C:\Proj\a.ts")) (Some 3%Z)))
                   (Some (str "new")) [] w) in
  (str "c:/proj/a.ts", 3%Z) <> (str "C:\Proj\a.ts", 3%Z)
  /\ obj_get (notes w') (str "c:/proj/a.ts::3") = Some (str "keep me")
  /\ fst (provideHover (str "c:/proj/a.ts") 3 w')
     = fst (provideHover (str "c:/proj/a.ts") 3 w).
Proof.
  intros w w'.
  destruct (commands_leave_the_other_notes ascii_toLowerCase w)
    as (_ & Hget & Hhover & _).
  split; [discriminate|]. split.
  - unfold w'. rewrite Hget; [reflexivity|discriminate].
  - apply Hhover. discriminate.
Defined.

(** X6.  Saving.  [saveNotes] never throws and never changes the notes.
    Where the file can be written, it holds afterwards the UTF-8 bytes of
    [JSON.stringify(notes, null, 2)], nothing is logged, and a second save
    changes nothing.  Where it cannot, one error is logged, and the path is
    as it was, or holds a directory that was made and no file, or holds a
    file cut to the first bytes of that text; it is as it was whenever the
    directory cannot be made or the file cannot be opened. *)
Theorem saveNotes_writes_or_logs (w : World) :
  let text := utf8_encode (JSON_stringify_notes (notes w)) in
  let w' := snd (saveNotes w) in
  fst (saveNotes w) = Normal tt
  /\ notes w' = notes w
  /\ (writable (disk w) = true ->
      (exists read_ok, disk w' = File text read_ok true)
      /\ trace w' = trace w
      /\ saveNotes w' = (Normal tt, w'))
  /\ (writable (disk w) = false ->
      trace w' = trace w ++ [save_error]
      /\ (disk w' = disk w
          \/ (disk w = NoDirectoryFailing None /\ disk w' = NoFile false)
          \/ exists read_ok kept,
               disk w' = FileFailing (firstn kept text) read_ok kept))
  /\ (write_refused (disk w) = true -> disk w' = disk w).
Proof.
  intros text w'. unfold w'.
  split; [now destruct (saveNotes_returns w) as (d & t & ->)|].
  split; [now destruct (saveNotes_returns w) as (d & t & ->)|].
  split; [|split].
  - intros Hw. destruct (saveNotes_writable w Hw) as [r ->]. cbn [snd notes disk trace].
    split; [now exists r|]. split; [reflexivity|].
    destruct (saveNotes_writable
                (mk_world (notes w)
                   (File (utf8_encode (JSON_stringify_notes (notes w))) r true)
                   (trace w)) eq_refl) as [r' H].
    rewrite H. cbn [snd disk notes trace] in *.
    cbv [saveNotes try_catch bind existsSync_dir get_disk ret dir_exists negb
         get_notes writeFileSync put_disk disk notes trace] in H.
    now injection H as <-.
  - intros Hw. destruct (saveNotes_not_writable w Hw) as (d & -> & Hd).
    cbn [snd notes disk trace]. split; [reflexivity|exact Hd].
  - intros Hr. now rewrite saveNotes_refused.
Qed.

Lemma saveNotes_writes_or_logs_witness :
  let o := [(str "/repo/main.ts::5", str "fix this")] in
  let text := utf8_encode (JSON_stringify_notes o) in
  writable (NoDirectory true) = true
  /\ (exists read_ok,
        disk (snd (saveNotes (mk_world o (NoDirectory true) []))) = File text read_ok true)
  /\ writable (NoFileFailing 10) = false
  /\ trace (snd (saveNotes (mk_world o (NoFileFailing 10) []))) = [save_error]
  /\ write_refused NotAFile = true
  /\ disk (snd (saveNotes (mk_world o NotAFile []))) = NotAFile.
Proof.
  intros o text.
  destruct (saveNotes_writes_or_logs (mk_world o (NoDirectory true) []))
    as (_ & _ & Hw & _).
  destruct (saveNotes_writes_or_logs (mk_world o (NoFileFailing 10) []))
    as (_ & _ & _ & Hn & _).
  destruct (saveNotes_writes_or_logs (mk_world o NotAFile [])) as (_ & _ & _ & _ & Hr).
  split; [reflexivity|]. split; [exact (proj1 (Hw eq_refl))|].
  split; [reflexivity|]. split; [exact (proj1 (Hn eq_refl))|].
  split; [reflexivity|]. exact (Hr eq_refl).
Defined.

(** X7.  No handler throws on a store of the declared type.  When [notes]
    is an object whose values are strings, as it is in every state reached
    from a notes file of the declared type, then whatever the keys, the
    notes, the disk and the arguments, [addNote], [editNote],
    [updateDecorations], the handler of the change of editor and
    [saveNotes] return normally, and [provideHover] returns normally and
    leaves the state as it is: the [URIError] that [encodeURIComponent] has
    for unpaired surrogates is out of reach, since [JSON.stringify] escapes
    them. *)
Theorem handlers_return (toLowerCase : jsstring -> jsstring) (w : World) :
  (forall editor input, fst (addNote toLowerCase editor input w) = Normal tt)
  /\ (forall args input visible,
        fst (editNote toLowerCase args input visible w) = Normal tt)
  /\ (forall editor, fst (updateDecorations toLowerCase editor w) = Normal tt)
  /\ (forall editor, fst (onDidChangeActiveTextEditor toLowerCase editor w) = Normal tt)
  /\ fst (saveNotes w) = Normal tt
  /\ (forall filePath line, exists hover,
        provideHover filePath line w = (Normal hover, w)).
Proof.
  split; [|split; [|split; [|split; [|split]]]].
  - intros editor input.
    now destruct (addNote_run toLowerCase editor input w) as (d & t & ->).
  - intros args input visible.
    now destruct (editNote_run toLowerCase args input visible w) as (d & t & ->).
  - intros editor. now rewrite updateDecorations_run.
  - intros editor. now rewrite onDidChangeActiveTextEditor_run.
  - now destruct (saveNotes_returns w) as (d & t & ->).
  - intros f l. rewrite provideHover_eq.
    destruct (obj_get (notes w) (noteKey f l)) as [note|]; [|eexists; reflexivity].
    destruct (truthy note); [|eexists; reflexivity].
    destruct (note_markdown_defined f l note) as [m ->]. eexists; reflexivity.
Qed.

(** X8.  Rendering reads and repeats.  [updateDecorations] changes neither
    the notes nor the disk; it sets on the editor, in one call, the
    decorations of the entries in the order of the store, at most one for
    an entry; and a second call sets the same decorations again. *)
Theorem updateDecorations_reads_and_repeats (toLowerCase : jsstring -> jsstring)
    (editor : TextEditor) (w : World) :
  let decorations := decorations_of toLowerCase editor (notes w) in
  let once := snd (updateDecorations toLowerCase editor w) in
  let twice := snd (updateDecorations toLowerCase editor once) in
  once = mk_world (notes w) (disk w) (trace w ++ [SetDecorations editor decorations])
  /\ twice = mk_world (notes w) (disk w)
               (trace w ++ [SetDecorations editor decorations;
                            SetDecorations editor decorations])
  /\ (List.length decorations <= List.length (notes w))%nat.
Proof.
  intros decorations once twice. unfold twice, once.
  rewrite !updateDecorations_run. cbn [snd notes disk trace].
  rewrite <- app_assoc. repeat split. apply length_decorations_of.
Qed.

(** X9.  What is decorated.  [updateDecorations] makes one call of
    [setDecorations], and a decoration with a line and a message is in it
    exactly when some entry of the store has a key whose path matches the
    path of the editor, whose line portion [parseInt] reads as that line,
    a line of the editor, and whose note gives that message: the text of
    the template with the note and with the encoded pair of the path of the
    key and the line.  For paths of ASCII, to match is to have the same
    normal form.  Two entries that decode to the same line, such as the
    keys of one path in two spellings, give two decorations. *)
Theorem decorations_are_those_of_the_matching_entries
    (toLowerCase : jsstring -> jsstring) (editor : TextEditor) (w : World) :
  (forall s, forallb (fun c => c <? 128) s = true ->
             toLowerCase s = ascii_toLowerCase s) ->
  let matches key :=
    toLowerCase (replace_backslashes (key_path key))
    = toLowerCase (replace_backslashes (fsPath editor)) in
  exists decorations,
    updateDecorations toLowerCase editor w =
    (Normal tt,
     mk_world (notes w) (disk w) (trace w ++ [SetDecorations editor decorations]))
    /\ (forall line message,
          In (mk_decoration line message) decorations <->
          exists key note query,
            In (key, note) (notes w)
            /\ matches key
            /\ parseInt (key_line key) = Some line
            /\ (0 <= line < lineCount editor)%Z
            /\ encodeURIComponent (JSON_stringify_args (key_path key) line)
               = Some query
            /\ message = hover_text note query)
    /\ (forall key,
          is_ascii (key_path key) = true ->
          is_ascii (fsPath editor) = true ->
          (matches key <-> canonical_path (key_path key) = canonical_path (fsPath editor))).
Proof.
  intros Hascii matches.
  exists (decorations_of toLowerCase editor (notes w)).
  split; [apply updateDecorations_run|]. split.
  - intros line message. rewrite In_decorations_of. split.
    + intros ([key note] & Hin & Hd). exists key, note.
      rewrite decoration_of_entry_eq in Hd. unfold normalize in Hd.
      destruct (string_eqb_spec (toLowerCase (replace_backslashes (key_path key)))
                  (toLowerCase (replace_backslashes (fsPath editor)))) as [Heq|];
        [|discriminate].
      destruct (parseInt (key_line key)) as [l|]; [|discriminate].
      destruct (Z.leb_spec 0 l); destruct (Z.ltb_spec l (lineCount editor));
        cbn [andb] in Hd; try discriminate.
      rewrite note_markdown_text in Hd.
      destruct (encodeURIComponent (JSON_stringify_args (key_path key) l))
        as [query|] eqn:Hq; [|discriminate].
      cbn [option_map] in Hd. injection Hd as <- <-.
      exists query. repeat split; auto.
    + intros (key & note & query & Hin & Heq & Hline & [H0 H1] & Hq & ->).
      exists (key, note). split; [exact Hin|].
      rewrite decoration_of_entry_eq. unfold normalize. unfold matches in Heq.
      rewrite Heq, string_eqb_refl, Hline, note_markdown_text, Hq.
      apply Z.leb_le in H0. apply Z.ltb_lt in H1. now rewrite H0, H1.
  - intros key Hkey Heditor. unfold matches.
    now rewrite !(normalize_ascii toLowerCase _ Hascii) by assumption.
Qed.

Lemma decorations_are_those_of_the_matching_entries_witness :
  let editor := mk_editor (str "c:/proj/a.ts") 10 0 in
  let w := mk_world [(str "C:\Proj\a.ts::3", str "one");
                     (str "c:/proj/a.ts::3", str "two");
                     (str "c:/proj/b.ts::3", str "three")] (NoFile true) [] in
  (forall s, forallb (fun c => c <? 128) s = true ->
             ascii_toLowerCase s = ascii_toLowerCase s)
  /\ exists decorations q1 q2,
       trace (snd (updateDecorations ascii_toLowerCase editor w))
       = [SetDecorations editor decorations]
       /\ In (mk_decoration 3 (hover_text (str "one") q1)) decorations
       /\ In (mk_decoration 3 (hover_text (str "two") q2)) decorations
       /\ (forall m, ~ In (mk_decoration 3 (hover_text (str "three") m)) decorations).
Proof.
  intros editor w. split; [reflexivity|].
  destruct (decorations_are_those_of_the_matching_entries ascii_toLowerCase editor w
              (fun s _ => eq_refl)) as (ds & Hrun & Hin & Hmatch).
  destruct (encodeURIComponent (JSON_stringify_args (str "C:\Proj\a.ts") 3))
    as [q1|] eqn:H1; [|discriminate].
  destruct (encodeURIComponent (JSON_stringify_args (str "c:/proj/a.ts") 3))
    as [q2|] eqn:H2; [|discriminate].
  exists ds, q1, q2. rewrite Hrun. split; [reflexivity|]. split; [|split].
  - apply Hin. exists (str "C:\Proj\a.ts::3"), (str "one"), q1.
    split; [now left|]. split; [reflexivity|]. split; [reflexivity|].
    split; [split; [discriminate|reflexivity]|]. split; [exact H1|reflexivity].
  - apply Hin. exists (str "c:/proj/a.ts::3"), (str "two"), q2.
    split; [right; now left|]. split; [reflexivity|]. split; [reflexivity|].
    split; [split; [discriminate|reflexivity]|]. split; [exact H2|reflexivity].
  - intros m (key & note & query & Hentry & Hkey & _ & _ & _ & Htext)%Hin.
    assert (Hnote : note = str "three").
    { unfold hover_text in Htext.
      apply app_inv_head in Htext. apply app_inv_head in Htext.
      destruct Hentry as [[= <- <-]|[[= <- <-]|[[= <- <-]|[]]]];
        [discriminate Htext|discriminate Htext|reflexivity]. }
    destruct Hentry as [[= <- <-]|[[= <- <-]|[[= <- <-]|[]]]]; try discriminate Hnote.
    apply (Hmatch (str "c:/proj/b.ts::3") eq_refl eq_refl) in Hkey. discriminate Hkey.
Defined.

(** X10.  A note that is added is the note that is hovered.  After [addNote]
    with a text, [provideHover] at the path and the line of the cursor
    returns the markdown of that text, with the link that edits that path
    and line. *)
Theorem added_note_is_hovered (toLowerCase : jsstring -> jsstring)
    (editor : TextEditor) (note : jsstring) (w : World) :
  note <> [] ->
  let w' := snd (addNote toLowerCase (Some editor) (Some note) w) in
  exists markdown,
    note_markdown (fsPath editor) (active_line editor) note = Some markdown
    /\ provideHover (fsPath editor) (active_line editor) w' = (Normal (Some markdown), w').
Proof.
  intros Hnote w'.
  destruct (note_markdown_defined (fsPath editor) (active_line editor) note) as [m Hm].
  exists m. split; [exact Hm|]. rewrite provideHover_eq. unfold w' at 1.
  rewrite addNote_notes.
  destruct note as [|c note]; [contradiction|]. cbn [truthy].
  now rewrite obj_get_set, Hm.
Qed.

Lemma added_note_is_hovered_witness :
  let editor := mk_editor (str "/repo/main.ts") 10 5 in
  let w' := snd (addNote ascii_toLowerCase (Some editor) (Some (str "fix this"))
                   (mk_world [] (NoFile true) [])) in
  exists markdown,
    provideHover (str "/repo/main.ts") 5 w' = (Normal (Some markdown), w').
Proof.
  intros editor w'.
  destruct (added_note_is_hovered ascii_toLowerCase editor (str "fix this")
              (mk_world [] (NoFile true) [])) as (m & _ & H); [discriminate|].
  exists m. exact H.
Defined.

(** X11.  A note that is added is decorated.  Take an editor whose path
    cannot be confused with the separator: no colon of the path is followed
    by a colon or ends the path.  After [addNote] with a text in it, every
    view whose normalized path is that of the editor and that has the line
    of the cursor gets, when it is rendered, a decoration on that line
    whose message is the text of the template with the note and the encoded
    pair of the path and the line; and [addNote] itself has rendered its
    editor from the store it wrote. *)
Theorem added_note_is_decorated (toLowerCase : jsstring -> jsstring)
    (editor view : TextEditor) (note : jsstring) (w : World) :
  note <> [] ->
  no_separator (fsPath editor) = true ->
  toLowerCase (replace_backslashes (fsPath editor))
  = toLowerCase (replace_backslashes (fsPath view)) ->
  (0 <= active_line editor < lineCount view)%Z ->
  let w' := snd (addNote toLowerCase (Some editor) (Some note) w) in
  (exists query,
      encodeURIComponent (JSON_stringify_args (fsPath editor) (active_line editor))
      = Some query
      /\ In (mk_decoration (active_line editor) (hover_text note query))
            (decorations_of toLowerCase view (notes w')))
  /\ In (SetDecorations editor (decorations_of toLowerCase editor (notes w')))
        (trace w').
Proof.
  intros Hnote Hsep Hnorm Hline w'. split.
  - destruct (stored_note_is_decorated toLowerCase w' (fsPath editor)
                (active_line editor) note view) as (m & Hm & Hin); auto.
    + unfold w'. rewrite addNote_notes.
      destruct note as [|c note]; [contradiction|]. cbn [truthy]. apply obj_get_set.
    + rewrite note_markdown_text in Hm.
      destruct (encodeURIComponent _) as [query|]; [|discriminate].
      injection Hm as <-. now exists query.
  - unfold w'.
    destruct (addNote_text toLowerCase editor note w Hnote) as (d & t & ds & _ & Hc & H).
    change (@Some jsstring note) with (@Some (list N) note). rewrite H.
    cbn [snd notes trace]. rewrite collect_decorations_eq in Hc. injection Hc as <-.
    apply in_or_app. right. now left.
Qed.

Lemma added_note_is_decorated_witness :
  let editor := mk_editor (str "C:\Proj\a.ts") 10 5 in
  let view := mk_editor (str "c:/proj/a.ts") 8 0 in
  let w' := snd (addNote ascii_toLowerCase (Some editor) (Some (str "fix this"))
                   (mk_world [] (NoFile true) [])) in
  exists query,
    In (mk_decoration 5 (hover_text (str "fix this") query))
       (decorations_of ascii_toLowerCase view (notes w')).
Proof.
  intros editor view w'.
  destruct (added_note_is_decorated ascii_toLowerCase editor view (str "fix this")
              (mk_world [] (NoFile true) [])) as ((q & _ & H) & _).
  - discriminate.
  - reflexivity.
  - reflexivity.
  - split; [discriminate|reflexivity].
  - exists q. exact H.
Defined.

(** X12.  Notes survive a restart.  When the store, the path of the editor
    and the text are strings of 16-bit code units and the notes file can be
    written and read, the state [addNote] or [editNote] leaves is the state
    the next session starts from: [loadNotes] on the disk they leave, from
    the empty store, binds [notes] to the store they wrote, and [activate]
    decorates every visible editor from it. *)
Theorem notes_survive_a_restart (toLowerCase : jsstring -> jsstring) (w : World)
    (filePath : jsstring) (line : Z) (note : jsstring)
    (visible next_visible : list TextEditor) :
  wf_notes (notes w) = true ->
  usable (disk w) = true ->
  wf_string filePath = true ->
  wf_string note = true ->
  (forall editor,
      fsPath editor = filePath -> active_line editor = line -> note <> [] ->
      let w' := snd (addNote toLowerCase (Some editor) (Some note) w) in
      notes w' = obj_set (notes w) (noteKey filePath line) note
      /\ activate toLowerCase next_visible (initial_world (disk w')) =
         (Normal tt,
          mk_world (notes w') (disk w')
            (map (fun e => SetDecorations e (decorations_of toLowerCase e (notes w')))
                 next_visible)))
  /\ (let w' := snd (editNote toLowerCase (Some (mk_args (Some filePath) (Some line)))
                       (Some note) visible w) in
      notes w' = obj_set (notes w) (noteKey filePath line) note
      /\ activate toLowerCase next_visible (initial_world (disk w')) =
         (Normal tt,
          mk_world (notes w') (disk w')
            (map (fun e => SetDecorations e (decorations_of toLowerCase e (notes w')))
                 next_visible))).
Proof.
  intros Hwf Hd Hf Hn.
  pose proof (wf_notes_set _ filePath line note Hwf Hf Hn) as Hwf'.
  split.
  - intros editor <- <- Hnote w'.
    destruct (addNote_text toLowerCase editor note w Hnote) as (d & t & ds & Hs & _ & H).
    destruct (saved_store_is_reloaded toLowerCase _ (disk w)
                (trace w ++ [ShowInputBox (str "Enter your note") None])
                next_visible Hwf' Hd) as (d' & Hs' & _ & Hact).
    cbn [notes] in Hs. rewrite Hs' in Hs. injection Hs as <- <-.
    unfold w'. change (@Some jsstring note) with (@Some (list N) note).
    rewrite H. cbn [snd notes disk]. split; [reflexivity|exact Hact].
  - intros w'.
    destruct (editNote_text toLowerCase filePath line note visible w) as (d & t & Hs & H).
    destruct (saved_store_is_reloaded toLowerCase _ (disk w)
                (trace w ++ [ShowInputBox (str "Edit your note")
                               (Some (prefill (notes w) (noteKey filePath line)))])
                next_visible Hwf' Hd) as (d' & Hs' & _ & Hact).
    cbn [notes] in Hs. rewrite Hs' in Hs. injection Hs as <- <-.
    unfold w'. destruct (find _ visible).
    + destruct H as (ds & _ & ->). cbn [snd notes disk]. split; [reflexivity|exact Hact].
    + rewrite H. cbn [snd notes disk]. split; [reflexivity|exact Hact].
Qed.

Lemma notes_survive_a_restart_witness :
  let w := mk_world [(str "/repo/main.ts::5", str "fix this")] (NoDirectory true) [] in
  let view := mk_editor (str "/repo/other.ts") 20 0 in
  let w' := snd (editNote ascii_toLowerCase
                   (Some (mk_args (Some (str "/repo/other.ts")) (Some 7%Z)))
                   (Some (str "and this")) [] w) in
  notes w' = [(str "/repo/main.ts::5", str "fix this");
              (str "/repo/other.ts::7", str "and this")]
  /\ activate ascii_toLowerCase [view] (initial_world (disk w')) =
     (Normal tt,
      mk_world (notes w') (disk w')
        [SetDecorations view (decorations_of ascii_toLowerCase view (notes w'))]).
Proof.
  intros w view w'.
  destruct (notes_survive_a_restart ascii_toLowerCase w (str "/repo/other.ts") 7
              (str "and this") [] [view] eq_refl eq_refl eq_refl eq_refl)
    as (_ & Hnotes & Hact).
  split; [exact Hnotes|exact Hact].
Defined.

(** X13.  The gutter and the hover.  Take a note stored for a line and
    for a path that cannot be confused with the separator: no colon of the
    path is followed by a colon or ends the path.  The note is decorated on
    that line, in every view that matches the path and has the line, with
    the text of the template for the note and the encoded pair of the path
    and the line.  [provideHover] at that path and line, which writes the
    text in two parts, returns the same text when the note is not empty,
    and [null] when it is empty: an empty note has its sign in the gutter
    and no hover from the provider.  In a view whose path is another
    spelling of the path, the provider looks under the key of the spelling
    and returns [null] when nothing is stored there. *)
Theorem gutter_and_hover_of_a_stored_note (toLowerCase : jsstring -> jsstring)
    (w : World) (filePath : jsstring) (line : Z) (note : jsstring) (view : TextEditor) :
  obj_get (notes w) (noteKey filePath line) = Some note ->
  no_separator filePath = true ->
  toLowerCase (replace_backslashes filePath)
  = toLowerCase (replace_backslashes (fsPath view)) ->
  (0 <= line < lineCount view)%Z ->
  exists query,
    encodeURIComponent (JSON_stringify_args filePath line) = Some query
    /\ In (mk_decoration line (hover_text note query))
          (decorations_of toLowerCase view (notes w))
    /\ provideHover filePath line w
       = (Normal (if truthy note then Some (hover_text note query) else None), w)
    /\ (obj_get (notes w) (noteKey (fsPath view) line) = None ->
        provideHover (fsPath view) line w = (Normal None, w)).
Proof.
  intros Hget Hsep Hnorm Hline.
  destruct (stored_note_is_decorated toLowerCase w filePath line note view
              Hget Hsep Hnorm Hline) as (m & Hm & Hin).
  pose proof Hm as Htext. rewrite note_markdown_text in Htext.
  destruct (encodeURIComponent (JSON_stringify_args filePath line)) as [query|];
    [|discriminate].
  injection Htext as <-.
  exists query. split; [reflexivity|]. split; [exact Hin|]. split.
  - rewrite provideHover_eq, Hget, Hm. now destruct (truthy note).
  - intros Hview. now rewrite provideHover_eq, Hview.
Qed.

Lemma gutter_and_hover_of_a_stored_note_witness :
  let w := mk_world [(str "/repo/main.ts::5", [])] (NoFile true) [] in
  let view := mk_editor (str "/repo/main.ts") 10 0 in
  exists query,
    In (mk_decoration 5 (hover_text [] query))
       (decorations_of ascii_toLowerCase view (notes w))
    /\ provideHover (str "/repo/main.ts") 5 w = (Normal None, w).
Proof.
  intros w view.
  destruct (gutter_and_hover_of_a_stored_note ascii_toLowerCase w (str "/repo/main.ts")
              5 [] view eq_refl eq_refl eq_refl) as (q & _ & Hin & Hhover & _).
  - split; [discriminate|reflexivity].
  - exists q. split; [exact Hin|exact Hhover].
Defined.

(** X14.  Confirming the input box of [editNote] as it opened.  The box
    opens with the stored note.  When a non-empty note is stored, confirming
    that value leaves the store as it is; when none is stored, the box opens
    empty and confirming it creates a property that holds the empty
    string. *)
Theorem confirming_the_value_of_the_box (toLowerCase : jsstring -> jsstring)
    (filePath : jsstring) (line : Z) (visible : list TextEditor) (w : World) :
  let key := noteKey filePath line in
  let confirmed :=
    snd (editNote toLowerCase (Some (mk_args (Some filePath) (Some line)))
           (Some (prefill (notes w) key)) visible w) in
  (forall old, obj_get (notes w) key = Some old -> old <> [] ->
               prefill (notes w) key = old /\ notes confirmed = notes w)
  /\ (obj_get (notes w) key = None ->
      prefill (notes w) key = []
      /\ obj_get (notes confirmed) key = Some []
      /\ List.length (notes confirmed) = S (List.length (notes w))).
Proof.
  intros key confirmed. unfold confirmed. rewrite editNote_notes. fold key. split.
  - intros old Hget Hold. unfold prefill. rewrite Hget.
    destruct old as [|c old]; [contradiction|]. cbn [truthy]. split; [reflexivity|].
    unfold obj_set. rewrite (obj_get_some_has_key _ _ _ Hget).
    now apply obj_replace_same.
  - intros Hget. unfold prefill. rewrite Hget. split; [reflexivity|].
    split; [apply obj_get_set|].
    rewrite length_obj_set. now rewrite (obj_get_absent _ _ Hget).
Qed.

Lemma confirming_the_value_of_the_box_witness :
  let w := mk_world [(str "/repo/main.ts::5", str "fix this")] (NoFile true) [] in
  notes (snd (editNote ascii_toLowerCase
                (Some (mk_args (Some (str "/repo/main.ts")) (Some 5%Z)))
                (Some (prefill (notes w) (noteKey (str "/repo/main.ts") 5))) [] w))
  = notes w
  /\ obj_get (notes (snd (editNote ascii_toLowerCase
                            (Some (mk_args (Some (str "/repo/main.ts")) (Some 6%Z)))
                            (Some (prefill (notes w) (noteKey (str "/repo/main.ts") 6)))
                            [] w)))
       (noteKey (str "/repo/main.ts") 6) = Some [].
Proof.
  intros w.
  destruct (confirming_the_value_of_the_box ascii_toLowerCase (str "/repo/main.ts") 5 [] w)
    as (Hkeep & _).
  destruct (confirming_the_value_of_the_box ascii_toLowerCase (str "/repo/main.ts") 6 [] w)
    as (_ & Hnew).
  split.
  - now destruct (Hkeep (str "fix this") eq_refl ltac:(discriminate)).
  - now destruct (Hnew eq_refl) as (_ & H & _).
Defined.

(** X15.  Loading reads only.  [loadNotes] never changes what is at the
    path of the notes file.  The notes it leaves are either the notes it
    found or notes that the file alone determines: nothing of the former
    store is merged into a loaded one.  Loading a second time changes the
    notes no further. *)
Theorem loadNotes_replaces_or_keeps (w : World) :
  disk (snd (loadNotes w)) = disk w
  /\ (notes (snd (loadNotes w)) = notes w
      \/ forall o t, notes (snd (loadNotes (mk_world o (disk w) t)))
                     = notes (snd (loadNotes w)))
  /\ notes (snd (loadNotes (snd (loadNotes w)))) = notes (snd (loadNotes w)).
Proof.
  destruct (file_content (disk w)) as [content|] eqn:Hc.
  - rewrite (loadNotes_read w content Hc).
    destruct (JSON_parse (utf8_decode content)) as [v|] eqn:Hp.
    + destruct (notes_of_JSON v) as [o'|] eqn:Hn; cbn [snd disk notes].
      * split; [reflexivity|]. split.
        -- right. intros o0 t0.
           rewrite (loadNotes_read (mk_world o0 (disk w) t0) content Hc), Hp, Hn.
           reflexivity.
        -- rewrite (loadNotes_read (mk_world o' (disk w) (trace w)) content Hc), Hp, Hn.
           reflexivity.
      * split; [reflexivity|]. split; [now left|].
        now rewrite (loadNotes_read w content Hc), Hp, Hn.
    + cbn [snd disk notes]. split; [reflexivity|]. split; [now left|].
      now rewrite (loadNotes_read (mk_world (notes w) (disk w) _) content Hc), Hp.
  - destruct (file_exists (disk w)) eqn:He.
    + rewrite (loadNotes_unreadable w He Hc).
      cbn [snd disk notes trace]. split; [reflexivity|]. split; [now left|].
      now rewrite loadNotes_unreadable.
    + rewrite (loadNotes_missing w He). cbn [snd].
      split; [reflexivity|]. split; [now left|].
      now rewrite (loadNotes_missing w He).
Qed.

(** X16.  Start-up.  On a notes file that holds an object of strings,
    [activate] binds [notes] to that object and then sets, on each visible
    editor in turn, the decorations of that store.  When no file is at the
    path, or the file cannot be read or does not hold JSON, the store is
    empty and every visible editor is given the empty list of decorations;
    in the second case one error is logged first. *)
Theorem activate_decorates_the_visible_editors (toLowerCase : jsstring -> jsstring)
    (visible : list TextEditor) (d : FS) :
  (forall content v o,
      file_content d = Some content ->
      JSON_parse (utf8_decode content) = Some v ->
      notes_of_JSON v = Some o ->
      activate toLowerCase visible (initial_world d) =
      (Normal tt,
       mk_world o d
         (map (fun e => SetDecorations e (decorations_of toLowerCase e o)) visible)))
  /\ (file_exists d = false ->
      activate toLowerCase visible (initial_world d) =
      (Normal tt, mk_world [] d (map (fun e => SetDecorations e []) visible)))
  /\ (file_exists d = true ->
      (forall content,
          file_content d = Some content -> JSON_parse (utf8_decode content) = None) ->
      activate toLowerCase visible (initial_world d) =
      (Normal tt,
       mk_world [] d (load_error :: map (fun e => SetDecorations e []) visible))).
Proof.
  split; [|split].
  - intros content v o Hc Hp Hn.
    assert (Hload : loadNotes (initial_world d) = (Normal tt, mk_world o d [])).
    { now rewrite (loadNotes_read (initial_world d) content Hc), Hp, Hn. }
    now rewrite (activate_run _ _ _ _ Hload).
  - intros Hmissing.
    now rewrite (activate_run _ _ _ _ (loadNotes_missing (initial_world d) Hmissing)).
  - intros Hexists Hbad.
    assert (Hload : loadNotes (initial_world d)
                    = (Normal tt, mk_world [] d [load_error])).
    { destruct (file_content d) as [content|] eqn:Hc.
      - now rewrite (loadNotes_read (initial_world d) content Hc), (Hbad _ eq_refl).
      - now apply loadNotes_unreadable. }
    now rewrite (activate_run _ _ _ _ Hload).
Qed.

Lemma activate_decorates_the_visible_editors_witness :
  let a := mk_editor (str "/repo/main.ts") 10 0 in
  let b := mk_editor (str "/repo/other.ts") 20 0 in
  let bad := File (utf8_encode (str "{ not json")) true true in
  let o := [(str "/repo/main.ts::5", str "fix this")] in
  let good := File (utf8_encode (JSON_stringify_notes o)) true true in
  activate ascii_toLowerCase [a; b] (initial_world (NoFile true)) =
  (Normal tt, mk_world [] (NoFile true) [SetDecorations a []; SetDecorations b []])
  /\ activate ascii_toLowerCase [a; b] (initial_world bad) =
     (Normal tt,
      mk_world [] bad [load_error; SetDecorations a []; SetDecorations b []])
  /\ activate ascii_toLowerCase [a; b] (initial_world good) =
     (Normal tt,
      mk_world o good
        [SetDecorations a (decorations_of ascii_toLowerCase a o);
         SetDecorations b []]).
Proof.
  intros a b bad o good.
  destruct (activate_decorates_the_visible_editors ascii_toLowerCase [a; b] (NoFile true))
    as (_ & Hmissing & _).
  destruct (activate_decorates_the_visible_editors ascii_toLowerCase [a; b] bad)
    as (_ & _ & Hbad).
  destruct (activate_decorates_the_visible_editors ascii_toLowerCase [a; b] good)
    as (Hgood & _).
  split; [exact (Hmissing eq_refl)|]. split.
  - apply Hbad; [reflexivity|]. intros content [= <-]. reflexivity.
  - exact (Hgood _ (JObject (JSON_properties o)) o eq_refl eq_refl eq_refl).
Defined.

(** X17.  The effects of a command, in their order.  With a text, [addNote]
    and [editNote] show their input box, then log an error if and only if
    the file cannot be written, then render one editor at most (the editor
    of [addNote]; for [editNote] the first visible editor whose path is
    the [filePath] of the invocation, if there is one) with the decorations
    of the store after the write, and last show their confirmation. *)
Theorem command_effects_in_order (toLowerCase : jsstring -> jsstring) (w : World) :
  let errors := if writable (disk w) then [] else [save_error] in
  (forall editor (note : jsstring),
      note <> [] ->
      let w' := snd (addNote toLowerCase (Some editor) (Some note) w) in
      trace w' =
      trace w ++ [ShowInputBox (str "Enter your note") None] ++ errors
      ++ [SetDecorations editor (decorations_of toLowerCase editor (notes w'));
          ShowInformationMessage (str "Note added!")])
  /\ (forall filePath line (newNote : jsstring) visible,
        let w' := snd (editNote toLowerCase (Some (mk_args (Some filePath) (Some line)))
                         (Some newNote) visible w) in
        trace w' =
        trace w
        ++ [ShowInputBox (str "Edit your note")
              (Some (prefill (notes w) (noteKey filePath line)))]
        ++ errors
        ++ match find (fun e => string_eqb (fsPath e) filePath) visible with
           | Some e => [SetDecorations e (decorations_of toLowerCase e (notes w'))]
           | None => []
           end
        ++ [ShowInformationMessage (str "Note updated!")]).
Proof.
  intros errors. split.
  - intros editor note Hnote. now apply addNote_effects.
  - intros filePath line newNote visible. apply editNote_effects.
Qed.

Lemma command_effects_in_order_witness :
  let a := mk_editor (str "/repo/main.ts") 10 5 in
  let b := mk_editor (str "/repo/main.ts") 10 0 in
  let w := mk_world [] NotAFile [] in
  let w' := snd (editNote ascii_toLowerCase
                   (Some (mk_args (Some (str "/repo/main.ts")) (Some 5%Z)))
                   (Some (str "fix this")) [a; b] w) in
  trace w' =
  [ShowInputBox (str "Edit your note") (Some []); save_error;
   SetDecorations a (decorations_of ascii_toLowerCase a (notes w'));
   ShowInformationMessage (str "Note updated!")]
  /\ trace (snd (addNote ascii_toLowerCase (Some a) (Some (str "fix this")) w)) =
     [ShowInputBox (str "Enter your note") None; save_error;
      SetDecorations a
        (decorations_of ascii_toLowerCase a
           (notes (snd (addNote ascii_toLowerCase (Some a) (Some (str "fix this")) w))));
      ShowInformationMessage (str "Note added!")].
Proof.
  intros a b w w'.
  destruct (command_effects_in_order ascii_toLowerCase w) as (Hadd & Hedit).
  split.
  - exact (Hedit (str "/repo/main.ts") 5%Z (str "fix this") [a; b]).
  - apply (Hadd a (str "fix this")). discriminate.
Defined.

(** X18.  A save that fails is not told to the user.  When the notes file
    cannot be written, [editNote] with a text still writes the store in
    memory and still shows its confirmation, and shows no error message that
    was not shown before: the only sign is the logged error.  What is at the
    path is then as it was, or a directory that was made and no file, or a
    file cut to the first bytes of the new text; it is as it was, and the
    next start loads what it held before the edit, whenever the directory
    cannot be made or the file cannot be opened. *)
Theorem failed_save_is_confirmed_all_the_same (toLowerCase : jsstring -> jsstring)
    (w : World) (filePath : jsstring) (line : Z) (newNote : jsstring)
    (visible : list TextEditor) :
  writable (disk w) = false ->
  let w' := snd (editNote toLowerCase (Some (mk_args (Some filePath) (Some line)))
                   (Some newNote) visible w) in
  let text := utf8_encode (JSON_stringify_notes (notes w')) in
  obj_get (notes w') (noteKey filePath line) = Some newNote
  /\ In save_error (trace w')
  /\ In (ShowInformationMessage (str "Note updated!")) (trace w')
  /\ (forall e, ~ In (ShowErrorMessage e) (trace w) -> ~ In (ShowErrorMessage e) (trace w'))
  /\ (disk w' = disk w
      \/ (disk w = NoDirectoryFailing None /\ disk w' = NoFile false)
      \/ exists read_ok kept, disk w' = FileFailing (firstn kept text) read_ok kept)
  /\ (write_refused (disk w) = true ->
      disk w' = disk w
      /\ loadNotes (initial_world (disk w')) = loadNotes (initial_world (disk w))).
Proof.
  intros Hw w' text.
  destruct (editNote_disk toLowerCase w filePath line newNote visible)
    as (_ & Hrefused & Hcut).
  fold w' in Hrefused, Hcut. fold text in Hcut.
  pose proof (editNote_effects toLowerCase w filePath line newNote visible) as Htrace.
  cbv zeta in Htrace. fold w' in Htrace. rewrite Hw in Htrace.
  split; [unfold w'; rewrite editNote_notes; apply obj_get_set|].
  rewrite Htrace.
  split; [apply in_or_app; right; right; now left|].
  split; [repeat (apply in_or_app; right); now left|].
  split; [|split; [exact (Hcut Hw)|]].
  - intros e Hnot Hin. apply in_app_or in Hin as [Hin|Hin]; [now apply Hnot|].
    cbn [app] in Hin. destruct Hin as [Hin|[Hin|Hin]]; try discriminate.
    apply in_app_or in Hin as [Hin|Hin].
    + destruct (find _ visible); [destruct Hin as [Hin|[]]; discriminate|destruct Hin].
    + destruct Hin as [Hin|[]]. discriminate.
  - intros Hr. rewrite (Hrefused Hr). now split.
Qed.

Lemma failed_save_is_confirmed_all_the_same_witness :
  let w := mk_world [] (NoFileFailing 4) [] in
  let w' := snd (editNote ascii_toLowerCase
                   (Some (mk_args (Some (str "/repo/main.ts")) (Some 5%Z)))
                   (Some (str "fix this")) [] w) in
  writable (disk w) = false
  /\ obj_get (notes w') (noteKey (str "/repo/main.ts") 5) = Some (str "fix this")
  /\ In (ShowInformationMessage (str "Note updated!")) (trace w')
  /\ disk w' = FileFailing [123; 10; 32; 32] true 4.
Proof.
  intros w w'.
  destruct (failed_save_is_confirmed_all_the_same ascii_toLowerCase w
              (str "/repo/main.ts") 5%Z (str "fix this") [] eq_refl)
    as (Hget & _ & Hinfo & _).
  split; [reflexivity|]. split; [exact Hget|]. split; [exact Hinfo|reflexivity].
Defined.

(** X19.  No check at load.  [loadNotes] binds [notes] to what [JSON.parse]
    returns, whatever it is.  The run leaves the declared type of [notes]
    exactly when the file can be read and its text is JSON for a value that
    is not an object, or for an object one of whose values is not a string:
    [null], or an object with a number for a note.  Nothing is logged then,
    and the path is as it was. *)
Theorem loadNotes_has_no_check (w : World) (v : JSON) :
  ((exists w', loadNotes w = (OffType v, w')) <->
   exists content,
     file_content (disk w) = Some content
     /\ JSON_parse (utf8_decode content) = Some v
     /\ notes_of_JSON v = None)
  /\ (forall w', loadNotes w = (OffType v, w') -> w' = w)
  /\ (notes_of_JSON v = None <->
      (forall props, v <> JObject props)
      \/ exists props key x,
           v = JObject props /\ In (key, x) props /\ forall s, x <> JString s).
Proof.
  split; [|split].
  - split.
    + intros [w' H].
      destruct (loadNotes_cases w)
        as [H'|[H'|[(c & v' & o & _ & _ & _ & H')|(c & v' & Hc & Hp & Hn & H')]]];
        rewrite H' in H; try discriminate.
      injection H as <- _. now exists c.
    + intros (content & Hc & Hp & Hn). exists w.
      now rewrite (loadNotes_read w content Hc), Hp, Hn.
  - intros w' H.
    destruct (loadNotes_cases w)
      as [H'|[H'|[(c & v' & o & _ & _ & _ & H')|(c & v' & Hc & Hp & Hn & H')]]];
      rewrite H' in H; try discriminate.
    now injection H as _ <-.
  - destruct v as [| | | |elements|props]; cbn [notes_of_JSON];
      try (split; [intros _; left; discriminate|reflexivity]).
    split.
    + intros H. right. exists props.
      induction props as [|[k x] props IH]; [discriminate|].
      cbn [strings_of_properties] in H.
      destruct x as [| | |s| |];
        try (exists k; eexists; split; [reflexivity|];
             split; [now left|discriminate]).
      destruct (strings_of_properties props) as [o|]; [discriminate|].
      destruct (IH eq_refl) as (k' & x' & _ & Hin & Hx).
      exists k', x'. split; [reflexivity|]. split; [now right|exact Hx].
    + intros [H|(props' & k & x & [= <-] & Hin & Hx)]; [now destruct (H props)|].
      induction props as [|[k0 x0] props IH]; [destruct Hin|].
      cbn [strings_of_properties].
      destruct x0 as [| | |s| |]; try reflexivity.
      destruct Hin as [[= <- <-]|Hin]; [now destruct (Hx s)|].
      now rewrite (IH Hin).
Qed.

Lemma loadNotes_has_no_check_witness :
  let text := [123; 34; 47; 102; 58; 58; 48; 34; 58; 53; 125] in
  let w := mk_world [] (File (utf8_encode text) true true) [] in
  let v := JObject [(str "/f::0", JNumber (str "5"))] in
  loadNotes w = (OffType v, w)
  /\ notes_of_JSON v = None
  /\ loadNotes (mk_world [] (File (utf8_encode (str "null")) true true) [])
     = (OffType JNull, mk_world [] (File (utf8_encode (str "null")) true true) []).
Proof.
  intros text w v.
  destruct (loadNotes_has_no_check w v) as (Hiff & Hsame & Hshape).
  assert (Hnone : notes_of_JSON v = None).
  { apply Hshape. right. exists [(str "/f::0", JNumber (str "5"))], (str "/f::0").
    exists (JNumber (str "5")). split; [reflexivity|]. split; [now left|discriminate]. }
  assert (Hoff : exists w', loadNotes w = (OffType v, w')).
  { apply Hiff. exists (utf8_encode text). split; [reflexivity|].
    split; [reflexivity|exact Hnone]. }
  destruct Hoff as [w' H]. rewrite H, (Hsame w' H).
  split; [reflexivity|]. split; [exact Hnone|reflexivity].
Defined.

(** X20.  A save that is cut short loses every note.  When the file is
    opened, which creates or empties it, and the write fails before the last
    byte of the text, [editNote] still writes the store in memory and shows
    its confirmation; the file it leaves holds the first bytes of the text,
    which are not JSON, so that the next start logs the error of the load,
    starts from the empty store and decorates nothing: the notes that the
    file held before the edit are lost with the new one. *)
Theorem cut_save_loses_every_note (toLowerCase : jsstring -> jsstring) (w : World)
    (filePath : jsstring) (line : Z) (newNote : jsstring)
    (visible next_visible : list TextEditor) (kept : nat) :
  cut_after (disk w) = Some kept ->
  wf_entries (notes w) = true ->
  wf_string filePath = true ->
  wf_string newNote = true ->
  let w' := snd (editNote toLowerCase (Some (mk_args (Some filePath) (Some line)))
                   (Some newNote) visible w) in
  let text := utf8_encode (JSON_stringify_notes (notes w')) in
  (kept < List.length text)%nat ->
  obj_get (notes w') (noteKey filePath line) = Some newNote
  /\ In (ShowInformationMessage (str "Note updated!")) (trace w')
  /\ (exists read_ok, disk w' = FileFailing (firstn kept text) read_ok kept)
  /\ activate toLowerCase next_visible (initial_world (disk w')) =
     (Normal tt,
      mk_world [] (disk w')
        (load_error :: map (fun e => SetDecorations e []) next_visible)).
Proof.
  intros Hcut Hwf Hf Hn w' text Hkept.
  assert (Hnotes : notes w' = obj_set (notes w) (noteKey filePath line) newNote)
    by apply editNote_notes.
  assert (Hwf' : wf_entries (notes w') = true).
  { rewrite Hnotes. apply wf_entries_set; [exact Hwf|now apply wf_string_noteKey|exact Hn]. }
  assert (Hdisk : exists read_ok, disk w' = FileFailing (firstn kept text) read_ok kept).
  { destruct (editNote_text toLowerCase filePath line newNote visible w)
      as (d & t & Hs & H).
    assert (Hd : disk w' = d).
    { unfold w'. destruct (find _ visible).
      - destruct H as (ds & _ & ->). reflexivity.
      - rewrite H. reflexivity. }
    destruct (saveNotes_cut
                (mk_world (obj_set (notes w) (noteKey filePath line) newNote) (disk w)
                   (trace w ++ [ShowInputBox (str "Edit your note")
                                  (Some (prefill (notes w) (noteKey filePath line)))]))
                kept Hcut) as [r Hr].
    cbn [notes disk trace] in Hr, Hs. rewrite Hr in Hs. injection Hs as <- _. exists r. rewrite Hd. unfold text. rewrite Hnotes. reflexivity. }
  split; [rewrite Hnotes; apply obj_get_set|]. split; [|split; [exact Hdisk|]].
  - pose proof (editNote_effects toLowerCase w filePath line newNote visible) as Ht.
    cbv zeta in Ht. fold w' in Ht. rewrite Ht.
    repeat (apply in_or_app; right). now left.
  - destruct Hdisk as [r ->].
    now rewrite (activate_run _ _ _ _ (loadNotes_cut (notes w') kept kept r Hwf' Hkept)).
Qed.

Lemma cut_save_loses_every_note_witness :
  let old := [(str "/repo/other.ts::1", str "keep me")] in
  let w := mk_world old (File (utf8_encode (JSON_stringify_notes old)) true true) [] in
  let cut := mk_world old (FileFailing (utf8_encode (JSON_stringify_notes old)) true 30) [] in
  let w' := snd (editNote ascii_toLowerCase
                   (Some (mk_args (Some (str "/repo/main.ts")) (Some 5%Z)))
                   (Some (str "fix this")) [] cut) in
  notes (snd (activate ascii_toLowerCase [] (initial_world (disk w)))) = old
  /\ cut_after (disk cut) = Some 30%nat
  /\ In (ShowInformationMessage (str "Note updated!")) (trace w')
  /\ activate ascii_toLowerCase [] (initial_world (disk w')) =
     (Normal tt, mk_world [] (disk w') [load_error]).
Proof.
  intros old w cut w'.
  split; [reflexivity|]. split; [reflexivity|].
  destruct (cut_save_loses_every_note ascii_toLowerCase cut (str "/repo/main.ts") 5
              (str "fix this") [] [] 30 eq_refl eq_refl eq_refl eq_refl)
    as (_ & Hinfo & _ & Hnext).
  - vm_compute. lia.
  - split; [exact Hinfo|exact Hnext].
Defined.
